(** * gopro_sync.py: the file sync engine and the polling orchestrator

    A shallow embedding of [src/gopro_sync.py].  The script walks the
    camera's storage, decides which files are new with respect to a
    date-bucketed destination tree, copies or moves them with per-file
    error isolation, and reports aggregate counts.  The embedding keeps
    the script's structure: [copy_or_move_files] and [main] are written
    statement by statement over an explicit world (file system, event
    log, clock), in a state-and-exception monad.

    Modelling decisions, all visible in the definitions below:
    - a path is the list of its components below the root ([/Zdir/GoPro]
      is [["Zdir"; "GoPro"]]); [os.path.join] appends a component and
      [os.path.basename] takes the last one;
    - the file system is a finite map from paths to nodes (regular files
      with metadata and bytes, directories with metadata); symbolic links
      and special files are outside the model;
    - the Python standard-library calls the script makes ([os.makedirs],
      [os.walk], [shutil.copy2], [shutil.move], ...) are modelled after
      their CPython implementation on POSIX, including the ways they fail;
    - time stamps are whole seconds ([Z]); the local time zone is an
      environment function giving the UTC offset in force at a time stamp;
    - logging, notifications and sound are events appended to the world. *)

From Stdlib Require Import ZArith String List Lia Bool Ascii.
From stdpp Require Import gmap strings list fin_maps.

Local Open Scope string_scope.
Local Open Scope list_scope.
Local Open Scope Z_scope.

(** ** Paths *)

Abbreviation path := (list string).

(** [os.path.dirname] and [os.path.basename] on component lists. *)
Definition dirname (p : path) : path := removelast p.
Definition basename (p : path) : string := List.last p "".

(** ** File-system nodes *)

Record stat := mkStat {
  st_mtime : Z;      (* modification time, seconds since the epoch *)
  st_read : bool;    (* the process may read / list the node *)
  st_write : bool    (* the process may write the node / create entries in it *)
}.

Inductive node :=
| File (st : stat) (data : string)
| Dir (st : stat).

#[global] Instance stat_eq_dec : EqDecision stat.
Proof. solve_decision. Defined.
#[global] Instance node_eq_dec : EqDecision node.
Proof. solve_decision. Defined.

Abbreviation fsmap := (gmap (list string) node).

(** ** Exceptions

    Every exception the modelled calls raise is a subclass of Python's
    [Exception]; all but [ValueError] are subclasses of [OSError]. *)
Inductive exn :=
| FileExistsError
| FileNotFoundError
| NotADirectoryError
| IsADirectoryError
| PermissionError
| CrossDeviceError     (* OSError(EXDEV) from rename across file systems *)
| SameFileError
| ShutilError          (* shutil.Error *)
| ValueError.          (* year out of range in datetime.fromtimestamp *)

Inductive res (A : Type) :=
| Ok (a : A)
| Raise (e : exn).
Arguments Ok {A} a.
Arguments Raise {A} e.

(** ** Command-line arguments (lines 36-42) *)

Record Args := mkArgs {
  verbose : bool;
  move : bool;
  sound : path;
  no_notify : bool
}.

(** ** Configuration constants (lines 24-34) *)

Definition DEST_DIR : path := ["Zdir"; "GoPro"].
Definition SUCCESS_SOUND : path :=
  ["usr"; "share"; "sounds"; "freedesktop"; "stereo"; "complete.oga"].

(** ** Calendar dates

    [datetime.fromtimestamp] followed by [strftime("%m-%d-%Y")].  The
    conversion from a day number to a civil date is the one of CPython's
    [datetime] module ([_ord2ymd]; the inverse is [_ymd2ord]), over
    proleptic Gregorian ordinals where day 1 is 0001-01-01. *)

Record date := mkDate { year : Z; month : Z; day : Z }.

Definition _DI400Y : Z := 146097.
Definition _DI100Y : Z := 36524.
Definition _DI4Y : Z := 1461.

Definition _is_leap (y : Z) : bool :=
  (y mod 4 =? 0) && (negb (y mod 100 =? 0) || (y mod 400 =? 0)).

Definition _days_in_month (y m : Z) : Z :=
  if m =? 2 then (if _is_leap y then 29 else 28)
  else if (m =? 4) || (m =? 6) || (m =? 9) || (m =? 11) then 30
  else 31.

(** [_DAYS_BEFORE_MONTH[month]]: days before the first of [month] in a
    common year. *)
Definition _DAYS_BEFORE_MONTH (m : Z) : Z :=
  nth (Z.to_nat m) [0; 0; 31; 59; 90; 120; 151; 181; 212; 243; 273; 304; 334] 365.

Definition _days_before_year (y : Z) : Z :=
  let y := y - 1 in y * 365 + y / 4 - y / 100 + y / 400.

Definition _days_before_month (y m : Z) : Z :=
  _DAYS_BEFORE_MONTH m + (if (2 <? m) && _is_leap y then 1 else 0).

Definition _ymd2ord (d : date) : Z :=
  _days_before_year (year d) + _days_before_month (year d) (month d) + day d.

Definition _ord2ymd (n : Z) : date :=
  let n := n - 1 in
  let n400 := n / _DI400Y in
  let n := n mod _DI400Y in
  let y := n400 * 400 + 1 in
  let n100 := n / _DI100Y in
  let n := n mod _DI100Y in
  let n4 := n / _DI4Y in
  let n := n mod _DI4Y in
  let n1 := n / 365 in
  let n := n mod 365 in
  let y := y + n100 * 100 + n4 * 4 + n1 in
  if (n1 =? 4) || (n100 =? 4) then mkDate (y - 1) 12 31
  else
    let leapyear := (n1 =? 3) && (negb (n4 =? 24) || (n100 =? 3)) in
    let m := Z.shiftr (n + 50) 5 in
    let preceding :=
      _DAYS_BEFORE_MONTH m + (if (2 <? m) && leapyear then 1 else 0) in
    if n <? preceding then
      let m := m - 1 in
      let preceding :=
        preceding -
        (nth (Z.to_nat m) [0; 31; 28; 31; 30; 31; 30; 31; 31; 30; 31; 30; 31] 0
         + (if (m =? 2) && leapyear then 1 else 0)) in
      mkDate y m (n - preceding + 1)
    else mkDate y m (n - preceding + 1).

(** Ordinal of 1970-01-01, and the bounds of [datetime]'s range
    (0001-01-01 .. 9999-12-31). *)
Definition EPOCH_ORDINAL : Z := 719163.
Definition MAX_ORDINAL : Z := 3652059.

(** The local calendar day a time stamp falls on, as an ordinal. *)
Definition local_ordinal (utc_offset : Z → Z) (t : Z) : Z :=
  (t + utc_offset t) / 86400 + EPOCH_ORDINAL.

(** Decimal digits, zero-padded to a width. *)
Definition digit (n : Z) : string :=
  String (Ascii.ascii_of_nat (48 + Z.to_nat (n mod 10))) EmptyString.

Fixpoint zero_pad (width : nat) (n : Z) : string :=
  match width with
  | O => ""
  | S w => zero_pad w (n / 10) +:+ digit n
  end.

(** [date_obj.strftime("%m-%d-%Y")] *)
Definition strftime_mdY (d : date) : string :=
  zero_pad 2 (month d) +:+ "-" +:+ zero_pad 2 (day d) +:+ "-" +:+ zero_pad 4 (year d).

(** ** Events: log records, notifications, sound *)

Inductive level := DEBUG | INFO | WARNING | ERROR.

Inductive message :=
(* copy_or_move_files *)
| MsgFoundFiles (n : nat)                                   (* line 228 *)
| MsgNewFiles (n : nat)                                     (* line 229 *)
| MsgMoving (name : string) (dest_subdir : path)            (* line 245 *)
| MsgCopying (name : string) (dest_subdir : path)           (* line 249 *)
| MsgProgress (processed total : nat) (moved : bool) (bytes : Z)  (* line 258 *)
| MsgErrorProcessing (src : path) (e : exn)                 (* line 261 *)
| MsgSuccess (moved : bool) (processed : nat) (bytes : Z)   (* line 264 *)
| MsgErrorBatch (e : exn)                                   (* line 267 *)
(* send_desktop_notification, play_success_sound *)
| MsgNotificationSent                                       (* line 171 *)
| MsgNotificationFailed                                     (* line 177 *)
| MsgPlayed (player : string)                               (* line 196 *)
| MsgNoPlayer                                               (* line 201 *)
| MsgSoundMissing (p : path)                                (* line 205 *)
(* main *)
| MsgStarted                                                (* line 321 *)
| MsgLooking                                                (* line 322 *)
| MsgWillBe (moving : bool)                                 (* line 323 *)
| MsgDetectedOnUSB                                          (* line 330 *)
| MsgTryingMountPoint                                       (* line 337 *)
| MsgTryingGio                                              (* line 342 *)
| MsgDetectedAt (mount : path)                              (* line 347 *)
| MsgDeviceInfo (field : string)                            (* lines 352-355 *)
| MsgAccessible (mount : path)                              (* line 360 *)
| MsgFoundItems (n : nat) (mount : path)                    (* line 366 *)
| MsgProcessingDCIM (src : path)                            (* line 373 *)
| MsgProcessingRoot (src : path)                            (* line 376 *)
| MsgCompleted                                              (* line 393 *)
| MsgFailedToProcess                                        (* line 404 *)
| MsgErrorListing (e : exn)                                 (* line 416 *)
| MsgNotAccessible (mount : path)                           (* line 427 *)
| MsgMountNotFound                                          (* line 431 *)
| MsgNoCamera                                               (* line 435 *)
| MsgTimeout.                                               (* line 438 *)

(** The body text of a desktop notification. *)
Inductive notice :=
| NoticeProgress (processed total : nat) (moved : bool) (bytes : Z)  (* lines 386-387 *)
| NoticeTransferError                                       (* lines 400-401 *)
| NoticeListingError (e : exn)                              (* lines 412-413 *)
| NoticeNotAccessible (mount : path).                       (* lines 423-424 *)

Inductive event :=
| Log (lvl : level) (m : message)
| Notification (summary : string) (body : notice) (icon : string)
| Sound (player : string) (file : path).

(** ** The world and the environment *)

Record world := mkWorld {
  w_fs : fsmap;            (* the file system, source and destination alike *)
  w_events : list event;   (* what has been logged, notified and played, oldest first *)
  w_clock : Z              (* time.time(), in ticks of 1/1000 s *)
}.

Definition TICKS_PER_SECOND : Z := 1000.

(** What the script cannot see into.  The Mount Locator is an external
    collaborator: each of its entry points is represented by the reply it
    gives when called at a given clock reading, and by how long the call
    takes. *)
Record Env := mkEnv {
  utc_offset : Z → Z;                  (* local time zone, seconds east of UTC at a time stamp *)
  same_device : path → path → bool;    (* rename(2) between the two paths stays on one file system *)
  new_dir_stat : stat;                 (* metadata of a directory fresh from mkdir *)
  dir_st_size : Z;                     (* st_size the file system reports for a directory *)
  check_mtp_connection_reply : Z → bool;
  is_gopro_connected_reply : Z → option path;
  find_gopro_mount_point_reply : Z → option path;
  try_access_gopro_mtp_reply : Z → option path;
  probe_ticks : Z → N;                 (* duration of a probe started at a clock reading *)
  sleep_overshoot : Z → N;             (* how much longer than asked a sleep lasts *)
  notifier_ok : bool;                  (* the notification daemon accepts notifications *)
  audio_player : option string         (* first of the five players that can be run, if any *)
}.

(** ** The state-and-exception monad

    A computation takes the world and returns either a value or a raised
    exception, together with the world as it is at that point: what was
    written before an exception stays written. *)

Definition M (A : Type) : Type := world → res A * world.

Definition ret {A} (a : A) : M A := λ w, (Ok a, w).
Definition raise {A} (e : exn) : M A := λ w, (Raise e, w).
Definition bind {A B} (m : M A) (k : A → M B) : M B :=
  λ w, match m w with
       | (Ok a, w') => k a w'
       | (Raise e, w') => (Raise e, w')
       end.

(** [try: m except Exception as e: h e] *)
Definition try_except {A} (m : M A) (h : exn → M A) : M A :=
  λ w, match m w with
       | (Ok a, w') => (Ok a, w')
       | (Raise e, w') => h e w'
       end.

(** The monad is registered with stdpp's monad notation:
    [x ← m; k] binds, [m;; k] sequences. *)
#[global] Instance M_ret : MRet M := @ret.
#[global] Instance M_bind : MBind M := λ A B k m, bind m k.

Definition with_fs (fs : fsmap) (w : world) : world :=
  mkWorld fs (w_events w) (w_clock w).

Definition get_fs : M fsmap := λ w, (Ok (w_fs w), w).
Definition add_event (e : event) (w : world) : world :=
  mkWorld (w_fs w) (w_events w ++ [e]) (w_clock w).
Definition emit (e : event) : M unit := λ w, (Ok tt, add_event e w).
Definition get_clock : M Z := λ w, (Ok (w_clock w), w).
Definition advance_clock (d : Z) : M unit :=
  λ w, (Ok tt, mkWorld (w_fs w) (w_events w) (w_clock w + d)).

(** An operation on the file system alone. *)
Definition fs_op (f : fsmap → res fsmap) : M unit :=
  λ w, match f (w_fs w) with
       | Ok fs' => (Ok tt, with_fs fs' w)
       | Raise e => (Raise e, w)
       end.

(** ** File-system calls *)

(** [os.path.exists], [os.path.isdir] *)
Definition path_exists (fs : fsmap) (p : path) : bool :=
  match fs !! p with Some _ => true | None => false end.
Definition path_isdir (fs : fsmap) (p : path) : bool :=
  match fs !! p with Some (Dir _) => true | _ => false end.

(** [os.mkdir]: EEXIST if the name is taken, otherwise the parent has to
    be a directory the process may write. *)
Definition mkdir (new_st : stat) (p : path) (fs : fsmap) : res fsmap :=
  match fs !! p with
  | Some _ => Raise FileExistsError
  | None =>
      match fs !! dirname p with
      | None => Raise FileNotFoundError
      | Some (File _ _) => Raise NotADirectoryError
      | Some (Dir pst) =>
          if st_write pst then Ok (<[p := Dir new_st]> fs)
          else Raise PermissionError
      end
  end.

(** [os.unlink] *)
Definition unlink (p : path) (fs : fsmap) : res fsmap :=
  match fs !! p with
  | None => Raise FileNotFoundError
  | Some (Dir _) => Raise IsADirectoryError
  | Some (File _ _) =>
      match fs !! dirname p with
      | Some (Dir pst) =>
          if st_write pst then Ok (delete p fs) else Raise PermissionError
      | _ => Raise FileNotFoundError
      end
  end.

(** [shutil.copyfile] followed by [shutil.copystat]: the destination ends
    with the source's bytes and the source's metadata.  Creating the
    destination needs a writable parent directory; replacing an existing
    file needs that file to be writable. *)
Definition copyfile (src dst : path) (fs : fsmap) : res fsmap :=
  if bool_decide (src = dst) && path_exists fs src then Raise SameFileError
  else
    match fs !! src with
    | None => Raise FileNotFoundError
    | Some (Dir _) => Raise IsADirectoryError
    | Some (File st data) =>
        if negb (st_read st) then Raise PermissionError
        else
          match fs !! dst with
          | Some (Dir _) => Raise IsADirectoryError
          | Some (File dst_st _) =>
              if st_write dst_st then Ok (<[dst := File st data]> fs)
              else Raise PermissionError
          | None =>
              match fs !! dirname dst with
              | None => Raise FileNotFoundError
              | Some (File _ _) => Raise NotADirectoryError
              | Some (Dir pst) =>
                  if st_write pst then Ok (<[dst := File st data]> fs)
                  else Raise PermissionError
              end
          end
    end.

(** [os.rename] of a regular file: atomic, replaces an existing regular
    file at the destination, fails across file systems.  Renaming a
    directory would move a whole tree; [os.walk] hands the script regular
    files only, and the model refuses a directory source. *)
Definition rename (same_dev : path → path → bool) (src dst : path) (fs : fsmap)
  : res fsmap :=
  match fs !! src with
  | None => Raise FileNotFoundError
  | Some (Dir _) => Raise IsADirectoryError
  | Some (File st data) =>
      if bool_decide (src = dst) then Ok fs
      else
        match fs !! dst with
        | Some (Dir _) => Raise IsADirectoryError
        | _ =>
            match fs !! dirname src, fs !! dirname dst with
            | Some (Dir sst), Some (Dir dst_st) =>
                if negb (st_write sst && st_write dst_st) then Raise PermissionError
                else if negb (same_dev src dst) then Raise CrossDeviceError
                else Ok (<[dst := File st data]> (delete src fs))
            | _, _ => Raise FileNotFoundError
            end
        end
  end.

(** [os.walk(top)], flattened to the joined paths [os.path.join(root, file)]
    in the order the script's two nested loops visit them.

    [os.walk] lists a directory with [scandir], yields its non-directory
    entries as [files], and descends into its sub-directories; a directory
    that is missing or cannot be listed is skipped silently (no [onerror]
    is given).  So the walk yields exactly the regular files below [top]
    whose chain of directories, from [top] down to the file's parent, can
    each be listed.  The order in which [scandir] returns entries is
    arbitrary; the model fixes it to the order of the finite map. *)
Definition can_scandir (fs : fsmap) (d : path) : bool :=
  match fs !! d with
  | Some (Dir st) => st_read st
  | _ => false
  end.

Fixpoint dirs_listable (fs : fsmap) (d : path) (rel : list string) : bool :=
  match rel with
  | [] => true
  | name :: rel' => can_scandir fs d && dirs_listable fs (d ++ [name]) rel'
  end.

Fixpoint strip_prefix (top p : path) : option (list string) :=
  match top, p with
  | [], _ => Some p
  | t :: top', c :: p' => if bool_decide (t = c) then strip_prefix top' p' else None
  | _ :: _, [] => None
  end.

Definition is_file (fs : fsmap) (p : path) : bool :=
  match fs !! p with Some (File _ _) => true | _ => false end.

Definition walked (fs : fsmap) (top p : path) : bool :=
  match strip_prefix top p with
  | Some (name :: rel') => dirs_listable fs top (name :: rel') && is_file fs p
  | _ => false
  end.

Definition os_walk (fs : fsmap) (top : path) : list path :=
  List.filter (walked fs top) (map fst (map_to_list fs)).

Section Script.

Variable args : Args.
Variable env : Env.

(** *** Logging (lines 44-54): the logger drops DEBUG records unless
    [--verbose] was given. *)
Definition logger_debug (m : message) : M unit :=
  if verbose args then emit (Log DEBUG m) else mret tt.
Definition logger_info (m : message) : M unit := emit (Log INFO m).
Definition logger_warning (m : message) : M unit := emit (Log WARNING m).
Definition logger_error (m : message) : M unit := emit (Log ERROR m).

(** *** Standard-library calls in the monad *)

Definition os_mkdir (p : path) : M unit := fs_op (mkdir (new_dir_stat env) p).
Definition os_unlink (p : path) : M unit := fs_op (unlink p).
Definition os_rename (src dst : path) : M unit :=
  fs_op (rename (same_device env) src dst).

(** [os.makedirs(name, exist_ok=True)], by recursion on the reversed path
    as CPython recurses on [os.path.split(name)]: make the parent first if
    it is missing, then [mkdir] the name and forgive the failure when the
    name is a directory already. *)
Fixpoint makedirs_rev (rname : list string) : M unit :=
  match rname with
  | [] => mret tt
  | _ :: rhead =>
      fs ← get_fs;
      if negb (path_exists fs (rev rhead)) then
        try_except (makedirs_rev rhead)
                   (λ e, match e with FileExistsError => mret tt | _ => raise e end)
      else mret tt
  end;;
  try_except (os_mkdir (rev rname))
             (λ e, fs ← get_fs;
                   if negb (path_isdir fs (rev rname)) then raise e else mret tt).

Definition os_makedirs (name : path) : M unit := makedirs_rev (rev name).

(** [os.path.getmtime], [os.path.getsize]: a [stat] of the path. *)
Definition os_path_getmtime (p : path) : M Z :=
  fs ← get_fs;
  match fs !! p with
  | Some (File st _) | Some (Dir st) => mret (st_mtime st)
  | None => raise FileNotFoundError
  end.

Definition os_path_getsize (p : path) : M Z :=
  fs ← get_fs;
  match fs !! p with
  | Some (File _ data) => mret (Z.of_nat (String.length data))
  | Some (Dir _) => mret (dir_st_size env)
  | None => raise FileNotFoundError
  end.

(** [datetime.fromtimestamp]: the local calendar date; years outside
    1..9999 are refused. *)
Definition datetime_fromtimestamp (mtime : Z) : M date :=
  let n := local_ordinal (utc_offset env) mtime in
  if (1 <=? n) && (n <=? MAX_ORDINAL) then mret (_ord2ymd n)
  else raise ValueError.

(** [shutil.copy2(src, dst)] *)
Definition shutil_copy2 (src dst : path) : M path :=
  fs ← get_fs;
  let dst := if path_isdir fs dst then dst ++ [basename src] else dst in
  fs_op (copyfile src dst);;
  mret dst.

(** [shutil.move(src, dst)] for a source that is not a directory tree:
    try an atomic rename; on any [OSError] fall back to [copy2] followed
    by [unlink] of the source. *)
Definition shutil_move (src dst : path) : M path :=
  fs ← get_fs;
  if path_isdir fs dst && bool_decide (src = dst) then
    os_rename src dst;; mret dst
  else
    real_dst ← (if path_isdir fs dst then
                  let real_dst := dst ++ [basename src] in
                  if path_exists fs real_dst then raise ShutilError
                  else mret real_dst
                else mret dst);
    try_except (os_rename src real_dst)
               (λ e, fs ← get_fs;
                     if path_isdir fs src then raise e
                     else shutil_copy2 src real_dst;; os_unlink src);;
    mret real_dst.

(** *** copy_or_move_files (lines 207-268) *)

(** The outcome tuple [(success, processed, total, total_size)]. *)
Record TransferOutcome := mkOutcome {
  success : bool;
  processed_new_files : nat;
  total_new_files : nat;
  total_size_processed : Z
}.

(** Lines 218-222 and 236-241: where a file with this modification time
    and this name goes. *)
Definition date_subdir_of (date_obj : date) : path :=
  DEST_DIR ++ [strftime_mdY date_obj].

(** Lines 216-224: the body of the scanning loop, for one walked file. *)
Definition scan_file (src_path : path) (files_to_process : list path)
  : M (list path) :=
  mtime ← os_path_getmtime src_path;
  date_obj ← datetime_fromtimestamp mtime;
  let date_subdir_name := strftime_mdY date_obj in
  let dest_subdir := DEST_DIR ++ [date_subdir_name] in
  let dest_path := dest_subdir ++ [basename src_path] in
  fs ← get_fs;
  if negb (path_exists fs dest_path) then mret (files_to_process ++ [src_path])
  else mret files_to_process.

(** Lines 214-224. *)
Fixpoint scan_loop (walk : list path) (files_to_process : list path)
  : M (list path) :=
  match walk with
  | [] => mret files_to_process
  | src_path :: walk' =>
      files_to_process ← scan_file src_path files_to_process;
      scan_loop walk' files_to_process
  end.

(** Lines 236-252: what the inner [try] does up to reading the size back. *)
Definition transfer_file (src_path : path) : M Z :=
  mtime ← os_path_getmtime src_path;
  date_obj ← datetime_fromtimestamp mtime;
  let date_subdir_name := strftime_mdY date_obj in
  let dest_subdir := DEST_DIR ++ [date_subdir_name] in
  os_makedirs dest_subdir;;
  let dest_path := dest_subdir ++ [basename src_path] in
  (if move args then
     logger_debug (MsgMoving (basename src_path) dest_subdir);;
     shutil_move src_path dest_path
   else
     logger_debug (MsgCopying (basename src_path) dest_subdir);;
     shutil_copy2 src_path dest_path);;
  os_path_getsize dest_path.

(** Lines 235-261: one turn of the transfer loop, the [try] with its
    [except Exception]; [i] is the index [enumerate] gives, and the two
    counters go in and come out. *)
Definition transfer_one (i : nat) (total_new_files : nat) (src_path : path)
    (processed_new_files : nat) (total_size_processed : Z) : M (nat * Z) :=
  try_except
    (file_size ← transfer_file src_path;
     let total_size_processed := total_size_processed + file_size in
     let processed_new_files := S processed_new_files in
     (if ((i + 1) mod 10 =? 0)%nat || (i + 1 =? total_new_files)%nat then
        logger_info (MsgProgress processed_new_files total_new_files
                                 (move args) total_size_processed)
      else mret tt);;
     mret (processed_new_files, total_size_processed))
    (λ e, logger_error (MsgErrorProcessing src_path e);;
          mret (processed_new_files, total_size_processed)).

(** Lines 234-261: [for i, src_path in enumerate(files_to_process)]. *)
Fixpoint transfer_loop (i : nat) (total_new_files : nat) (files : list path)
    (processed_new_files : nat) (total_size_processed : Z) : M (nat * Z) :=
  match files with
  | [] => mret (processed_new_files, total_size_processed)
  | src_path :: files' =>
      '(processed_new_files, total_size_processed) ←
        transfer_one i total_new_files src_path
                     processed_new_files total_size_processed;
      transfer_loop (S i) total_new_files files'
                    processed_new_files total_size_processed
  end.

Definition copy_or_move_files (source_dir : path) : M TransferOutcome :=
  try_except
    (os_makedirs DEST_DIR;;
     fs ← get_fs;
     files_to_process ← scan_loop (os_walk fs source_dir) [];
     let total_new_files := length files_to_process in
     (if verbose args then
        fs ← get_fs;
        logger_info (MsgFoundFiles (length (os_walk fs source_dir)))
      else mret tt);;
     logger_info (MsgNewFiles total_new_files);;
     '(processed_new_files, total_size_processed) ←
       transfer_loop 0 total_new_files files_to_process 0 0;
     logger_info (MsgSuccess (move args) processed_new_files total_size_processed);;
     mret (mkOutcome true processed_new_files total_new_files total_size_processed))
    (λ e, logger_error (MsgErrorBatch e);;
          mret (mkOutcome false 0 0 0)).

(** *** The collaborators main calls *)

(** [if args.verbose: logger.info(...)] / [logger.debug(...)] *)
Definition verbose_info (m : message) : M unit :=
  if verbose args then logger_info m else mret tt.
Definition verbose_debug (m : message) : M unit :=
  if verbose args then logger_debug m else mret tt.

(** A probe of the outside world: it takes time and gives the reply the
    environment holds for the moment it was started. *)
Definition probe {A} (reply : Z → A) : M A :=
  now ← get_clock;
  advance_clock (Z.of_N (probe_ticks env now));;
  mret (reply now).

Definition check_mtp_connection : M bool := probe (check_mtp_connection_reply env).
Definition is_gopro_connected : M (option path) := probe (is_gopro_connected_reply env).
Definition find_gopro_mount_point : M (option path) :=
  probe (find_gopro_mount_point_reply env).
Definition try_access_gopro_mtp : M (option path) :=
  probe (try_access_gopro_mtp_reply env).

(** [get_device_info] (lines 107-154): nothing unless verbose, else a
    series of subprocess calls whose output only feeds debug records. *)
Definition get_device_info : M unit :=
  if negb (verbose args) then mret tt else probe (λ _, tt).

Definition time_time : M Z := get_clock.

(** [time.sleep(secs)]: at least the time asked for. *)
Definition time_sleep (secs : Z) : M unit :=
  now ← get_clock;
  advance_clock (secs * TICKS_PER_SECOND + Z.of_N (sleep_overshoot env now)).

(** [send_desktop_notification] (lines 156-178) *)
Definition send_desktop_notification (summary : string) (body : notice)
    (icon : string) : M bool :=
  if notifier_ok env then
    emit (Notification summary body icon);;
    logger_debug MsgNotificationSent;;
    mret true
  else
    logger_warning MsgNotificationFailed;;
    mret false.

(** [play_success_sound] (lines 180-205) *)
Definition play_success_sound : M unit :=
  fs ← get_fs;
  if path_exists fs (sound args) then
    match audio_player env with
    | Some player =>
        emit (Sound player (sound args));;
        logger_debug (MsgPlayed player)
    | None => logger_warning MsgNoPlayer
    end
  else logger_warning (MsgSoundMissing (sound args)).

(** [os.access(p, os.R_OK)] and [os.listdir(p)] *)
Definition os_access_R_OK (fs : fsmap) (p : path) : bool :=
  match fs !! p with
  | Some (File st _) | Some (Dir st) => st_read st
  | None => false
  end.

Definition os_listdir (p : path) : M (list string) :=
  fs ← get_fs;
  match fs !! p with
  | None => raise FileNotFoundError
  | Some (File _ _) => raise NotADirectoryError
  | Some (Dir st) =>
      if st_read st then
        mret (map basename
                  (List.filter (λ q, negb (bool_decide (q = [])) &&
                                     bool_decide (dirname q = p))
                               (map fst (map_to_list fs))))
      else raise PermissionError
  end.

(** *** main (lines 318-439) *)

(** Lines 358-428: a mount was found; every path through here ends in
    [sys.exit], whose code is returned. *)
Definition process_mount (gopro_mount : path) : M Z :=
  fs ← get_fs;
  if path_exists fs gopro_mount && os_access_R_OK fs gopro_mount then
    verbose_info (MsgAccessible gopro_mount);;
    try_except
      (contents ← os_listdir gopro_mount;
       verbose_info (MsgFoundItems (length contents) gopro_mount);;
       source_to_process ←
         (if bool_decide ("DCIM" ∈ contents) then
            let source_to_process := gopro_mount ++ ["DCIM"] in
            verbose_info (MsgProcessingDCIM source_to_process);;
            mret source_to_process
          else
            verbose_info (MsgProcessingRoot gopro_mount);;
            mret gopro_mount);
       r ← copy_or_move_files source_to_process;
       if success r then
         play_success_sound;;
         (if negb (no_notify args) then
            send_desktop_notification "Status: Successful"
              (NoticeProgress (processed_new_files r) (total_new_files r)
                              (move args) (total_size_processed r))
              "camera-photo";; mret tt
          else mret tt);;
         logger_info MsgCompleted;;
         mret 0
       else
         (if negb (no_notify args) then
            send_desktop_notification "Status: Failed" NoticeTransferError
                                      "dialog-error";; mret tt
          else mret tt);;
         logger_error MsgFailedToProcess;;
         mret 1)
      (λ e,
         (if negb (no_notify args) then
            send_desktop_notification "Status: Failed" (NoticeListingError e)
                                      "dialog-error";; mret tt
          else mret tt);;
         logger_error (MsgErrorListing e);;
         mret 1)
  else
    (if negb (no_notify args) then
       send_desktop_notification "Status: Failed" (NoticeNotAccessible gopro_mount)
                                 "dialog-error";; mret tt
     else mret tt);;
    logger_error (MsgNotAccessible gopro_mount);;
    mret 1.

(** Lines 328-436: one turn of the polling loop.  [Some code] when the
    turn ended in [sys.exit(code)], [None] when the loop goes on. *)
Definition poll_once : M (option Z) :=
  connected ← check_mtp_connection;
  if (connected : bool) then
    verbose_info MsgDetectedOnUSB;;
    gopro_mount ← is_gopro_connected;
    gopro_mount ←
      (match gopro_mount with
       | Some _ => mret gopro_mount
       | None => verbose_info MsgTryingMountPoint;; find_gopro_mount_point
       end);
    gopro_mount ←
      (match gopro_mount with
       | Some _ => mret gopro_mount
       | None => verbose_info MsgTryingGio;; try_access_gopro_mtp
       end);
    match gopro_mount with
    | Some gopro_mount =>
        verbose_info (MsgDetectedAt gopro_mount);;
        get_device_info;;
        verbose_debug (MsgDeviceInfo "usb");;
        verbose_debug (MsgDeviceInfo "mount");;
        verbose_debug (MsgDeviceInfo "gvfs_gio");;
        verbose_debug (MsgDeviceInfo "gvfs_list");;
        code ← process_mount gopro_mount;
        mret (Some code)
    | None =>
        verbose_info MsgMountNotFound;;
        time_sleep 1;;
        mret None
    end
  else
    verbose_info MsgNoCamera;;
    time_sleep 1;;
    mret None.

(** Lines 327-439: [while time.time() < timeout].  The loop is driven by
    a turn budget; [None] means the budget ran out before the loop ended
    (eight turns always suffice). *)
Fixpoint poll_loop (turns : nat) (timeout : Z) : M (option Z) :=
  match turns with
  | O => mret None
  | S turns' =>
      now ← time_time;
      if now <? timeout then
        r ← poll_once;
        match r with
        | Some code => mret (Some code)
        | None => poll_loop turns' timeout
        end
      else
        logger_info MsgTimeout;;
        mret (Some 0)
  end.

Definition main (turns : nat) : M (option Z) :=
  logger_info MsgStarted;;
  logger_info MsgLooking;;
  logger_info (MsgWillBe (move args));;
  now ← time_time;
  let timeout := now + 7 * TICKS_PER_SECOND in
  poll_loop turns timeout.

End Script.

#[local] Set Warnings "-clear-no-such-hyp".

(** * Specification vocabulary

    The predicates and functions the statements below are written with. *)

(** [wp m Q w]: running [m] in the world [w] ends in a result and a world
    that satisfy [Q]. *)
Definition wp {A} (m : M A) (Q : res A → world → Prop) (w : world) : Prop :=
  Q (m w).1 (m w).2.

Section MakedirsTerms.
Variable env : Env.
Local Abbreviation new := (new_dir_stat env).

(** What [makedirs] may do to the file system: add fresh directories
    along the path asked for, and nothing else. *)
Definition adds_dirs (name : path) (fs fs' : fsmap) : Prop :=
  ∀ q, fs' !! q = fs !! q ∨
       (fs !! q = None ∧ fs' !! q = Some (Dir new) ∧ q `prefix_of` name).

Definition makedirs_post (name : path) (fs0 : fsmap) (r : res unit) (fs' : fsmap) : Prop :=
  adds_dirs name fs0 fs' ∧
  (r = Ok tt → path_isdir fs' name = true) ∧
  (r = Raise FileExistsError → path_exists fs' name = true).

End MakedirsTerms.

Section TransferTerms.
Variable args : Args.
Variable env : Env.
Local Abbreviation new := (new_dir_stat env).

(** Where [shutil] really writes when asked for [dst]. *)
Definition landing (fs : fsmap) (src dst : path) : path :=
  if path_isdir fs dst then dst ++ [basename src] else dst.

Definition valid_mtime (st : stat) : bool :=
  (1 <=? local_ordinal (utc_offset env) (st_mtime st)) &&
  (local_ordinal (utc_offset env) (st_mtime st) <=? MAX_ORDINAL).

(** The bucket directory and the destination path of a file, from its
    metadata and its name (lines 218-222, 236-241). *)
Definition bucket_of (st : stat) : path :=
  DEST_DIR ++ [strftime_mdY (_ord2ymd (local_ordinal (utc_offset env) (st_mtime st)))].

Definition dest_of (c : path) (st : stat) : path := bucket_of st ++ [basename c].

Definition is_debug (ev : event) : Prop := ∃ m, ev = Log DEBUG m.

(** Everything [transfer_file] can do to the file system, by result. *)
Inductive transfer_effect (c : path) (fs : fsmap) : res Z → fsmap → Prop :=
| te_failed e b fs1 :
    adds_dirs env (DEST_DIR ++ [b]) fs fs1 →
    transfer_effect c fs (Raise e) fs1
| te_copied st data fs1 r :
    fs !! c = Some (File st data) → valid_mtime st = true →
    adds_dirs env (bucket_of st) fs fs1 →
    path_isdir fs1 (bucket_of st) = true →
    c ≠ landing fs1 c (dest_of c st) →
    (if move args then ∃ e, r = Raise e else ∃ size, r = Ok size) →
    transfer_effect c fs r (<[landing fs1 c (dest_of c st) := File st data]> fs1)
| te_moved st data fs1 size :
    move args = true →
    fs !! c = Some (File st data) → valid_mtime st = true →
    adds_dirs env (bucket_of st) fs fs1 →
    path_isdir fs1 (bucket_of st) = true →
    c ≠ landing fs1 c (dest_of c st) →
    transfer_effect c fs (Ok size)
      (<[landing fs1 c (dest_of c st) := File st data]> (delete c fs1))
| te_in_place st data fs1 size :
    move args = true →
    fs !! c = Some (File st data) → valid_mtime st = true →
    adds_dirs env (bucket_of st) fs fs1 →
    path_isdir fs1 (bucket_of st) = true →
    c = landing fs1 c (dest_of c st) →
    transfer_effect c fs (Ok size) fs1.

End TransferTerms.

Definition error_path (ev : event) : option path :=
  match ev with
  | Log ERROR (MsgErrorProcessing c _) => Some c
  | _ => None
  end.

Definition error_paths (evs : list event) : list path := omap error_path evs.

Section EngineTerms.
Variable args : Args.
Variable env : Env.
Local Abbreviation new := (new_dir_stat env).
Local Abbreviation valid_mtime := (valid_mtime env).
Local Abbreviation dest_of := (dest_of env).
Local Abbreviation bucket_of := (bucket_of env).

(** A walked file is a candidate when nothing exists at its destination. *)
Definition is_candidate (fs : fsmap) (p : path) : bool :=
  match fs !! p with
  | Some (File st _) | Some (Dir st) => negb (path_exists fs (dest_of p st))
  | None => false
  end.

(** The scan gets through a file when its time stamp converts to a date. *)
Definition scannable (fs : fsmap) (p : path) : bool :=
  match fs !! p with
  | Some (File st _) | Some (Dir st) => valid_mtime st
  | None => false
  end.

(** Lines 212-224: what runs before the first file is touched. *)
Definition prepare (source_dir : path) : M (list path) :=
  os_makedirs env DEST_DIR;;
  fs ← get_fs;
  scan_loop env (os_walk fs source_dir) [].

(** Lines 226-229: the log records between the scan and the loop. *)
Definition announce (source_dir : path) (n : nat) (w : world) : world :=
  add_event (Log INFO (MsgNewFiles n))
    (if verbose args
     then add_event (Log INFO (MsgFoundFiles (length (os_walk (w_fs w) source_dir)))) w
     else w).

End EngineTerms.

Definition is_ok {A} (r : res A) : bool :=
  match r with Ok _ => true | Raise _ => false end.

Section StepTerms.
Variable args : Args.
Variable env : Env.
Local Abbreviation new := (new_dir_stat env).
Local Abbreviation valid_mtime := (valid_mtime env).
Local Abbreviation dest_of := (dest_of env).
Local Abbreviation bucket_of := (bucket_of env).

(** The three things that can happen to a candidate. *)
Inductive kind := Failed | Copied | Moved.

Definition kind_ok (k : kind) : bool :=
  match k with Failed => false | Copied => negb (move args) | Moved => true end.

(** The file system after a turn, path by path: [d] is the destination,
    [c] the source, anything else is untouched or a fresh directory on the
    way to a bucket. *)
Definition turn (k : kind) (c d : path) (n : node) (fs fs' : fsmap) : Prop :=
  fs' !! d = (match k with Failed => fs !! d | _ => Some n end) ∧
  fs' !! c = (match k with Moved => None | _ => fs !! c end) ∧
  ∀ q, q ≠ d → q ≠ c →
       fs' !! q = fs !! q ∨
       (fs !! q = None ∧ fs' !! q = Some (Dir new) ∧ ∃ b, q `prefix_of` DEST_DIR ++ [b]).

Section RunTerms.
Variable fsa : fsmap.          (* the file system when the loop starts *)
Variable cands : list path.    (* files_to_process *)

Definition reused_for_bucket (fs : fsmap) (q : path) : Prop :=
  fs !! q = Some (Dir new) ∧ ∃ b, q `prefix_of` DEST_DIR ++ [b].

Record run_inv (done failed : list path) (fs : fsmap) : Prop := {
  (* what was there before is still there, unless this run moved it away *)
  inv_old : ∀ q n, fsa !! q = Some n →
      fs !! q = Some n ∨
      (move args = true ∧ q ∈ done ∧ (fs !! q = None ∨ reused_for_bucket fs q));
  (* what is new is a bucket directory (or one on the way to it) or a
     transferred candidate at its destination *)
  inv_new : ∀ q, fsa !! q = None →
      fs !! q = None ∨ reused_for_bucket fs q ∨
      (∃ c st data, c ∈ done ∧ fsa !! c = Some (File st data) ∧
                    q = dest_of c st ∧ fs !! q = Some (File st data));
  (* a candidate that did not fail has a file at its destination, and in
     move mode is no longer a file at its source *)
  inv_success : ∀ c st data, c ∈ done → c ∉ failed →
      fsa !! c = Some (File st data) →
      is_file fs (dest_of c st) = true ∧
      (move args = true → is_file fs c = false);
  (* the destination holds the last candidate written to it *)
  inv_last : ∀ done1 c done2 st data,
      done = done1 ++ c :: done2 → c ∉ failed →
      fsa !! c = Some (File st data) →
      (∀ c' st' data', c' ∈ done2 → fsa !! c' = Some (File st' data') →
                       dest_of c' st' ≠ dest_of c st) →
      fs !! dest_of c st = Some (File st data);
  inv_failed : ∀ c, c ∈ failed → c ∈ done
}.

End RunTerms.

End StepTerms.

Section PassTerms.
Variable args : Args.
Variable env : Env.
Local Abbreviation new := (new_dir_stat env).
Local Abbreviation valid_mtime := (valid_mtime env).
Local Abbreviation dest_of := (dest_of env).
Local Abbreviation bucket_of := (bucket_of env).
Local Abbreviation run_inv := (run_inv args env).

Definition candidates_ok (fs : fsmap) (cands : list path) : Prop :=
  ∀ c, c ∈ cands →
    ∃ st data, fs !! c = Some (File st data) ∧ fs !! dest_of c st = None.

End PassTerms.

Section SummaryTerms.
Variable args : Args.
Variable env : Env.
Local Abbreviation new := (new_dir_stat env).
Local Abbreviation valid_mtime := (valid_mtime env).
Local Abbreviation dest_of := (dest_of env).
Local Abbreviation bucket_of := (bucket_of env).
Local Abbreviation run_inv := (run_inv args env).

(** The file system the scan reads: the one [makedirs(DEST_DIR)] leaves. *)
Definition scanned_fs (source_dir : path) (w : world) : fsmap :=
  w_fs (prepare env source_dir w).2.

End SummaryTerms.

(** The log records [copy_or_move_files] writes (lines 228-267). *)
Definition engine_message (m : message) : bool :=
  match m with
  | MsgFoundFiles _ | MsgNewFiles _ | MsgMoving _ _ | MsgCopying _ _
  | MsgProgress _ _ _ _ | MsgErrorProcessing _ _ | MsgSuccess _ _ _
  | MsgErrorBatch _ => true
  | _ => false
  end.

Definition engine_event (ev : event) : bool :=
  match ev with
  | Log _ m => engine_message m
  | _ => false
  end.

(** The Mount Locator never reports a mount: whenever it is asked, each
    of its three strategies comes back empty-handed. *)
Definition never_mounts (env : Env) : Prop :=
  ∀ t, is_gopro_connected_reply env t = None ∧
       find_gopro_mount_point_reply env t = None ∧
       try_access_gopro_mtp_reply env t = None.

(** A stretch of the run in which the engine was not called: the file
    system is as it was, time went on, the log grew by records that are
    not the engine's. *)
Definition idle (w w' : world) : Prop :=
  w_fs w' = w_fs w ∧ w_clock w ≤ w_clock w' ∧
  ∃ evs, w_events w' = w_events w ++ evs ∧ Forall (λ ev, engine_event ev = false) evs.

(** [d] is the calendar date with ordinal [n]. *)
Definition date_ok (n : Z) (d : date) : bool :=
  (_ymd2ord d =? n) && (1 <=? month d) && (month d <=? 12) &&
  (1 <=? day d) && (day d <=? _days_in_month (year d) (month d)).

(** What [_ord2ymd] has to get right on a day of the first 400-year
    cycle; the days up to 145731 are those before the cycle's last year. *)
Definition cycle_check (n : Z) : bool :=
  let d := _ord2ymd n in
  date_ok n d && (1 <=? year d) && (year d <=? 400) &&
  (negb (n <=? 145731) || (year d <=? 399)).

Fixpoint checked_from (count : nat) (n : Z) : bool :=
  match count with
  | O => true
  | S count' => cycle_check n && checked_from count' (n + 1)
  end.

(** Decimal reading of a string of digits. *)
Definition digit_value (c : ascii) : option Z :=
  let k := Z.of_nat (nat_of_ascii c) in
  if (48 <=? k) && (k <=? 57) then Some (k - 48) else None.

Fixpoint parse_dec_from (acc : Z) (s : string) : option Z :=
  match s with
  | EmptyString => Some acc
  | String c s' =>
      match digit_value c with
      | Some v => parse_dec_from (10 * acc + v) s'
      | None => None
      end
  end.

Definition parse_dec (s : string) : option Z :=
  match s with
  | EmptyString => None
  | _ => parse_dec_from 0 s
  end.

Definition shift_years (q : Z) (d : date) : date :=
  mkDate (year d + 400 * q) (month d) (day d).

(** * Example worlds

    Small concrete worlds on which the script can be run by evaluation. *)

(** Metadata: a readable, writable node last modified at midnight UTC of
    5 July 2023, resp. 3 January 2024; an unreadable file; a directory
    that cannot be written. *)
Definition stat_july : stat := mkStat 1688515200 true true.
Definition stat_january : stat := mkStat 1704240000 true true.
Definition stat_unreadable : stat := mkStat 1704240000 false true.
Definition stat_dir : stat := mkStat 0 true true.
Definition stat_readonly_dir : stat := mkStat 0 true false.

(** An environment in UTC where no camera is ever found. *)
Definition env_idle : Env :=
  mkEnv (λ _, 0) (λ _ _, false) stat_dir 4096
        (λ _, false) (λ _, None) (λ _, None) (λ _, None)
        (λ _, 0%N) (λ _, 0%N) true None.

(** An environment in UTC where the camera shows up on the USB bus after
    2.5 s and its mount after 4 s; probes take 10 ms, sleeps overshoot by
    3 ms, source and destination are on different file systems. *)
Definition env_camera : Env :=
  mkEnv (λ _, 0) (λ _ _, false) stat_dir 4096
        (λ t, 2500 <? t) (λ _, None)
        (λ t, if 4000 <? t then Some ["mnt"] else None) (λ _, None)
        (λ _, 10%N) (λ _, 3%N) true (Some "paplay").

(** The camera is on the USB bus from the start, but no strategy ever
    finds its mount. *)
Definition env_unmounted : Env :=
  mkEnv (λ _, 0) (λ _ _, false) stat_dir 4096
        (λ _, true) (λ _, None) (λ _, None) (λ _, None)
        (λ _, 10%N) (λ _, 3%N) true None.

Definition args_copy : Args := mkArgs false false SUCCESS_SOUND false.
Definition args_move : Args := mkArgs false true SUCCESS_SOUND false.
Definition args_verbose_copy : Args := mkArgs true false SUCCESS_SOUND false.

(** A camera with three files, of which [a.mp4] is at the destination
    already and [b.mp4] cannot be read; [MISC] is empty. *)
Definition fs_camera : fsmap :=
  list_to_map [
    ([], Dir stat_dir);
    (["mnt"], Dir stat_dir);
    (["mnt"; "DCIM"], Dir stat_dir);
    (["mnt"; "DCIM"; "a.mp4"], File stat_july "aaaa");
    (["mnt"; "DCIM"; "b.mp4"], File stat_unreadable "bb");
    (["mnt"; "DCIM"; "sub"], Dir stat_dir);
    (["mnt"; "DCIM"; "sub"; "c.mp4"], File stat_july "ccc");
    (["mnt"; "MISC"], Dir stat_dir);
    (["Zdir"], Dir stat_dir);
    (["Zdir"; "GoPro"], Dir stat_dir);
    (["Zdir"; "GoPro"; "07-05-2023"], Dir stat_dir);
    (["Zdir"; "GoPro"; "07-05-2023"; "a.mp4"], File stat_july "aaaa") ].
Definition w_camera : world := mkWorld fs_camera [] 0.

(** Two folders of the camera hold a file of the same name and day; the
    destination tree does not exist yet. *)
Definition fs_twins : fsmap :=
  list_to_map [
    ([], Dir stat_dir);
    (["mnt"], Dir stat_dir);
    (["mnt"; "DCIM"], Dir stat_dir);
    (["mnt"; "DCIM"; "100"], Dir stat_dir);
    (["mnt"; "DCIM"; "100"; "x.mp4"], File stat_july "first");
    (["mnt"; "DCIM"; "101"], Dir stat_dir);
    (["mnt"; "DCIM"; "101"; "x.mp4"], File stat_july "second!") ].
Definition w_twins : world := mkWorld fs_twins [] 0.

(** The root directory cannot be written, and [/Zdir] is missing. *)
Definition fs_readonly : fsmap :=
  list_to_map [
    ([], Dir stat_readonly_dir);
    (["mnt"], Dir stat_dir);
    (["mnt"; "a.mp4"], File stat_july "aaaa") ].
Definition w_readonly : world := mkWorld fs_readonly [] 0.

(** The destination tree itself is given as the source: a file waits in
    [A] whose place in the bucket of 5 July 2023 is taken by a file last
    modified on 3 January 2024. *)
Definition fs_nested : fsmap :=
  list_to_map [
    ([], Dir stat_dir);
    (["Zdir"], Dir stat_dir);
    (["Zdir"; "GoPro"], Dir stat_dir);
    (["Zdir"; "GoPro"; "A"], Dir stat_dir);
    (["Zdir"; "GoPro"; "A"; "x.mp4"], File stat_july "new");
    (["Zdir"; "GoPro"; "07-05-2023"], Dir stat_dir);
    (["Zdir"; "GoPro"; "07-05-2023"; "x.mp4"], File stat_january "old") ].
Definition w_nested : world := mkWorld fs_nested [] 0.

(** The world [w_twins] after a moving pass over the camera. *)
Definition w_twins_moved : world :=
  (copy_or_move_files args_move env_idle ["mnt"; "DCIM"] w_twins).2.

(** Two computations agree on the file system: started on worlds with the
    same file system, they give the same result and leave the same file
    system (their logs and clocks may differ). *)
Definition fs_sim {A} (m1 m2 : M A) : Prop :=
  ∀ w1 w2, w_fs w1 = w_fs w2 →
    (m1 w1).1 = (m2 w2).1 ∧ w_fs (m1 w1).2 = w_fs (m2 w2).2.

(** A computation that only writes to the log. *)
Definition fs_silent (m : M unit) : Prop :=
  ∀ w, (m w).1 = Ok tt ∧ w_fs (m w).2 = w_fs w.

(** Every call only appends to the event log, and what it appends
    satisfies [P]. *)
Definition emits {A} (P : event → bool) (m : M A) : Prop :=
  ∀ w, ∃ evs, w_events (m w).2 = w_events w ++ evs ∧ forallb P evs = true.

Definition is_notification (ev : event) : bool :=
  match ev with Notification _ _ _ => true | _ => false end.

Definition is_sound (ev : event) : bool :=
  match ev with Sound _ _ => true | _ => false end.

(** The records that are written only with [--verbose]: the DEBUG
    records, and the INFO records behind [if args.verbose]. *)
Definition verbose_only (ev : event) : bool :=
  match ev with
  | Log DEBUG _ => true
  | Log INFO m =>
      match m with
      | MsgFoundFiles _ | MsgDetectedOnUSB | MsgTryingMountPoint | MsgTryingGio
      | MsgDetectedAt _ | MsgAccessible _ | MsgFoundItems _ _
      | MsgProcessingDCIM _ | MsgProcessingRoot _ | MsgMountNotFound
      | MsgNoCamera => true
      | _ => false
      end
  | _ => false
  end.

(** What the script can append to the log, given its arguments and its
    environment: DEBUG records and the INFO records behind
    [if args.verbose] only with [--verbose]; a notification only when
    notifications are not disabled and the notification daemon takes
    it; a sound only by a player that can be run, and of the configured
    file. *)
Definition may_emit (args : Args) (env : Env) (ev : event) : bool :=
  match ev with
  | Log _ _ => negb (verbose_only ev) || verbose args
  | Notification _ _ _ => negb (no_notify args) && notifier_ok env
  | Sound player file =>
      bool_decide (audio_player env = Some player) && bool_decide (file = sound args)
  end.

(** The world with some more events in its log. *)
Definition add_events (evs : list event) (w : world) : world :=
  fold_left (λ w ev, add_event ev w) evs w.

(** What [os.listdir] returns for a directory that can be listed. *)
Definition listing (fs : fsmap) (p : path) : list string :=
  map basename
      (List.filter (λ q, negb (bool_decide (q = [])) && bool_decide (dirname q = p))
                   (map fst (map_to_list fs))).

(** Lines 369-376: the directory handed to the engine. *)
Definition mount_source (fs : fsmap) (gopro_mount : path) : path :=
  if bool_decide ("DCIM" ∈ listing fs gopro_mount) then gopro_mount ++ ["DCIM"]
  else gopro_mount.

Section MountTerms.
Variable args : Args.
Variable env : Env.

(** The INFO records behind [if args.verbose]. *)
Definition verbose_records (ms : list message) : list event :=
  if verbose args then map (Log INFO) ms else [].

(** What one use of the notification block (lines 390-391, 397-403,
    409-415, 420-426) appends. *)
Definition notify_events (summary : string) (body : notice) (icon : string)
  : list event :=
  if no_notify args then []
  else if notifier_ok env then
    Notification summary body icon ::
    (if verbose args then [Log DEBUG MsgNotificationSent] else [])
  else [Log WARNING MsgNotificationFailed].

(** What [play_success_sound] appends. *)
Definition sound_events (fs : fsmap) : list event :=
  if path_exists fs (sound args) then
    match audio_player env with
    | Some player =>
        Sound player (sound args) ::
        (if verbose args then [Log DEBUG (MsgPlayed player)] else [])
    | None => [Log WARNING MsgNoPlayer]
    end
  else [Log WARNING (MsgSoundMissing (sound args))].

(** The world in which the engine is started. *)
Definition mount_world (gopro_mount : path) (w : world) : world :=
  add_events
    (verbose_records
       [MsgAccessible gopro_mount;
        MsgFoundItems (length (listing (w_fs w) gopro_mount)) gopro_mount;
        if bool_decide ("DCIM" ∈ listing (w_fs w) gopro_mount)
        then MsgProcessingDCIM (gopro_mount ++ ["DCIM"])
        else MsgProcessingRoot gopro_mount]) w.

End MountTerms.

Section MountRunTerms.
Variable args : Args.
Variable env : Env.
Local Abbreviation notify_events := (notify_events args env).
Local Abbreviation sound_events := (sound_events args env).
Local Abbreviation verbose_records := (verbose_records args).
Local Abbreviation mount_world := (mount_world args).

(** The tail of a run that did not start the engine. *)
Definition refusal (gopro_mount : path) (fs : fsmap) : list event :=
  if os_access_R_OK fs gopro_mount then
    verbose_records [MsgAccessible gopro_mount] ++
    notify_events "Status: Failed" (NoticeListingError NotADirectoryError)
                  "dialog-error" ++
    [Log ERROR (MsgErrorListing NotADirectoryError)]
  else
    notify_events "Status: Failed" (NoticeNotAccessible gopro_mount) "dialog-error" ++
    [Log ERROR (MsgNotAccessible gopro_mount)].

(** The tail of a run after the engine returned. *)
Definition epilogue (o : TransferOutcome) (fs : fsmap) : list event :=
  if success o then
    sound_events fs ++
    notify_events "Status: Successful"
      (NoticeProgress (processed_new_files o) (total_new_files o)
                      (move args) (total_size_processed o))
      "camera-photo" ++
    [Log INFO MsgCompleted]
  else
    notify_events "Status: Failed" NoticeTransferError "dialog-error" ++
    [Log ERROR MsgFailedToProcess].

End MountRunTerms.

(** The log record that goes with an exit code: the time-out and the
    completion message with 0, the three error messages of lines 404,
    416 and 427 with 1. *)
Definition final_record (code : Z) (ev : event) : bool :=
  match ev with
  | Log INFO MsgTimeout | Log INFO MsgCompleted => code =? 0
  | Log ERROR MsgFailedToProcess | Log ERROR (MsgErrorListing _)
  | Log ERROR (MsgNotAccessible _) => code =? 1
  | _ => false
  end.

(** How a run that got to [sys.exit] ended. *)
Definition exited (r : res (option Z)) (w' : world) : Prop :=
  ∃ code ev, r = Ok (Some code) ∧ last (w_events w') = Some ev ∧
             final_record code ev = true.

(** A date of the proleptic Gregorian calendar in the range of
    [datetime]. *)
Definition valid_date (d : date) : Prop :=
  1 ≤ year d ≤ 9999 ∧ 1 ≤ month d ≤ 12 ∧
  1 ≤ day d ≤ _days_in_month (year d) (month d).

(** The date comes back from its ordinal, and the ordinal is one of the
    year of the date. *)
Definition date_round_trips (d : date) : bool :=
  let n := _ymd2ord d in
  (1 <=? n) && (n <=? _days_before_year (year d + 1)) &&
  (year (_ord2ymd n) =? year d) && (month (_ord2ymd n) =? month d) &&
  (day (_ord2ymd n) =? day d).

(** [f] holds of 1, 2, ..., [n]. *)
Definition all_from_one (n : nat) (f : Z → bool) : bool :=
  forallb (λ k, f (Z.of_nat k + 1)) (seq 0 n).

Definition month_checked (y m : Z) : bool :=
  all_from_one (Z.to_nat (_days_in_month y m))
               (λ dd, date_round_trips (mkDate y m dd)).

Definition year_checked (y : Z) : bool := all_from_one 12 (month_checked y).

(** The size in bytes of the regular file at a path. *)
Definition file_size (fs : fsmap) (p : path) : Z :=
  match fs !! p with
  | Some (File _ data) => Z.of_nat (String.length data)
  | _ => 0
  end.

(** The sizes of the candidates that did not fail, added up in the order
    of the loop. *)
Fixpoint transferred_size (fs : fsmap) (cands failed : list path) : Z :=
  match cands with
  | [] => 0
  | c :: cands' =>
      (if bool_decide (c ∈ failed) then 0 else file_size fs c) +
      transferred_size fs cands' failed
  end.

(** A mount that one of the three strategies of the locator reports at
    some time. *)
Definition mount_reported (env : Env) (gopro_mount : path) : Prop :=
  ∃ t, is_gopro_connected_reply env t = Some gopro_mount ∨
       find_gopro_mount_point_reply env t = Some gopro_mount ∨
       try_access_gopro_mtp_reply env t = Some gopro_mount.

Section WholeRunTerms.
Variable args : Args.
Variable env : Env.

(** The file system [fs'] is what one call of the engine leaves when it
    is started on the file system of [w], for a mount the locator
    reported that is a directory the process may read. *)
Definition engine_ran_once (w : world) (fs' : fsmap) : Prop :=
  ∃ gopro_mount,
    mount_reported env gopro_mount ∧
    os_access_R_OK (w_fs w) gopro_mount = true ∧
    path_isdir (w_fs w) gopro_mount = true ∧
    fs' = w_fs (copy_or_move_files args env
                  (if path_exists (w_fs w) (gopro_mount ++ ["DCIM"])
                   then gopro_mount ++ ["DCIM"] else gopro_mount) w).2.

End WholeRunTerms.

(** A file last modified on 1 January of the year 10000, which no
    [datetime] can hold; a file modified one hour after [stat_july]. *)
Definition stat_far_future : stat := mkStat 253402300800 true true.
Definition stat_july_1am : stat := mkStat 1688518800 true true.

(** Copying with notifications disabled. *)
Definition args_no_notify : Args := mkArgs false false SUCCESS_SOUND true.

(** A camera with one good file and one whose time stamp is out of
    range. *)
Definition fs_far_future : fsmap :=
  list_to_map [
    ([], Dir stat_dir);
    (["mnt"], Dir stat_dir);
    (["mnt"; "DCIM"], Dir stat_dir);
    (["mnt"; "DCIM"; "a.mp4"], File stat_july "aaaa");
    (["mnt"; "DCIM"; "z.mp4"], File stat_far_future "zz") ].
Definition w_far_future : world := mkWorld fs_far_future [] 0.

(** The world [w_camera] later in a run: something is in the log, and
    the clock shows five seconds. *)
Definition w_camera_later : world :=
  mkWorld fs_camera [Log INFO MsgTimeout] 5000.

(** * Reasoning about the monad: weakest preconditions *)

Lemma wp_run {A} (m : M A) Q w r w' : wp m Q w → m w = (r, w') → Q r w'.
Proof. unfold wp. intros H E. by rewrite E in H. Qed.

Lemma wp_intro {A} (m : M A) (Q : res A → world → Prop) w :
  (∀ r w', m w = (r, w') → Q r w') → wp m Q w.
Proof. unfold wp. intros H. apply H. by destruct (m w). Qed.

Lemma wp_mono {A} (m : M A) (Q Q' : res A → world → Prop) w :
  wp m Q w → (∀ r w', Q r w' → Q' r w') → wp m Q' w.
Proof. unfold wp. auto. Qed.

Lemma wp_ret {A} (a : A) (Q : res A → world → Prop) w : Q (Ok a) w → wp (mret a) Q w.
Proof. done. Qed.

Lemma wp_raise {A} e (Q : res A → world → Prop) w : Q (Raise e) w → wp (raise e) Q w.
Proof. done. Qed.

Lemma wp_bind {A B} (m : M A) (k : A → M B) (Q : res B → world → Prop) w :
  wp m (λ r w1, match r with
                | Ok a => wp (k a) Q w1
                | Raise e => Q (Raise e) w1
                end) w →
  wp (m ≫= k) Q w.
Proof.
  unfold wp, mbind, M_bind, bind. destruct (m w) as [[a|e] w1]; done.
Qed.

Lemma wp_try {A} (m : M A) (h : exn → M A) (Q : res A → world → Prop) w :
  wp m (λ r w1, match r with
                | Ok a => Q (Ok a) w1
                | Raise e => wp (h e) Q w1
                end) w →
  wp (try_except m h) Q w.
Proof.
  unfold wp, try_except. destruct (m w) as [[a|e] w1]; done.
Qed.

Lemma wp_get_fs (Q : res fsmap → world → Prop) w : Q (Ok (w_fs w)) w → wp get_fs Q w.
Proof. done. Qed.

Lemma wp_emit ev (Q : res unit → world → Prop) w :
  Q (Ok tt) (add_event ev w) → wp (emit ev) Q w.
Proof. done. Qed.

Lemma wp_fs_op f (Q : res unit → world → Prop) w :
  match f (w_fs w) with
  | Ok fs' => Q (Ok tt) (with_fs fs' w)
  | Raise e => Q (Raise e) w
  end → wp (fs_op f) Q w.
Proof. unfold wp, fs_op. by destruct (f (w_fs w)). Qed.

#[global] Opaque wp.

Lemma with_fs_with_fs fs fs' w : with_fs fs' (with_fs fs w) = with_fs fs' w.
Proof. reflexivity. Qed.
Lemma with_fs_same w : with_fs (w_fs w) w = w.
Proof. by destruct w. Qed.

(** * Paths *)

Lemma dirname_snoc (p : path) (n : string) : dirname (p ++ [n]) = p.
Proof. unfold dirname. apply removelast_last. Qed.
Lemma basename_snoc (p : path) (n : string) : basename (p ++ [n]) = n.
Proof. unfold basename. apply last_last. Qed.

(** * Directory creation *)

Section Makedirs.
Variable env : Env.
Local Abbreviation new := (new_dir_stat env).

Local Abbreviation adds_dirs := (adds_dirs env).

Lemma adds_dirs_refl name fs : adds_dirs name fs fs.
Proof. intros q. by left. Qed.

Lemma adds_dirs_weaken name name' fs fs' :
  name `prefix_of` name' → adds_dirs name fs fs' → adds_dirs name' fs fs'.
Proof.
  intros Hp Ha q. destruct (Ha q) as [|(?&?&?)]; [by left|right].
  split; [done|]. split; [done|]. by etrans.
Qed.

Lemma adds_dirs_keeps' name fs fs1 p n :
  adds_dirs name fs fs1 → fs !! p = Some n → fs1 !! p = Some n.
Proof. intros Ha Hp. destruct (Ha p) as [->|(?&?&?)]; congruence. Qed.

Lemma mkdir_Ok p fs fs' :
  mkdir new p fs = Ok fs' → fs !! p = None ∧ fs' = <[p := Dir new]> fs.
Proof.
  unfold mkdir. destruct (fs !! p); [done|].
  destruct (fs !! dirname p) as [[|pst]|]; try done.
  destruct (st_write pst); [|done]. intros [= <-]. done.
Qed.

Lemma adds_dirs_mkdir name fs fs' :
  adds_dirs name fs fs' → fs' !! name = None →
  adds_dirs name fs (<[name := Dir new]> fs').
Proof.
  intros Ha Hn q. destruct (decide (q = name)) as [->|].
  - destruct (Ha name) as [E|(E1&E2&E3)]; [|congruence].
    right. rewrite lookup_insert_eq. split; [congruence|]. done.
  - rewrite lookup_insert_ne by done. apply Ha.
Qed.

Local Abbreviation makedirs_post := (makedirs_post env).

(** The last step of [makedirs]: [mkdir], forgiven when the directory is there. *)
Lemma wp_mkdir_exist_ok name w0 fs :
  adds_dirs name (w_fs w0) fs →
  wp (try_except (os_mkdir env name)
        (λ e, fs ← get_fs;
              if negb (path_isdir fs name) then raise e else mret tt))
     (λ r w', ∃ fs', w' = with_fs fs' w0 ∧ makedirs_post name (w_fs w0) r fs')
     (with_fs fs w0).
Proof.
  intros Ha. apply wp_try. unfold os_mkdir. apply wp_fs_op. cbn [w_fs with_fs].
  destruct (mkdir new name fs) as [fs1|e] eqn:Hm.
  - apply mkdir_Ok in Hm as [Hn ->]. eexists. split; [done|]. split; [|split].
    + by apply adds_dirs_mkdir.
    + intros _. unfold path_isdir. by rewrite lookup_insert_eq.
    + done.
  - apply wp_bind, wp_get_fs. cbn [w_fs with_fs].
    destruct (path_isdir fs name) eqn:Hd; cbn [negb].
    + apply wp_ret. by exists fs.
    + apply wp_raise. exists fs. split; [done|]. split; [done|]. split; [done|].
      intros [= ->]. unfold mkdir, path_exists in *.
      destruct (fs !! name); [done|].
      destruct (fs !! dirname name) as [[|pst]|]; try done. by destruct (st_write pst).
Qed.

Lemma makedirs_rev_spec rname w :
  wp (makedirs_rev env rname)
     (λ r w', ∃ fs', w' = with_fs fs' w ∧ makedirs_post (rev rname) (w_fs w) r fs') w.
Proof.
  revert w. induction rname as [|t rhead IH]; intros w.
  - cbn [makedirs_rev]. apply wp_bind, wp_ret.
    rewrite <- (with_fs_same w) at 1. apply wp_mkdir_exist_ok, adds_dirs_refl.
  - cbn [makedirs_rev]. set (name := rev (t :: rhead)).
    assert (Hpre : rev rhead `prefix_of` name).
    { subst name. cbn. by apply prefix_app_r. }
    apply wp_bind, wp_bind, wp_get_fs.
    destruct (negb (path_exists (w_fs w) (rev rhead))).
    + apply wp_try. eapply wp_mono; [apply IH|]. cbn beta.
      intros r w1 (fs1 & -> & Ha & _ & _).
      eapply adds_dirs_weaken in Ha; [|exact Hpre].
      destruct r as [[]|e].
      * by apply wp_mkdir_exist_ok.
      * destruct e; first [by apply wp_ret, wp_mkdir_exist_ok
                          | apply wp_raise; exists fs1; by repeat split].
    + apply wp_ret. rewrite <- (with_fs_same w) at 1.
      apply wp_mkdir_exist_ok, adds_dirs_refl.
Qed.

Lemma os_makedirs_spec name w :
  wp (os_makedirs env name)
     (λ r w', ∃ fs', w' = with_fs fs' w ∧ makedirs_post name (w_fs w) r fs') w.
Proof.
  unfold os_makedirs. eapply wp_mono; [apply makedirs_rev_spec|].
  cbn beta. intros r w'. by rewrite rev_involutive.
Qed.

(** After a successful [makedirs] the parent of the directory exists too. *)
Lemma makedirs_rev_parent t rhead w :
  wp (makedirs_rev env (t :: rhead))
     (λ r w', r = Ok tt → path_exists (w_fs w') (rev rhead) = true) w.
Proof.
  cbn [makedirs_rev]. apply wp_bind, wp_bind, wp_get_fs.
  assert (Hlast : ∀ fs, path_exists fs (rev rhead) = true →
     wp (try_except (os_mkdir env (rev (t :: rhead)))
          (λ e, fs ← get_fs;
                if negb (path_isdir fs (rev (t :: rhead))) then raise e else mret tt))
        (λ r w', r = Ok tt → path_exists (w_fs w') (rev rhead) = true) (with_fs fs w)).
  { intros fs Hex. eapply wp_mono.
    { apply (wp_mkdir_exist_ok (rev (t :: rhead)) (with_fs fs w) fs), adds_dirs_refl. }
    cbn beta. intros r w' (fs' & -> & Ha & _) _. cbn [w_fs with_fs] in *.
    unfold path_exists in *. destruct (fs !! rev rhead) eqn:E; [|done].
    by rewrite (adds_dirs_keeps' _ _ _ _ _ Ha E). }
  destruct (negb (path_exists (w_fs w) (rev rhead))) eqn:Hex.
  - apply wp_try. eapply wp_mono; [apply makedirs_rev_spec|]. cbn beta.
    intros r w1 (fs1 & -> & Ha & Hok & Hfe).
    destruct r as [[]|e].
    + apply Hlast. specialize (Hok eq_refl). unfold path_isdir, path_exists in *.
      by destruct (fs1 !! rev rhead).
    + destruct e; try (by apply wp_raise). apply wp_ret, Hlast. by apply Hfe.
  - apply wp_ret. rewrite <- (with_fs_same w) at 1. apply Hlast.
    by apply negb_false_iff in Hex.
Qed.

(** [makedirs] of a directory that is there, under a parent that is
    there, changes nothing. *)
Lemma os_makedirs_noop name w :
  path_isdir (w_fs w) name = true →
  path_exists (w_fs w) (dirname name) = true →
  os_makedirs env name w = (Ok tt, w).
Proof.
  intros Hd Hp. unfold os_makedirs.
  assert (Hmk : try_except (os_mkdir env name)
          (λ e, fs ← get_fs;
                if negb (path_isdir fs name) then raise e else mret tt) w = (Ok tt, w)).
  { unfold try_except, os_mkdir, fs_op, mkdir. unfold path_isdir in Hd.
    destruct (w_fs w !! name) as [[|]|] eqn:E; try done.
    cbn. unfold mbind, M_bind, bind, get_fs, path_isdir. by rewrite E. }
  destruct (rev name) as [|t rhead] eqn:Hrev.
  - apply (f_equal (@rev _)) in Hrev. rewrite rev_involutive in Hrev. subst name.
    cbn [makedirs_rev]. unfold mbind, M_bind, bind, mret, M_ret, ret. exact Hmk.
  - assert (name = rev rhead ++ [t]) as Hname.
    { apply (f_equal (@rev _)) in Hrev. by rewrite rev_involutive in Hrev. }
    cbn [makedirs_rev]. rewrite Hname in Hp. rewrite dirname_snoc in Hp.
    unfold mbind, M_bind, bind, get_fs at 1. rewrite Hp. cbn [negb].
    unfold mret, M_ret, ret. cbn [rev]. rewrite <- Hname. exact Hmk.
Qed.

End Makedirs.

(** * Copying and moving one file *)

Lemma copyfile_Ok src dst fs fs' :
  copyfile src dst fs = Ok fs' →
  ∃ st data, fs !! src = Some (File st data) ∧ src ≠ dst ∧
             fs' = <[dst := File st data]> fs.
Proof.
  unfold copyfile, path_exists.
  destruct (fs !! src) as [[st data|]|] eqn:Hs; rewrite ?andb_true_r, ?andb_false_r;
    try done; try (case_bool_decide; done).
  case_bool_decide as Hne; [done|]. intros Hc. exists st, data.
  split; [done|]. split; [done|].
  destruct (st_read st); [|done]. cbn in Hc.
  destruct (fs !! dst) as [[dst_st ?|]|].
  - destruct (st_write dst_st); by inversion Hc.
  - done.
  - destruct (fs !! dirname dst) as [[|pst]|]; try done.
    destruct (st_write pst); by inversion Hc.
Qed.

Lemma rename_Ok same_dev src dst fs fs' :
  rename same_dev src dst fs = Ok fs' →
  ∃ st data, fs !! src = Some (File st data) ∧
    ((src = dst ∧ fs' = fs) ∨
     (src ≠ dst ∧ fs' = <[dst := File st data]> (delete src fs))).
Proof.
  unfold rename. destruct (fs !! src) as [[st data|]|]; try done.
  intros Hr. exists st, data. split; [done|].
  case_bool_decide as Hne; [left; by inversion Hr|right]. split; [done|].
  destruct (fs !! dst) as [[|]|];
    try done; destruct (fs !! dirname src) as [[|sst]|]; try done;
    destruct (fs !! dirname dst) as [[|dst_st]|]; try done;
    destruct (negb (st_write sst && st_write dst_st)); try done;
    destruct (negb (same_dev src dst)); by inversion Hr.
Qed.

Lemma unlink_Ok p fs fs' : unlink p fs = Ok fs' → fs' = delete p fs.
Proof.
  unfold unlink. destruct (fs !! p) as [[|]|]; try done.
  destruct (fs !! dirname p) as [[|pst]|]; try done.
  destruct (st_write pst); by intros [= <-].
Qed.

Section Transfer.
Variable args : Args.
Variable env : Env.
Local Abbreviation new := (new_dir_stat env).

Lemma shutil_copy2_spec src dst w :
  wp (shutil_copy2 src dst)
     (λ r w',
        (∃ e, r = Raise e ∧ w' = w) ∨
        (∃ st data, w_fs w !! src = Some (File st data) ∧
           src ≠ landing (w_fs w) src dst ∧
           r = Ok (landing (w_fs w) src dst) ∧
           w' = with_fs (<[landing (w_fs w) src dst := File st data]> (w_fs w)) w)) w.
Proof.
  unfold shutil_copy2. apply wp_bind, wp_get_fs. fold (landing (w_fs w) src dst).
  apply wp_bind, wp_fs_op.
  destruct (copyfile _ _ _) as [fs'|e] eqn:Hc.
  - apply copyfile_Ok in Hc as (st & data & Hs & Hne & ->).
    apply wp_ret. right. by exists st, data.
  - left. by exists e.
Qed.

Lemma shutil_move_spec src dst w :
  wp (shutil_move env src dst)
     (λ r w',
        (∃ e, r = Raise e ∧ w' = w) ∨
        (∃ st data, w_fs w !! src = Some (File st data) ∧
           let real := landing (w_fs w) src dst in
           (* copied, but the source could not be removed *)
           (src ≠ real ∧ (∃ e, r = Raise e) ∧
            w' = with_fs (<[real := File st data]> (w_fs w)) w) ∨
           (* moved *)
           (src ≠ real ∧ r = Ok real ∧
            w' = with_fs (<[real := File st data]> (delete src (w_fs w))) w) ∨
           (* the file is where it should go already *)
           (src = real ∧ r = Ok real ∧ w' = w))) w.
Proof.
  unfold shutil_move. apply wp_bind, wp_get_fs.
  destruct (path_isdir (w_fs w) dst && bool_decide (src = dst)) eqn:Hsame.
  { apply andb_true_iff in Hsame as [Hd Heq]. apply bool_decide_eq_true in Heq as ->.
    apply wp_bind. unfold os_rename. apply wp_fs_op.
    destruct (rename _ _ _ _) as [fs'|e] eqn:Hr.
    - apply rename_Ok in Hr as (st & data & Hs & _).
      unfold path_isdir in Hd. by rewrite Hs in Hd.
    - left. by exists e. }
  apply wp_bind. unfold landing.
  destruct (path_isdir (w_fs w) dst) eqn:Hd.
  - destruct (path_exists (w_fs w) (dst ++ [basename src])) eqn:Hex.
    { apply wp_raise. left. by eexists. }
    apply wp_ret.
    assert (Hnd : path_isdir (w_fs w) (dst ++ [basename src]) = false).
    { unfold path_isdir, path_exists in *. by destruct (w_fs w !! (dst ++ [basename src])). }
    revert Hnd. generalize (dst ++ [basename src]). clear Hex Hsame Hd dst.
    intros real Hnd. (* common part below *)
    apply wp_bind, wp_try. unfold os_rename. apply wp_fs_op.
    destruct (rename _ _ _ _) as [fs'|e] eqn:Hr.
    + apply rename_Ok in Hr as (st & data & Hs & [[-> ->]|[Hne ->]]); apply wp_ret; right;
        exists st, data; (split; [done|]).
      * right; right. by rewrite with_fs_same.
      * right; left. done.
    + apply wp_bind, wp_get_fs. destruct (path_isdir (w_fs w) src); [apply wp_raise; left; by eexists|].
      apply wp_bind. eapply wp_mono; [apply shutil_copy2_spec|]. cbn beta.
      unfold landing. rewrite Hnd.
      intros r w' [(e' & -> & ->)|(st & data & Hs & Hne & -> & ->)]; [left; by eexists|].
      unfold os_unlink. apply wp_fs_op. cbn [w_fs with_fs].
      destruct (unlink _ _) as [fs'|e'] eqn:Hu.
      * apply unlink_Ok in Hu as ->. apply wp_ret. right. exists st, data. split; [done|].
        right; left. split; [done|]. split; [done|].
        rewrite with_fs_with_fs. f_equal. by rewrite delete_insert_ne.
      * right. exists st, data. split; [done|]. left. split; [done|]. split; [by eexists|]. done.
  - apply wp_ret. revert Hd. generalize dst. clear Hsame dst. intros real Hnd.
    apply wp_bind, wp_try. unfold os_rename. apply wp_fs_op.
    destruct (rename _ _ _ _) as [fs'|e] eqn:Hr.
    + apply rename_Ok in Hr as (st & data & Hs & [[-> ->]|[Hne ->]]); apply wp_ret; right;
        exists st, data; (split; [done|]).
      * right; right. by rewrite with_fs_same.
      * right; left. done.
    + apply wp_bind, wp_get_fs. destruct (path_isdir (w_fs w) src); [apply wp_raise; left; by eexists|].
      apply wp_bind. eapply wp_mono; [apply shutil_copy2_spec|]. cbn beta.
      unfold landing. rewrite Hnd.
      intros r w' [(e' & -> & ->)|(st & data & Hs & Hne & -> & ->)]; [left; by eexists|].
      unfold os_unlink. apply wp_fs_op. cbn [w_fs with_fs].
      destruct (unlink _ _) as [fs'|e'] eqn:Hu.
      * apply unlink_Ok in Hu as ->. apply wp_ret. right. exists st, data. split; [done|].
        right; left. split; [done|]. split; [done|].
        rewrite with_fs_with_fs. f_equal. by rewrite delete_insert_ne.
      * right. exists st, data. split; [done|]. left. split; [done|]. split; [by eexists|]. done.
Qed.

(** ** One file: [transfer_file] *)

Local Abbreviation valid_mtime := (valid_mtime env).

Local Abbreviation bucket_of := (bucket_of env).
Local Abbreviation dest_of := (dest_of env).

Local Abbreviation transfer_effect := (transfer_effect args env).
Local Abbreviation te_failed := (te_failed args env).
Local Abbreviation te_copied := (te_copied args env).
Local Abbreviation te_moved := (te_moved args env).
Local Abbreviation te_in_place := (te_in_place args env).

Lemma adds_dirs_keeps name fs fs1 p n :
  adds_dirs env name fs fs1 → fs !! p = Some n → fs1 !! p = Some n.
Proof. apply adds_dirs_keeps'. Qed.

Lemma wp_logger_debug m (Q : res unit → world → Prop) w :
  Q (Ok tt) w → (∀ ev, is_debug ev → Q (Ok tt) (add_event ev w)) →
  wp (logger_debug args m) Q w.
Proof.
  intros H1 H2. unfold logger_debug. destruct (verbose args).
  - apply wp_emit, H2. by eexists.
  - by apply wp_ret.
Qed.

Lemma wp_getsize_after fs c dst (st : stat) (data : string)
    (Q : res Z → world → Prop) w :
  w_fs w = fs →
  fs !! landing fs c dst = Some (File st data) ∨ path_isdir fs dst = true →
  (∀ size, Q (Ok size) w) →
  wp (os_path_getsize env dst) Q w.
Proof.
  intros <- H HQ. unfold os_path_getsize. apply wp_bind, wp_get_fs.
  unfold landing, path_isdir in H.
  destruct (w_fs w !! dst) as [[|]|] eqn:Hd.
  - apply wp_ret, HQ.
  - apply wp_ret, HQ.
  - destruct H; congruence.
Qed.

Section AfterMakedirs.
Variables (c : path) (st : stat) (data : string) (fs0 : fsmap) (wb : world).
Variable Q : res Z → world → Prop.
Hypothesis Hc : fs0 !! c = Some (File st data).
Hypothesis Hvalid : valid_mtime st = true.
Hypothesis Hadd : adds_dirs env (bucket_of st) fs0 (w_fs wb).
Hypothesis Hdir : path_isdir (w_fs wb) (bucket_of st) = true.
Hypothesis HQ : ∀ r fs', transfer_effect c fs0 r fs' → Q r (with_fs fs' wb).

Lemma source_kept : w_fs wb !! c = Some (File st data).
Proof. eapply adds_dirs_keeps; eauto. Qed.

Lemma landing_not_dest_length :
  dest_of c st ++ [basename c] ≠ dest_of c st.
Proof.
  intros E. apply (f_equal length) in E. rewrite length_app in E. cbn in E. lia.
Qed.

Lemma wp_move_then_size :
  move args = true →
  wp (shutil_move env c (dest_of c st))
     (λ r w1, match r with
              | Ok _ => wp (os_path_getsize env (dest_of c st)) Q w1
              | Raise e => Q (Raise e) w1
              end) wb.
Proof.
  intros Hmove. pose proof source_kept as Hc1.
  eapply wp_mono; [apply shutil_move_spec|]. cbn beta.
  intros r w2 [(e & -> & ->)|(st' & data' & Hs & Hcases)].
  { rewrite <- (with_fs_same wb). apply HQ. eapply te_failed. exact Hadd. }
  rewrite Hc1 in Hs. injection Hs as <- <-.
  destruct Hcases as [(Hne & (e & ->) & ->)|[(Hne & -> & ->)|(Heq & -> & ->)]].
  - apply HQ. eapply te_copied; try done. rewrite Hmove. by eexists.
  - eapply (wp_getsize_after _ c _ st data); [reflexivity| |].
    + cbn [w_fs with_fs]. unfold landing in *.
      destruct (path_isdir (w_fs wb) (dest_of c st)) eqn:Hd.
      * right. unfold path_isdir in *.
        rewrite lookup_insert_ne by apply landing_not_dest_length.
        rewrite lookup_delete_ne; [done|]. intros E. rewrite <- E in Hd. by rewrite Hc1 in Hd.
      * left. assert (path_isdir (<[dest_of c st:=File st data]> (delete c (w_fs wb)))
                                 (dest_of c st) = false) as ->.
        { unfold path_isdir. by rewrite lookup_insert_eq. }
        by rewrite lookup_insert_eq.
    + intros size. apply HQ. by eapply te_moved.
  - eapply (wp_getsize_after _ c _ st data); [reflexivity| |].
    + left. by rewrite <- Heq.
    + intros size. rewrite <- (with_fs_same wb). apply HQ. by eapply te_in_place.
Qed.

Lemma wp_copy_then_size :
  move args = false →
  wp (shutil_copy2 c (dest_of c st))
     (λ r w1, match r with
              | Ok _ => wp (os_path_getsize env (dest_of c st)) Q w1
              | Raise e => Q (Raise e) w1
              end) wb.
Proof.
  intros Hmove. pose proof source_kept as Hc1.
  eapply wp_mono; [apply shutil_copy2_spec|]. cbn beta.
  intros r w2 [(e & -> & ->)|(st' & data' & Hs & Hne & -> & ->)].
  { rewrite <- (with_fs_same wb). apply HQ. eapply te_failed. exact Hadd. }
  rewrite Hc1 in Hs. injection Hs as <- <-.
  eapply (wp_getsize_after _ c _ st data); [reflexivity| |].
  - cbn [w_fs with_fs]. unfold landing in *.
    destruct (path_isdir (w_fs wb) (dest_of c st)) eqn:Hd.
    + right. unfold path_isdir in *.
      by rewrite lookup_insert_ne by apply landing_not_dest_length.
    + left. assert (path_isdir (<[dest_of c st:=File st data]> (w_fs wb))
                               (dest_of c st) = false) as ->.
      { unfold path_isdir. by rewrite lookup_insert_eq. }
      by rewrite lookup_insert_eq.
  - intros size. apply HQ. eapply te_copied; try done. rewrite Hmove. by eexists.
Qed.

End AfterMakedirs.

Lemma transfer_file_spec c w :
  wp (transfer_file args env c)
     (λ r w', ∃ fs' evs,
        w' = mkWorld fs' (w_events w ++ evs) (w_clock w) ∧
        Forall is_debug evs ∧
        transfer_effect c (w_fs w) r fs') w.
Proof.
  assert (Hnil : ∀ e, ∃ fs' evs,
     w = mkWorld fs' (w_events w ++ evs) (w_clock w) ∧ Forall is_debug evs ∧
     transfer_effect c (w_fs w) (Raise e) fs').
  { intros e. exists (w_fs w), []. rewrite app_nil_r. split; [by destruct w|].
    split; [constructor|]. apply (te_failed _ _ e ""), adds_dirs_refl. }
  unfold transfer_file. apply wp_bind. unfold os_path_getmtime.
  apply wp_bind, wp_get_fs.
  destruct (w_fs w !! c) as [n|] eqn:Hc; [|apply wp_raise, Hnil].
  assert (∃ st, (match n with File st _ | Dir st => mret (st_mtime st) end : M Z)
                = mret (st_mtime st) ∧
                (∀ st' data, n = File st' data → st' = st)) as (st & -> & Hst).
  { destruct n as [st data|st]; exists st; (split; [done|]); congruence. }
  apply wp_ret, wp_bind. unfold datetime_fromtimestamp.
  destruct (_ && _) eqn:Hvalid; [|apply wp_raise, Hnil].
  apply wp_ret, wp_bind. fold (bucket_of st).
  eapply wp_mono; [apply os_makedirs_spec|]. cbn beta.
  intros r w1 (fs1 & -> & Hadd & Hdir & _).
  destruct r as [[]|e].
  2:{ exists fs1, []. rewrite app_nil_r. split; [done|]. split; [constructor|].
      eapply te_failed. exact Hadd. }
  specialize (Hdir eq_refl). fold (dest_of c st).
  destruct n as [st' data|st'].
  2:{ (* a directory: neither copy2 nor move takes it *)
      apply wp_bind. destruct (move args).
      - apply wp_bind, wp_logger_debug; [|intros ev Hev];
          (eapply wp_mono; [apply shutil_move_spec|]); cbn beta;
          (intros r w2 [(e & -> & ->)|(st2 & data & Hs & _)];
           [|cbn [w_fs with_fs add_event] in Hs;
             rewrite (adds_dirs_keeps _ _ _ _ _ Hadd Hc) in Hs; done]).
        + exists fs1, []. rewrite app_nil_r. split; [done|]. split; [constructor|].
          eapply te_failed. exact Hadd.
        + exists fs1, [ev]. split; [done|]. split; [by repeat constructor|].
          eapply te_failed. exact Hadd.
      - apply wp_bind, wp_logger_debug; [|intros ev Hev];
          (eapply wp_mono; [apply shutil_copy2_spec|]); cbn beta;
          (intros r w2 [(e & -> & ->)|(st2 & data & Hs & _)];
           [|cbn [w_fs with_fs add_event] in Hs;
             rewrite (adds_dirs_keeps _ _ _ _ _ Hadd Hc) in Hs; done]).
        + exists fs1, []. rewrite app_nil_r. split; [done|]. split; [constructor|].
          eapply te_failed. exact Hadd.
        + exists fs1, [ev]. split; [done|]. split; [by repeat constructor|].
          eapply te_failed. exact Hadd. }
  specialize (Hst _ _ eq_refl) as ->.
  apply wp_bind. destruct (move args) eqn:Hmove.
  - apply wp_bind, wp_logger_debug; [|intros ev Hev].
    + eapply wp_move_then_size; eauto. intros r fs' He.
      exists fs', []. rewrite app_nil_r. split; [done|]. split; [constructor|done].
    + eapply wp_move_then_size; eauto. intros r fs' He.
      exists fs', [ev]. split; [done|]. split; [by repeat constructor|done].
  - apply wp_bind, wp_logger_debug; [|intros ev Hev].
    + eapply wp_copy_then_size; eauto. intros r fs' He.
      exists fs', []. rewrite app_nil_r. split; [done|]. split; [constructor|done].
    + eapply wp_copy_then_size; eauto. intros r fs' He.
      exists fs', [ev]. split; [done|]. split; [by repeat constructor|done].
Qed.

End Transfer.

(** * The files a run logged a per-file error for *)

Lemma error_paths_app evs1 evs2 :
  error_paths (evs1 ++ evs2) = error_paths evs1 ++ error_paths evs2.
Proof. apply omap_app. Qed.

Lemma error_paths_debug evs : Forall is_debug evs → error_paths evs = [].
Proof.
  induction 1 as [|ev evs [m ->] _ IH]; [done|]. cbn. exact IH.
Qed.

(** * Walking *)

Lemma strip_prefix_Some top p rel :
  strip_prefix top p = Some rel ↔ p = top ++ rel.
Proof.
  revert p. induction top as [|t top IH]; intros p; cbn.
  - split; congruence.
  - destruct p as [|c p]; [split; [done|by destruct top]|].
    case_bool_decide as E.
    + subst. rewrite IH. split; congruence.
    + split; [done|]. intros [= ? ?]. done.
Qed.

Lemma walked_spec fs top p :
  walked fs top p = true ↔
  ∃ name rel, p = top ++ name :: rel ∧
              dirs_listable fs top (name :: rel) = true ∧ is_file fs p = true.
Proof.
  unfold walked. destruct (strip_prefix top p) as [[|name rel]|] eqn:E.
  - apply strip_prefix_Some in E. split; [done|].
    intros (name & rel & -> & _). rewrite app_nil_r in E.
    apply (f_equal length) in E. rewrite length_app in E. cbn in E. lia.
  - apply strip_prefix_Some in E as ->. rewrite andb_true_iff. split.
    + intros [? ?]. by exists name, rel.
    + intros (name' & rel' & E & ? & ?). apply app_inv_head in E. by inversion E; subst.
  - split; [done|]. intros (name & rel & -> & _).
    assert (strip_prefix top (top ++ name :: rel) = Some (name :: rel)) by by apply strip_prefix_Some.
    congruence.
Qed.

Lemma elem_of_os_walk fs top p : p ∈ os_walk fs top ↔ walked fs top p = true.
Proof.
  unfold os_walk. rewrite list_elem_of_In, filter_In, <- list_elem_of_In.
  split; [tauto|]. intros H. split; [|done].
  apply walked_spec in H as (? & ? & _ & _ & Hf). unfold is_file in Hf.
  destruct (fs !! p) as [n|] eqn:E; [|done].
  apply list_elem_of_fmap. exists (p, n). split; [done|]. by apply elem_of_map_to_list.
Qed.

Lemma NoDup_os_walk fs top : NoDup (os_walk fs top).
Proof.
  unfold os_walk. apply NoDup_ListNoDup, List.NoDup_filter, NoDup_ListNoDup.
  apply NoDup_fst_map_to_list.
Qed.

Lemma os_walk_is_file fs top p : p ∈ os_walk fs top → is_file fs p = true.
Proof. rewrite elem_of_os_walk, walked_spec. by intros (?&?&?&?&?). Qed.

Lemma os_walk_under fs top p : p ∈ os_walk fs top → top `prefix_of` p.
Proof. rewrite elem_of_os_walk, walked_spec. intros (?&?&->&_). by eexists. Qed.

Lemma is_file_Some fs p : is_file fs p = true ↔ ∃ st data, fs !! p = Some (File st data).
Proof.
  unfold is_file. destruct (fs !! p) as [[st data|]|].
  - split; [by exists st, data|done].
  - split; [done|]. by intros (?&?&?).
  - split; [done|]. by intros (?&?&?).
Qed.

(** * The engine, phase by phase *)

Section Engine.
Variable args : Args.
Variable env : Env.
Local Abbreviation new := (new_dir_stat env).
Local Abbreviation valid_mtime := (valid_mtime env).
Local Abbreviation dest_of := (dest_of env).
Local Abbreviation bucket_of := (bucket_of env).

(** ** Scanning (lines 214-224) *)

Local Abbreviation is_candidate := (is_candidate env).

Local Abbreviation scannable := (scannable env).

Lemma scan_file_spec p acc w :
  wp (scan_file env p acc)
     (λ r w', w' = w ∧
        match r with
        | Ok files => scannable (w_fs w) p = true ∧
                      files = acc ++ (if is_candidate (w_fs w) p then [p] else [])
        | Raise _ => scannable (w_fs w) p = false
        end) w.
Proof.
  unfold scan_file, scannable, is_candidate.
  apply wp_bind. unfold os_path_getmtime. apply wp_bind, wp_get_fs.
  destruct (w_fs w !! p) as [n|] eqn:Hp; [|by apply wp_raise].
  assert (∃ st, (match n with File st _ | Dir st => mret (st_mtime st) end : M Z)
                = mret (st_mtime st) ∧
                match n with File st' _ | Dir st' => st' = st end) as (st & -> & Hst).
  { destruct n as [st data|st]; by exists st. }
  assert (∀ (X : Type) (f : stat → X),
            match n with File st' _ | Dir st' => f st' end = f st) as Hn.
  { intros X f. by destruct n; subst. }
  rewrite !Hn. apply wp_ret, wp_bind. unfold datetime_fromtimestamp.
  fold (valid_mtime st). destruct (valid_mtime st) eqn:Hv; [|by apply wp_raise].
  apply wp_ret, wp_bind, wp_get_fs.
  fold (bucket_of st). fold (dest_of p st).
  destruct (path_exists (w_fs w) (dest_of p st)); cbn [negb]; apply wp_ret.
  - by rewrite app_nil_r.
  - done.
Qed.

Lemma scan_loop_spec l : ∀ acc w,
  wp (scan_loop env l acc)
     (λ r w', w' = w ∧
        match r with
        | Ok files => forallb (scannable (w_fs w)) l = true ∧
                      files = acc ++ List.filter (is_candidate (w_fs w)) l
        | Raise _ => forallb (scannable (w_fs w)) l = false
        end) w.
Proof.
  induction l as [|p l IH]; intros acc w; cbn [scan_loop forallb List.filter].
  - apply wp_ret. by rewrite app_nil_r.
  - apply wp_bind. eapply wp_mono; [apply scan_file_spec|]. cbn beta.
    intros r w' [-> Hr]. destruct r as [files|e].
    + destruct Hr as [Hs ->]. rewrite Hs. cbn [andb].
      eapply wp_mono; [apply IH|]. cbn beta. intros r w' [-> Hr]. split; [done|].
      destruct r as [files|e]; [|done]. destruct Hr as [? ->]. split; [done|].
      rewrite <- app_assoc. by destruct (is_candidate (w_fs w) p).
    + rewrite Hr. done.
Qed.

(** ** One turn of the transfer loop (lines 235-261) *)

Lemma transfer_one_spec i total c p s w :
  wp (transfer_one args env i total c p s)
     (λ r w', ∃ fs' evs rf,
        w' = mkWorld fs' (w_events w ++ evs) (w_clock w) ∧
        transfer_effect args env c (w_fs w) rf fs' ∧
        match rf with
        | Ok size => r = Ok (S p, s + size) ∧ error_paths evs = []
        | Raise _ => r = Ok (p, s) ∧ error_paths evs = [c]
        end) w.
Proof.
  unfold transfer_one. apply wp_try, wp_bind.
  eapply wp_mono; [apply transfer_file_spec|]. cbn beta.
  intros rf w1 (fs' & evs & -> & Hdebug & Heff).
  apply error_paths_debug in Hdebug. destruct rf as [size|e].
  - apply wp_bind. destruct (_ || _).
    + unfold logger_info. apply wp_emit, wp_ret.
      exists fs', (evs ++ [Log INFO (MsgProgress (S p) total (move args) (s + size))]),
             (Ok size).
      split; [unfold add_event; cbn; by rewrite <- app_assoc|]. split; [done|].
      split; [done|]. rewrite error_paths_app, Hdebug. done.
    + apply wp_ret, wp_ret. exists fs', evs, (Ok size). done.
  - unfold logger_error. apply wp_bind, wp_emit, wp_ret.
    exists fs', (evs ++ [Log ERROR (MsgErrorProcessing c e)]), (Raise e).
    split; [unfold add_event; cbn; by rewrite <- app_assoc|]. split; [done|].
    split; [done|]. rewrite error_paths_app, Hdebug. done.
Qed.

(** ** The transfer loop (lines 234-261): an invariant rule *)

Lemma transfer_loop_rule total (P : list path → nat → Z → world → Prop) files :
  ∀ done p s w,
    P done p s w →
    (∀ done' c rest p s w,
        done ++ files = done' ++ c :: rest → P done' p s w →
        wp (transfer_one args env (length done') total c p s)
           (λ r w', ∃ p' s', r = Ok (p', s') ∧ P (done' ++ [c]) p' s' w') w) →
    wp (transfer_loop args env (length done) total files p s)
       (λ r w', ∃ p' s', r = Ok (p', s') ∧ P (done ++ files) p' s' w') w.
Proof.
  induction files as [|c files IH]; intros done p s w HP Hstep; cbn [transfer_loop].
  - apply wp_ret. exists p, s. by rewrite app_nil_r.
  - apply wp_bind. eapply wp_mono; [exact (Hstep done c files p s w eq_refl HP)|].
    cbn beta. intros r w1 (p' & s' & -> & HP').
    replace (S (length done)) with (length (done ++ [c]))
      by (rewrite length_app; cbn; lia).
    replace (done ++ c :: files) with ((done ++ [c]) ++ files)
      by (by rewrite <- app_assoc).
    apply IH; [done|]. intros done' c' rest p0 s0 w0 E. apply (Hstep _ _ rest).
    by rewrite <- E, <- app_assoc.
Qed.

(** ** The whole call (lines 207-268) *)

Local Abbreviation prepare := (prepare env).

Local Abbreviation announce := (announce args).

Lemma copy_or_move_files_unfold source_dir w :
  copy_or_move_files args env source_dir w =
  match prepare source_dir w with
  | (Raise e, w1) =>
      (Ok (mkOutcome false 0 0 0), add_event (Log ERROR (MsgErrorBatch e)) w1)
  | (Ok files, w1) =>
      match transfer_loop args env 0 (length files) files 0 0
                          (announce source_dir (length files) w1) with
      | (Ok (processed, size), w2) =>
          (Ok (mkOutcome true processed (length files) size),
           add_event (Log INFO (MsgSuccess (move args) processed size)) w2)
      | (Raise e, w2) =>
          (Ok (mkOutcome false 0 0 0), add_event (Log ERROR (MsgErrorBatch e)) w2)
      end
  end.
Proof.
  unfold copy_or_move_files, prepare, announce, try_except, mbind, M_bind, bind,
         mret, M_ret, ret, get_fs, logger_info, logger_error, emit.
  destruct (os_makedirs env DEST_DIR w) as [[[]|e] w1]; [|done].
  destruct (scan_loop env _ [] w1) as [[files|e] w2]; [|done].
  destruct (verbose args);
    destruct (transfer_loop _ _ _ _ _ _ _ _) as [[[processed size]|e] w3]; done.
Qed.

End Engine.

(** * What a whole pass does to the file system *)

Section Step.
Variable args : Args.
Variable env : Env.
Local Abbreviation new := (new_dir_stat env).
Local Abbreviation valid_mtime := (valid_mtime env).
Local Abbreviation dest_of := (dest_of env).
Local Abbreviation bucket_of := (bucket_of env).

Lemma bucket_of_shape st : ∃ b, bucket_of st = DEST_DIR ++ [b].
Proof. by eexists. Qed.

Lemma dest_not_bucket_prefix c st b : ¬ dest_of c st `prefix_of` DEST_DIR ++ [b].
Proof.
  intros H%prefix_length. unfold dest_of, bucket_of in H.
  rewrite !length_app in H. cbn in H. lia.
Qed.

Lemma dest_under_DEST c st : DEST_DIR `prefix_of` dest_of c st.
Proof. unfold dest_of, bucket_of. rewrite <- app_assoc. by eexists. Qed.

Local Abbreviation kind_ok := (kind_ok args).

Local Abbreviation turn := (turn env).

Lemma transfer_effect_turn c st data fs rf fs' :
  fs !! c = Some (File st data) →
  path_isdir fs (dest_of c st) = false →
  c ≠ dest_of c st →
  transfer_effect args env c fs rf fs' →
  ∃ k, (k = Moved → move args = true) ∧ is_ok rf = kind_ok k ∧
       turn k c (dest_of c st) (File st data) fs fs'.
Proof.
  intros Hc Hnd Hne Heff.
  assert (Hland : ∀ fs1, adds_dirs env (bucket_of st) fs fs1 →
                         landing fs1 c (dest_of c st) = dest_of c st).
  { intros fs1 Ha. unfold landing.
    assert (path_isdir fs1 (dest_of c st) = false) as ->; [|done].
    unfold path_isdir in *. destruct (Ha (dest_of c st)) as [->|(_ & _ & Hp)]; [done|].
    destruct (bucket_of_shape st) as [b Hb]. rewrite Hb in Hp.
    by apply dest_not_bucket_prefix in Hp. }
  assert (Hother : ∀ name fs1 b, name = DEST_DIR ++ [b] → adds_dirs env name fs fs1 →
     ∀ q, fs1 !! q = fs !! q ∨
          (fs !! q = None ∧ fs1 !! q = Some (Dir new) ∧ ∃ b, q `prefix_of` DEST_DIR ++ [b])).
  { intros name fs1 b -> Ha q. destruct (Ha q) as [|(?&?&?)]; [by left|right].
    split; [done|]. split; [done|]. by exists b. }
  assert (Hd1 : ∀ name fs1 b, name = DEST_DIR ++ [b] → adds_dirs env name fs fs1 →
                fs1 !! dest_of c st = fs !! dest_of c st).
  { intros name fs1 b -> Ha. destruct (Ha (dest_of c st)) as [|(_ & _ & Hp)]; [done|].
    by apply dest_not_bucket_prefix in Hp. }
  destruct (bucket_of_shape st) as [bk Hbk].
  inversion Heff as [e b fs1 Ha|st' data' fs1 r Hc' Hv Ha Hdir Hne' Hr
                    |st' data' fs1 size Hm Hc' Hv Ha Hdir Hne'
                    |st' data' fs1 size Hm Hc' Hv Ha Hdir Heq]; subst.
  - exists Failed. split; [done|]. split; [done|]. split; [|split].
    + exact (Hd1 _ _ _ eq_refl Ha).
    + rewrite Hc. by eapply adds_dirs_keeps.
    + intros q _ _. exact (Hother _ _ _ eq_refl Ha q).
  - rewrite Hc in Hc'. injection Hc' as <- <-. rewrite (Hland _ Ha).
    exists Copied. split; [done|]. split.
    { cbn. destruct (move args); [by destruct Hr as [? ->]|by destruct Hr as [? ->]]. }
    split; [|split].
    + by rewrite lookup_insert_eq.
    + rewrite lookup_insert_ne by done. rewrite Hc. by eapply adds_dirs_keeps.
    + intros q Hq _. rewrite lookup_insert_ne by done. exact (Hother _ _ _ Hbk Ha q).
  - rewrite Hc in Hc'. injection Hc' as <- <-. rewrite (Hland _ Ha).
    exists Moved. split; [done|]. split; [done|]. split; [|split].
    + by rewrite lookup_insert_eq.
    + rewrite lookup_insert_ne by done. by rewrite lookup_delete_eq.
    + intros q Hq Hqc. rewrite lookup_insert_ne by done.
      rewrite lookup_delete_ne by done. exact (Hother _ _ _ Hbk Ha q).
  - rewrite Hc in Hc'. injection Hc' as <- <-. rewrite (Hland _ Ha) in Heq. done.
Qed.

(** ** The invariant of the transfer loop *)

Section Run.
Variable fsa : fsmap.          (* the file system when the loop starts *)
Variable cands : list path.    (* files_to_process *)
Hypothesis cands_nodup : NoDup cands.
Hypothesis cands_ok : ∀ c, c ∈ cands →
  ∃ st data, fsa !! c = Some (File st data) ∧ fsa !! dest_of c st = None.

Local Abbreviation reused_for_bucket := (reused_for_bucket env).

Local Abbreviation run_inv := (run_inv args env fsa).
Local Abbreviation inv_old := (inv_old args env fsa).
Local Abbreviation inv_new := (inv_new args env fsa).
Local Abbreviation inv_success := (inv_success args env fsa).
Local Abbreviation inv_last := (inv_last args env fsa).
Local Abbreviation inv_failed := (inv_failed args env fsa).

Lemma run_inv_start : run_inv [] [] fsa.
Proof.
  split.
  - intros q n Hq. by left.
  - intros q Hq. by left.
  - intros c st data Hc. by apply elem_of_nil in Hc.
  - intros done1 c done2 st data E. by destruct done1.
  - done.
Qed.

Lemma run_inv_turn done failed fs c rest k st data fs' :
  cands = done ++ c :: rest →
  fsa !! c = Some (File st data) →
  (k = Moved → move args = true) →
  run_inv done failed fs →
  turn k c (dest_of c st) (File st data) fs fs' →
  run_inv (done ++ [c]) (failed ++ (if kind_ok k then [] else [c])) fs'.
Proof.
  intros Hcands Hc Hk [Hold Hnew Hsucc Hlast Hfailed] (Hd & Hsrc & Hrest).
  set (d := dest_of c st) in *.
  assert (Hcin : c ∈ cands) by (rewrite Hcands; set_solver).
  assert (Hdone_in : ∀ x, x ∈ done → x ∈ cands) by (intros x; rewrite Hcands; set_solver).
  assert (Hcnot : c ∉ done).
  { intros Hin. rewrite Hcands in cands_nodup.
    apply NoDup_app in cands_nodup as (_ & Hdis & _). apply (Hdis c Hin). set_solver. }
  assert (Hdnone : fsa !! d = None).
  { destruct (cands_ok c Hcin) as (st' & data' & E & Hn). rewrite Hc in E.
    by injection E as <- <-. }
  assert (Hold_ne_d : ∀ q n, fsa !! q = Some n → q ≠ d) by (intros q n Hq ->; congruence).
  (* the turn on a path that is neither the source nor the destination *)
  assert (Hkeep : ∀ q n, q ≠ d → q ≠ c → fs !! q = Some n → fs' !! q = Some n).
  { intros q n H1 H2 Hq. destruct (Hrest q H1 H2) as [->|(?&?&?)]; congruence. }
  assert (Hfile : ∀ q, q ≠ c → is_file fs q = true → is_file fs' q = true).
  { intros q Hqc Hf. destruct (decide (q = d)) as [->|Hqd].
    - unfold is_file in *. rewrite Hd. by destruct k.
    - apply is_file_Some in Hf as (st' & data' & Hq). apply is_file_Some.
      exists st', data'. by apply Hkeep. }
  assert (Hnotfile : ∀ q n, fsa !! q = Some n → is_file fs q = false → is_file fs' q = false).
  { intros q n Hq Hf. assert (q ≠ d) by by eapply Hold_ne_d.
    destruct (decide (q = c)) as [->|Hqc].
    - unfold is_file in *. rewrite Hsrc. destruct k; [done|done|done].
    - unfold is_file in *. destruct (Hrest q) as [->|(_ & -> & _)]; done. }
  split.
  - (* inv_old *)
    intros q n Hq. assert (Hqd : q ≠ d) by by eapply Hold_ne_d.
    destruct (decide (q = c)) as [->|Hqc].
    + rewrite Hsrc. destruct (Hold c n Hq) as [E|(_ & Hin & _)]; [|done].
      destruct k; [by left|by left|].
      right. split; [by apply Hk|]. split; [set_solver|by left].
    + destruct (Hold q n Hq) as [E|(Hm & Hin & Hgone)].
      * left. by apply Hkeep.
      * right. split; [done|]. split; [set_solver|].
        destruct (Hrest q Hqd Hqc) as [E|(E1 & E2 & E3)].
        -- destruct Hgone as [Hg|[Hg1 Hg2]]; [left; congruence|right].
           split; [congruence|done].
        -- right. by split.
  - (* inv_new *)
    intros q Hq. assert (Hqc : q ≠ c) by (intros ->; congruence).
    destruct (decide (q = d)) as [->|Hqd].
    + rewrite Hd. destruct k.
      * destruct (Hnew d Hq) as [E|[[E1 E2]|(c' & st' & data' & Hin & E1 & E2 & E3)]].
        -- by left.
        -- destruct E2 as [b E2]. by apply dest_not_bucket_prefix in E2.
        -- right; right. exists c', st', data'. split; [set_solver|done].
      * right; right. exists c, st, data. split; [set_solver|done].
      * right; right. exists c, st, data. split; [set_solver|done].
    + destruct (Hrest q Hqd Hqc) as [E|(E1 & E2 & E3)].
      * rewrite E. destruct (Hnew q Hq) as [?|[[E1 E2]|(c' & st' & data' & Hin & E1 & E2 & E3)]].
        -- by left.
        -- right; left. split; [congruence|done].
        -- right; right. exists c', st', data'. split; [set_solver|]. split; [done|].
           split; [done|congruence].
      * right; left. by split.
  - (* inv_success *)
    intros c' st' data' Hin Hnf Hc'.
    apply elem_of_app in Hin as [Hin|Hin%list_elem_of_singleton].
    + assert (c' ≠ c) by (intros ->; done).
      destruct (Hsucc c' st' data' Hin) as [H1 H2]; [set_solver|done|].
      split.
      * apply Hfile; [|done]. intros E.
        destruct (cands_ok c' (Hdone_in _ Hin)) as (st2 & data2 & E2 & Hn2).
        rewrite Hc' in E2. injection E2 as <- <-. rewrite E in Hn2. congruence.
      * intros Hm. eapply Hnotfile; eauto.
    + subst c'. rewrite Hc in Hc'. injection Hc' as <- <-.
      change (dest_of c st) with d.
      destruct (kind_ok k) eqn:Hok; [|set_solver].
      split.
      * unfold is_file. rewrite Hd. destruct k; [done|done|done].
      * intros Hm. unfold is_file. rewrite Hsrc.
        destruct k; [done| |done]. cbn in Hok. by rewrite Hm in Hok.
  - (* inv_last *)
    intros done1 c0 done2 st0 data0 E Hnf Hc0 Hlater.
    destruct (decide (done2 = [])) as [->|Hne].
    + apply app_inj_tail in E as [<- <-]. rewrite Hc in Hc0. injection Hc0 as <- <-.
      change (dest_of c st) with d.
      destruct (kind_ok k) eqn:Hok; [|set_solver].
      rewrite Hd. destruct k; [done|done|done].
    + destruct (exists_last Hne) as (done2' & x & ->).
      rewrite app_comm_cons, app_assoc in E. apply app_inj_tail in E as [E <-].
      assert (Hdd : dest_of c0 st0 ≠ d).
      { intros E'. eapply (Hlater c st data); [set_solver|done|done]. }
      assert (Hc0in : c0 ∈ cands) by (apply Hdone_in; rewrite E; set_solver).
      assert (dest_of c0 st0 ≠ c).
      { intros E'. destruct (cands_ok c0 Hc0in) as (st2 & data2 & E2 & Hn2).
        rewrite Hc0 in E2. injection E2 as <- <-. rewrite E' in Hn2. congruence. }
      apply Hkeep; [done|done|].
      eapply Hlast; [exact E|set_solver|done|].
      intros c' st' data' Hin. apply Hlater. set_solver.
  - (* inv_failed *)
    intros x Hx. apply elem_of_app in Hx as [Hx|Hx]; [set_solver|].
    destruct (kind_ok k); set_solver.
Qed.

End Run.

End Step.

Section Pass.
Variable args : Args.
Variable env : Env.
Local Abbreviation new := (new_dir_stat env).
Local Abbreviation valid_mtime := (valid_mtime env).
Local Abbreviation dest_of := (dest_of env).
Local Abbreviation bucket_of := (bucket_of env).
Local Abbreviation run_inv := (run_inv args env).

(** ** The transfer loop as a whole *)

Local Abbreviation candidates_ok := (candidates_ok env).

Lemma transfer_loop_spec cands wa :
  NoDup cands → candidates_ok (w_fs wa) cands →
  wp (transfer_loop args env 0 (length cands) cands 0 0)
     (λ r w', ∃ p s evs,
        r = Ok (p, s) ∧
        w_events w' = w_events wa ++ evs ∧ w_clock w' = w_clock wa ∧
        (p + length (error_paths evs) = length cands)%nat ∧
        run_inv (w_fs wa) cands (error_paths evs) (w_fs w')) wa.
Proof.
  intros Hnd Hok.
  pose (P := λ (done : list path) (p : nat) (s : Z) (w : world),
    ∃ evs, w_events w = w_events wa ++ evs ∧ w_clock w = w_clock wa ∧
           (p + length (error_paths evs) = length done)%nat ∧
           run_inv (w_fs wa) done (error_paths evs) (w_fs w)).
  eapply wp_mono.
  { apply (transfer_loop_rule args env (length cands) P cands [] 0%nat 0 wa).
    - exists []. rewrite app_nil_r. split; [done|]. split; [done|]. split; [done|].
      apply run_inv_start.
    - intros done c rest p s w Hsplit (evs & Hev & Hclk & Hcount & Hinv).
      cbn [app] in Hsplit.
      assert (Hcin : c ∈ cands) by (rewrite Hsplit; set_solver).
      destruct (Hok c Hcin) as (st & data & Hc & Hdnone).
      assert (Hcnot : c ∉ done).
      { intros Hin. rewrite Hsplit in Hnd.
        apply NoDup_app in Hnd as (_ & Hdis & _). apply (Hdis c Hin). set_solver. }
      assert (Hcw : w_fs w !! c = Some (File st data)).
      { destruct (inv_old _ _ _ _ _ _ Hinv c _ Hc) as [|(_ & ? & _)]; done. }
      assert (Hnd' : path_isdir (w_fs w) (dest_of c st) = false).
      { unfold path_isdir.
        destruct (inv_new _ _ _ _ _ _ Hinv _ Hdnone)
          as [->|[[_ [b Hb]]|(? & ? & ? & _ & _ & _ & ->)]]; [done| |done].
        by apply dest_not_bucket_prefix in Hb. }
      assert (Hne : c ≠ dest_of c st) by (intros E; rewrite <- E in Hdnone; congruence).
      eapply wp_mono; [apply transfer_one_spec|]. cbn beta.
      intros r w' (fs' & evs1 & rf & -> & Heff & Hr).
      destruct (transfer_effect_turn args env c st data _ rf fs' Hcw Hnd' Hne Heff)
        as (k & Hk & Hokk & Hturn).
      pose proof (run_inv_turn args env (w_fs wa) cands Hnd Hok
                    done (error_paths evs) (w_fs w) c rest k st data fs'
                    Hsplit Hc Hk Hinv Hturn) as Hinv'.
      destruct rf as [size|e]; destruct Hr as [-> Herr]; cbn in Hokk;
        rewrite <- Hokk in Hinv'.
      + exists (S p), (s + size). split; [done|]. exists (evs ++ evs1).
        cbn [w_events w_clock w_fs]. rewrite Hev, <- app_assoc. split; [done|].
        split; [done|]. rewrite error_paths_app, Herr, app_nil_r.
        split; [rewrite length_app; cbn; lia|]. by rewrite app_nil_r in Hinv'.
      + exists p, s. split; [done|]. exists (evs ++ evs1).
        cbn [w_events w_clock w_fs]. rewrite Hev, <- app_assoc. split; [done|].
        split; [done|]. rewrite error_paths_app, Herr.
        split; [rewrite !length_app; cbn; lia|]. done. }
  cbn beta. intros r w' (p & s & -> & evs & ? & ? & ? & ?). by exists p, s, evs.
Qed.

(** ** The scan delivers legitimate candidates *)

Lemma prepare_spec source_dir w :
  wp (prepare env source_dir)
     (λ r w1, ∃ fs1 rm, w1 = with_fs fs1 w ∧
        makedirs_post env DEST_DIR (w_fs w) rm fs1 ∧
        match r with
        | Ok files =>
            rm = Ok tt ∧
            forallb (scannable env fs1) (os_walk fs1 source_dir) = true ∧
            files = List.filter (is_candidate env fs1) (os_walk fs1 source_dir)
        | Raise e =>
            rm = Raise e ∨
            (rm = Ok tt ∧ forallb (scannable env fs1) (os_walk fs1 source_dir) = false)
        end) w.
Proof.
  unfold prepare. apply wp_bind. eapply wp_mono; [apply os_makedirs_spec|]. cbn beta.
  intros rm w1 (fs1 & -> & Hpost). destruct rm as [[]|e].
  - apply wp_bind, wp_get_fs. cbn [w_fs with_fs].
    eapply wp_mono; [apply scan_loop_spec|]. cbn beta. intros r w1 [-> Hr].
    exists fs1, (Ok tt). split; [done|]. split; [done|]. cbn [w_fs with_fs] in Hr.
    destruct r as [files|e'].
    + destruct Hr as [? ->]. done.
    + right. done.
  - exists fs1, (Raise e). split; [done|]. split; [done|]. by left.
Qed.

Lemma candidates_of_scan fs source_dir :
  NoDup (List.filter (is_candidate env fs) (os_walk fs source_dir)) ∧
  candidates_ok fs (List.filter (is_candidate env fs) (os_walk fs source_dir)).
Proof.
  split.
  - apply NoDup_ListNoDup, List.NoDup_filter, NoDup_ListNoDup, NoDup_os_walk.
  - intros c Hc. apply list_elem_of_In, filter_In in Hc as [Hw Hcand].
    apply list_elem_of_In, os_walk_is_file, is_file_Some in Hw as (st & data & Hc).
    exists st, data. split; [done|]. unfold is_candidate in Hcand. rewrite Hc in Hcand.
    unfold path_exists in Hcand. by destruct (fs !! dest_of c st).
Qed.

Lemma announce_fs source_dir n w : w_fs (announce args source_dir n w) = w_fs w.
Proof. unfold announce. by destruct (verbose args). Qed.
Lemma announce_clock source_dir n w : w_clock (announce args source_dir n w) = w_clock w.
Proof. unfold announce. by destruct (verbose args). Qed.

End Pass.

Section Summary.
Variable args : Args.
Variable env : Env.
Local Abbreviation new := (new_dir_stat env).
Local Abbreviation valid_mtime := (valid_mtime env).
Local Abbreviation dest_of := (dest_of env).
Local Abbreviation bucket_of := (bucket_of env).
Local Abbreviation run_inv := (run_inv args env).

Local Abbreviation scanned_fs := (scanned_fs env).

Lemma error_paths_announce source_dir n w :
  ∃ ann, w_events (announce args source_dir n w) = w_events w ++ ann ∧
         error_paths ann = [].
Proof.
  unfold announce. destruct (verbose args).
  - eexists [_; _]. cbn. split; [by rewrite <- app_assoc|done].
  - eexists [_]. done.
Qed.

(** Every call of the engine returns an outcome; what the outcome and the
    world after the call are like depends on whether the steps before the
    transfer loop raised. *)
Lemma engine_run source_dir w :
  ∃ o w' evs,
    copy_or_move_files args env source_dir w = (Ok o, w') ∧
    w_events w' = w_events w ++ evs ∧
    w_clock w' = w_clock w ∧
    adds_dirs env DEST_DIR (w_fs w) (scanned_fs source_dir w) ∧
    match (prepare env source_dir w).1 with
    | Raise e =>
        o = mkOutcome false 0 0 0 ∧
        w_fs w' = scanned_fs source_dir w ∧
        evs = [Log ERROR (MsgErrorBatch e)]
    | Ok files =>
        success o = true ∧
        total_new_files o = length files ∧
        path_isdir (scanned_fs source_dir w) DEST_DIR = true ∧
        forallb (scannable env (scanned_fs source_dir w))
                (os_walk (scanned_fs source_dir w) source_dir) = true ∧
        files = List.filter (is_candidate env (scanned_fs source_dir w))
                            (os_walk (scanned_fs source_dir w) source_dir) ∧
        (processed_new_files o + length (error_paths evs) = length files)%nat ∧
        run_inv (scanned_fs source_dir w) files (error_paths evs) (w_fs w')
    end.
Proof.
  unfold scanned_fs. rewrite copy_or_move_files_unfold.
  destruct (prepare env source_dir w) as [[files|e] w1] eqn:Hprep; cbn [fst snd].
  - pose proof (wp_run _ _ _ _ _ (prepare_spec env source_dir w) Hprep)
      as (fs1 & rm & -> & (Hadd & Hdir & _) & -> & Hscan & Hfiles).
    cbn [w_fs with_fs] in *. specialize (Hdir eq_refl).
    destruct (candidates_of_scan env fs1 source_dir) as [Hnd Hok].
    rewrite <- Hfiles in Hnd, Hok.
    set (wa := announce args source_dir (length files) (with_fs fs1 w)).
    assert (Hfa : w_fs wa = fs1) by apply announce_fs.
    destruct (error_paths_announce source_dir (length files) (with_fs fs1 w))
      as (ann & Hann & Hannerr). fold wa in Hann. cbn [w_events with_fs] in Hann.
    destruct (transfer_loop args env 0 (length files) files 0 0 wa)
      as [r w2] eqn:Hloop.
    assert (Hspec := transfer_loop_spec args env files wa Hnd).
    rewrite Hfa in Hspec. specialize (Hspec Hok).
    apply (wp_run _ _ _ _ _ Hspec) in Hloop as Hres.
    destruct Hres as (p & s & evs & -> & Hev & Hclk & Hcount & Hinv).
    eexists _, _, (ann ++ evs ++ [Log INFO (MsgSuccess (move args) p s)]).
    split; [done|]. cbn [w_events w_clock w_fs add_event].
    split; [by rewrite Hev, Hann, <- !app_assoc|].
    split; [subst wa; by rewrite Hclk, announce_clock|].
    split; [done|].
    rewrite !error_paths_app, Hannerr. cbn [error_paths omap error_path app].
    rewrite app_nil_r. cbn [success total_new_files processed_new_files].
    done.
  - pose proof (wp_run _ _ _ _ _ (prepare_spec env source_dir w) Hprep)
      as (fs1 & rm & -> & (Hadd & _) & _).
    eexists _, _, [_]. split; [done|]. done.
Qed.

End Summary.

Section Claims.
Variable args : Args.
Variable env : Env.
Local Abbreviation new := (new_dir_stat env).
Local Abbreviation valid_mtime := (valid_mtime env).
Local Abbreviation dest_of := (dest_of env).
Local Abbreviation bucket_of := (bucket_of env).
Local Abbreviation run_inv := (run_inv args env).
Local Abbreviation scanned_fs := (scanned_fs env).

Lemma elem_of_candidates fs source_dir p st data :
  p ∈ os_walk fs source_dir → fs !! p = Some (File st data) →
  p ∈ List.filter (is_candidate env fs) (os_walk fs source_dir) ↔
  path_exists fs (dest_of p st) = false.
Proof.
  intros Hw Hp. rewrite list_elem_of_In, filter_In, <- list_elem_of_In.
  unfold is_candidate. rewrite Hp, negb_true_iff. tauto.
Qed.

(** Claim C10.  [copy_or_move_files] always returns an outcome (the outer
    handler catches every exception), and whenever that outcome reports
    [success = false] its three counters are zero: no file processed, no
    candidate counted, no byte transferred (line 268). *)
Theorem failure_outcome_has_zero_counters source_dir w :
  ∃ o w', copy_or_move_files args env source_dir w = (Ok o, w') ∧
    (success o = false →
     processed_new_files o = 0%nat ∧ total_new_files o = 0%nat ∧
     total_size_processed o = 0).
Proof.
  destruct (engine_run args env source_dir w) as (o & w' & evs & Hrun & _ & _ & _ & H).
  exists o, w'. split; [done|]. intros Hs.
  destruct (prepare env source_dir w).1 as [files|e].
  - destruct H as (Hs' & _). congruence.
  - by destruct H as (-> & _).
Qed.

(** Claim C6.  The outcome reports [success = true] exactly when the steps
    before the transfer loop (creating the destination root and scanning
    the source, [prepare]) raise nothing.  In particular, when
    [os.makedirs(DEST_DIR)] fails the outcome is a failure.  A failure
    outcome has processed = 0, leaves the file system as the failed
    preparation left it, and the last record of the log is the batch
    error of line 267. *)
Theorem batch_fatal_iff_preparation_fails source_dir w :
  ∃ o w', copy_or_move_files args env source_dir w = (Ok o, w') ∧
    success o = is_ok (prepare env source_dir w).1 ∧
    (is_ok (os_makedirs env DEST_DIR w).1 = false → success o = false) ∧
    (success o = false →
     processed_new_files o = 0%nat ∧
     w_fs w' = scanned_fs source_dir w ∧
     ∃ e, (prepare env source_dir w).1 = Raise e ∧
          last (w_events w') = Some (Log ERROR (MsgErrorBatch e))).
Proof.
  destruct (engine_run args env source_dir w)
    as (o & w' & evs & Hrun & Hev & _ & _ & H).
  exists o, w'. split; [done|].
  assert (Hmk : is_ok (os_makedirs env DEST_DIR w).1 = false →
                is_ok (prepare env source_dir w).1 = false).
  { unfold prepare, mbind, M_bind, bind.
    by destruct (os_makedirs env DEST_DIR w) as [[[]|e] w1]. }
  destruct (prepare env source_dir w).1 as [files|e]; cbn [is_ok] in *.
  - destruct H as (Hs & _). split; [done|]. split; [intros ?%Hmk; done|]. congruence.
  - destruct H as (-> & Hfs & ->). split; [done|]. split; [done|]. intros _.
    split; [done|]. split; [done|]. exists e. split; [done|].
    rewrite Hev. apply last_snoc.
Qed.

(** Claim C7.  When the scan finds no candidate, the engine returns the
    outcome (true, 0, 0, 0): a success with zero files processed, zero
    candidates and zero bytes.  It touches nothing in the file system
    beyond what the preparation did, logs no per-file error, and ends
    the log with the success summary of line 264. *)
Theorem empty_candidate_set_is_success source_dir w :
  (prepare env source_dir w).1 = Ok [] →
  ∃ w' evs,
    copy_or_move_files args env source_dir w = (Ok (mkOutcome true 0 0 0), w') ∧
    w_fs w' = scanned_fs source_dir w ∧
    w_events w' = w_events w ++ evs ∧
    error_paths evs = [] ∧
    last evs = Some (Log INFO (MsgSuccess (move args) 0 0)).
Proof.
  intros Hprep. rewrite copy_or_move_files_unfold. unfold scanned_fs.
  destruct (prepare env source_dir w) as [r w1] eqn:E. cbn in Hprep. subst r.
  pose proof (wp_run _ _ _ _ _ (prepare_spec env source_dir w) E)
    as (fs1 & rm & -> & _).
  cbn [transfer_loop length]. unfold mret, M_ret, ret. cbn [snd].
  destruct (error_paths_announce args source_dir 0 (with_fs fs1 w))
    as (ann & Hann & Hannerr). cbn [w_events with_fs] in Hann.
  eexists _, (ann ++ [Log INFO (MsgSuccess (move args) 0 0)]). split; [done|].
  cbn [w_fs w_events add_event]. rewrite announce_fs. split; [done|].
  split; [by rewrite Hann, <- app_assoc|].
  split; [rewrite error_paths_app, Hannerr; done|]. apply last_snoc.
Qed.

(** Claim C3.  Per-candidate failure isolation.  When the steps before
    the loop succeed with the candidate list [files] of length N, the
    engine returns [success = true] and [total = N] whatever happens to
    single candidates.  The candidates that failed are those with an
    error record in the log (line 261): processed plus their number is
    N, each of them is a candidate, and every other candidate, before or
    after a failing one, has a regular file at its destination when the
    run ends.  With exactly one failing candidate, processed = N - 1. *)
Theorem per_file_failure_isolation source_dir w files :
  (prepare env source_dir w).1 = Ok files →
  ∃ o w' evs,
    copy_or_move_files args env source_dir w = (Ok o, w') ∧
    w_events w' = w_events w ++ evs ∧
    success o = true ∧
    total_new_files o = length files ∧
    (processed_new_files o + length (error_paths evs) = length files)%nat ∧
    (∀ c, c ∈ error_paths evs → c ∈ files) ∧
    (∀ c, c ∈ files → c ∉ error_paths evs →
       ∃ st data, scanned_fs source_dir w !! c = Some (File st data) ∧
                  is_file (w_fs w') (dest_of c st) = true) ∧
    (∀ k, error_paths evs = [k] →
       processed_new_files o = (length files - 1)%nat).
Proof.
  intros Hprep.
  destruct (engine_run args env source_dir w)
    as (o & w' & evs & Hrun & Hev & _ & _ & H).
  rewrite Hprep in H. destruct H as (Hs & Ht & _ & _ & Hfiles & Hcount & Hinv).
  exists o, w', evs. repeat (split; [done|]).
  split; [apply Hinv|]. split.
  - intros c Hc Hnf.
    assert (∃ st data, scanned_fs source_dir w !! c = Some (File st data))
      as (st & data & Hcf).
    { rewrite Hfiles in Hc. apply list_elem_of_In, filter_In in Hc as [Hw _].
      by apply list_elem_of_In, os_walk_is_file, is_file_Some in Hw. }
    exists st, data. split; [done|].
    by destruct (inv_success _ _ _ _ _ _ Hinv c st data Hc Hnf Hcf).
  - intros k Hk. rewrite Hk in Hcount. cbn in Hcount. lia.
Qed.

(** Claim C1.  For every file [p] the walk of the source enumerates, [p]
    is a transfer candidate if and only if nothing exists at
    [DEST_DIR/<bucket>/<basename>], the bucket being derived from the
    modification date of [p] (lines 218-224; the test is
    [os.path.exists], so a directory of that name counts as well).  A
    file that fails the test is skipped: it is not counted as a
    candidate, it stays at its source as it was, it gets no error
    record, and what stands at its destination is not overwritten (the
    entry is unchanged unless that very entry was itself a candidate of
    a moving run; a file found there afterwards is the file that was
    there before). *)
Theorem candidate_iff_nothing_at_destination source_dir w files :
  (prepare env source_dir w).1 = Ok files →
  ∃ o w' evs,
    copy_or_move_files args env source_dir w = (Ok o, w') ∧
    w_events w' = w_events w ++ evs ∧
    total_new_files o = length files ∧
    ∀ p, p ∈ os_walk (scanned_fs source_dir w) source_dir →
      ∃ st data,
        scanned_fs source_dir w !! p = Some (File st data) ∧
        (p ∈ files ↔ path_exists (scanned_fs source_dir w) (dest_of p st) = false) ∧
        (path_exists (scanned_fs source_dir w) (dest_of p st) = true →
           (p ∉ files) ∧
           w_fs w' !! p = Some (File st data) ∧
           (p ∉ error_paths evs) ∧
           ((move args = false ∨ dest_of p st ∉ files) →
              w_fs w' !! dest_of p st = scanned_fs source_dir w !! dest_of p st) ∧
           (∀ st' data', w_fs w' !! dest_of p st = Some (File st' data') →
              scanned_fs source_dir w !! dest_of p st = Some (File st' data'))).
Proof.
  intros Hprep.
  destruct (engine_run args env source_dir w)
    as (o & w' & evs & Hrun & Hev & _ & _ & H).
  rewrite Hprep in H. destruct H as (Hs & Ht & _ & _ & Hfiles & Hcount & Hinv).
  exists o, w', evs. repeat (split; [done|]).
  intros p Hw. set (fs1 := scanned_fs source_dir w) in *.
  pose proof Hw as (st & data & Hp)%os_walk_is_file%is_file_Some.
  exists st, data. split; [done|].
  assert (Hiff : p ∈ files ↔ path_exists fs1 (dest_of p st) = false).
  { rewrite Hfiles. by apply (elem_of_candidates _ _ _ st data). }
  split; [done|]. intros Hex.
  assert (Hnot : p ∉ files) by (rewrite Hiff; congruence).
  split; [done|]. split.
  { destruct (inv_old _ _ _ _ _ _ Hinv p _ Hp) as [|(_ & ? & _)]; done. }
  split.
  { intros Hf. by apply (inv_failed _ _ _ _ _ _ Hinv) in Hf. }
  unfold path_exists in Hex.
  destruct (fs1 !! dest_of p st) as [n|] eqn:Hd; [|done].
  pose proof (inv_old _ _ _ _ _ _ Hinv _ _ Hd) as Hold. split.
  - intros Hcase. destruct Hold as [|(Hm & Hin & _)]; [done|].
    destruct Hcase; congruence.
  - intros st' data' Hafter.
    destruct Hold as [E|(_ & _ & [E|[E _]])]; congruence.
Qed.


(** Claim C5.  One transfer (lines 236-252) of a regular file [c] whose
    destination is not a directory.  In copy mode the source entry is
    exactly as before.  In move mode the source entry is either exactly
    as before, or it is gone and then the transfer succeeded and the
    destination holds the content and metadata of [c]: the source is
    removed only after the write of the destination succeeded.  A failed
    transfer never removes the source. *)
Theorem source_removed_only_after_write c st data w :
  w_fs w !! c = Some (File st data) →
  path_isdir (w_fs w) (dest_of c st) = false →
  ∃ r w',
    transfer_file args env c w = (r, w') ∧
    (move args = false → w_fs w' !! c = Some (File st data)) ∧
    (is_ok r = false → w_fs w' !! c = Some (File st data)) ∧
    (w_fs w' !! c = Some (File st data) ∨
     (move args = true ∧ is_ok r = true ∧ w_fs w' !! c = None ∧
      w_fs w' !! dest_of c st = Some (File st data))).
Proof.
  intros Hc Hnd. destruct (transfer_file args env c w) as [r w'] eqn:Hrun.
  exists r, w'. split; [done|].
  pose proof (wp_run _ _ _ _ _ (transfer_file_spec args env c w) Hrun)
    as (fs' & evs & -> & _ & Heff). cbn [w_fs].
  assert (Hland : ∀ fs1, adds_dirs env (bucket_of st) (w_fs w) fs1 →
                         landing fs1 c (dest_of c st) = dest_of c st).
  { intros fs1 Ha. unfold landing.
    assert (path_isdir fs1 (dest_of c st) = false) as ->; [|done].
    unfold path_isdir in *. destruct (Ha (dest_of c st)) as [->|(_ & _ & Hp)]; [done|].
    destruct (bucket_of_shape env st) as [b Hb]. rewrite Hb in Hp.
    by apply dest_not_bucket_prefix in Hp. }
  inversion Heff as [e b fs1 Ha|st' data' fs1 r' Hc' Hv Ha Hdir Hne' Hr
                    |st' data' fs1 size Hm Hc' Hv Ha Hdir Hne'
                    |st' data' fs1 size Hm Hc' Hv Ha Hdir Heq]; subst.
  - assert (fs' !! c = Some (File st data)) by by eapply adds_dirs_keeps.
    auto.
  - rewrite Hc in Hc'. injection Hc' as <- <-.
    assert (<[landing fs1 c (dest_of c st):=File st data]> fs1 !! c = Some (File st data)).
    { rewrite lookup_insert_ne by done. by eapply adds_dirs_keeps. }
    auto.
  - rewrite Hc in Hc'. injection Hc' as <- <-. rewrite (Hland _ Ha) in *.
    split; [congruence|]. split; [done|]. right. split; [done|]. split; [done|].
    split.
    + rewrite lookup_insert_ne by done. by rewrite lookup_delete_eq.
    + by rewrite lookup_insert_eq.
  - rewrite Hc in Hc'. injection Hc' as <- <-.
    assert (fs' !! c = Some (File st data)) by by eapply adds_dirs_keeps.
    auto.
Qed.

End Claims.

Lemma filter_none {A} (f : A → bool) l :
  (∀ x, x ∈ l → f x = false) → List.filter f l = [].
Proof.
  induction l as [|x l IH]; intros H; [done|]. cbn.
  rewrite (H x) by set_solver. apply IH. intros y Hy. apply H. set_solver.
Qed.

Lemma dirs_listable_agree fs fs' rel : ∀ d,
  (∀ q n, d `prefix_of` q → fs !! q = Some n → fs' !! q = Some n) →
  dirs_listable fs d rel = true → dirs_listable fs' d rel = true.
Proof.
  induction rel as [|name rel IH]; intros d Hsame; cbn; [done|].
  rewrite !andb_true_iff. intros [Hscan Hrest]. split.
  - unfold can_scandir in *. destruct (fs !! d) as [n|] eqn:E; [|done].
    by rewrite (Hsame d n (reflexivity _) E).
  - apply IH; [|done]. intros q n Hq. apply Hsame. etrans; [|exact Hq].
    by apply prefix_app_r.
Qed.

Section Idempotence.
Variable args : Args.
Variable env : Env.
Local Abbreviation new := (new_dir_stat env).
Local Abbreviation valid_mtime := (valid_mtime env).
Local Abbreviation dest_of := (dest_of env).
Local Abbreviation bucket_of := (bucket_of env).
Local Abbreviation run_inv := (run_inv args env).
Local Abbreviation scanned_fs := (scanned_fs env).

Lemma prepare_unfold source_dir w :
  prepare env source_dir w =
  match os_makedirs env DEST_DIR w with
  | (Ok _, w1) => scan_loop env (os_walk (w_fs w1) source_dir) [] w1
  | (Raise e, w1) => (Raise e, w1)
  end.
Proof.
  unfold prepare, mbind, M_bind, bind, get_fs.
  by destruct (os_makedirs env DEST_DIR w) as [[[]|e] w1].
Qed.

(** When the steps before the loop succeed, the parent of the destination
    root exists. *)
Lemma prepare_Ok_parent source_dir w files :
  (prepare env source_dir w).1 = Ok files →
  path_exists (scanned_fs source_dir w) (dirname DEST_DIR) = true.
Proof.
  unfold scanned_fs. rewrite prepare_unfold.
  destruct (os_makedirs env DEST_DIR w) as [[[]|e] w1] eqn:Hmk; [|done].
  destruct (scan_loop env _ [] w1) as [r w2] eqn:Hscan.
  pose proof (wp_run _ _ _ _ _ (scan_loop_spec env _ _ _) Hscan) as [-> _].
  intros _. cbn [snd].
  exact (wp_run _ _ _ _ _ (makedirs_rev_parent env "GoPro" ["Zdir"] w) Hmk eq_refl).
Qed.

Section SecondPass.
Variables (source_dir : path) (fs1 fs2 : fsmap) (files : list path).
Hypothesis src_not_above : ¬ source_dir `prefix_of` DEST_DIR.
Hypothesis src_not_below : ¬ DEST_DIR `prefix_of` source_dir.
Hypothesis Hfiles :
  files = List.filter (is_candidate env fs1) (os_walk fs1 source_dir).
Hypothesis Hscan : forallb (scannable env fs1) (os_walk fs1 source_dir) = true.
Hypothesis Hinv : run_inv fs1 files [] fs2.

Lemma under_source_not_bucket q b :
  source_dir `prefix_of` q → ¬ q `prefix_of` DEST_DIR ++ [b].
Proof.
  intros Hsq Hqb. assert (Hsb : source_dir `prefix_of` DEST_DIR ++ [b]) by by etrans.
  destruct Hsb as [k Hk]. destruct (decide (k = [])) as [->|Hne].
  - apply src_not_below. rewrite app_nil_r in Hk. rewrite <- Hk. by apply prefix_app_r.
  - apply src_not_above. destruct (exists_last Hne) as (k' & x & ->).
    rewrite app_assoc in Hk. apply app_inj_tail in Hk as [-> _]. by apply prefix_app_r.
Qed.

Lemma under_source_not_dest q :
  source_dir `prefix_of` q → ¬ DEST_DIR `prefix_of` q.
Proof.
  intros Hsq Hdq. destruct (prefix_weak_total _ _ _ Hsq Hdq); done.
Qed.

Lemma files_under_source c : c ∈ files → source_dir `prefix_of` c.
Proof.
  rewrite Hfiles. intros [Hw _]%list_elem_of_In%filter_In.
  by apply list_elem_of_In, os_walk_under in Hw.
Qed.

(** Below the source directory, the pass only takes files away. *)
Lemma under_source_after q n :
  source_dir `prefix_of` q → fs2 !! q = Some n → fs1 !! q = Some n.
Proof.
  intros Hsq Hq. destruct (fs1 !! q) as [n1|] eqn:E1.
  - destruct (inv_old _ _ _ _ _ _ Hinv q n1 E1) as [E|(_ & _ & [E|[_ [b Hb]]])].
    + congruence.
    + congruence.
    + by apply under_source_not_bucket in Hb.
  - destruct (inv_new _ _ _ _ _ _ Hinv q E1)
      as [E|[[_ [b Hb]]|(c & st & data & _ & _ & -> & _)]].
    + congruence.
    + by apply under_source_not_bucket in Hb.
    + destruct (under_source_not_dest _ Hsq). apply dest_under_DEST.
Qed.

Lemma walked_after_walked_before p :
  p ∈ os_walk fs2 source_dir → p ∈ os_walk fs1 source_dir.
Proof.
  rewrite !elem_of_os_walk, !walked_spec.
  intros (name & rel & -> & Hdirs & Hfile). exists name, rel. split; [done|]. split.
  - eapply dirs_listable_agree; [|exact Hdirs]. intros q n. apply under_source_after.
  - apply is_file_Some in Hfile as (st & data & Hp). apply is_file_Some.
    exists st, data. apply under_source_after; [|done]. by apply prefix_app_r.
Qed.

Lemma second_scan_finds_nothing p :
  p ∈ os_walk fs2 source_dir →
  scannable env fs2 p = true ∧ is_candidate env fs2 p = false.
Proof.
  intros Hw2. pose proof (walked_after_walked_before p Hw2) as Hw1.
  pose proof Hw2 as (st & data & Hp2)%os_walk_is_file%is_file_Some.
  assert (Hp1 : fs1 !! p = Some (File st data)).
  { apply under_source_after; [|done]. by eapply os_walk_under. }
  split.
  - rewrite forallb_forall in Hscan. specialize (Hscan p).
    unfold scannable in *. rewrite Hp2. rewrite Hp1 in Hscan.
    apply Hscan. by apply list_elem_of_In.
  - unfold is_candidate. rewrite Hp2. apply negb_false_iff.
    destruct (decide (p ∈ files)) as [Hin|Hnin].
    + destruct (inv_success _ _ _ _ _ _ Hinv p st data Hin) as [Hf _];
        [set_solver|done|].
      apply is_file_Some in Hf as (? & ? & Hf). unfold path_exists. by rewrite Hf.
    + assert (Hex : path_exists fs1 (dest_of p st) = true).
      { destruct (path_exists fs1 (dest_of p st)) eqn:E; [done|].
        destruct Hnin. rewrite Hfiles.
        apply list_elem_of_In, filter_In. split; [by apply list_elem_of_In|].
        unfold is_candidate. by rewrite Hp1, E. }
      unfold path_exists in *.
      destruct (fs1 !! dest_of p st) as [n|] eqn:Hd; [|done].
      destruct (inv_old _ _ _ _ _ _ Hinv _ _ Hd) as [->|(_ & Hin & _)]; [done|].
      apply files_under_source in Hin.
      destruct (under_source_not_dest _ Hin). apply dest_under_DEST.
Qed.

Lemma kept_outside_source q n :
  ¬ source_dir `prefix_of` q → fs1 !! q = Some n → fs2 !! q = Some n.
Proof.
  intros Hq E. destruct (inv_old _ _ _ _ _ _ Hinv q n E) as [|(_ & Hin & _)]; [done|].
  by apply files_under_source in Hin.
Qed.

End SecondPass.


End Idempotence.

(** * The polling loop *)

Lemma idle_refl w : idle w w.
Proof.
  split; [done|]. split; [lia|]. exists []. by rewrite app_nil_r.
Qed.

Lemma idle_trans w1 w2 w3 : idle w1 w2 → idle w2 w3 → idle w1 w3.
Proof.
  intros (Hf1 & Hc1 & evs1 & He1 & Hq1) (Hf2 & Hc2 & evs2 & He2 & Hq2).
  split; [congruence|]. split; [lia|]. exists (evs1 ++ evs2).
  split; [by rewrite He2, He1, app_assoc|]. by apply Forall_app.
Qed.

Lemma idle_log lvl m w :
  engine_message m = false → idle w (add_event (Log lvl m) w).
Proof.
  intros Hm. split; [done|]. split; [cbn; lia|]. exists [Log lvl m].
  split; [done|]. by repeat constructor.
Qed.

Lemma idle_tick d w :
  0 ≤ d → idle w (mkWorld (w_fs w) (w_events w) (w_clock w + d)).
Proof.
  intros Hd. split; [done|]. split; [cbn; lia|]. exists []. cbn.
  by rewrite app_nil_r.
Qed.

Section Polling.
Variable args : Args.
Variable env : Env.
Hypothesis no_mount : never_mounts env.

Lemma wp_probe {A} (reply : Z → A) (Q : res A → world → Prop) w :
  (∀ w', idle w w' → Q (Ok (reply (w_clock w))) w') →
  wp (probe env reply) Q w.
Proof.
  intros HQ. unfold probe. apply wp_bind. unfold get_clock. apply wp_intro.
  intros r w' [= <- <-]. apply wp_bind. apply wp_intro. intros r w'.
  unfold advance_clock. intros [= <- <-]. apply wp_ret, HQ, idle_tick. lia.
Qed.

Lemma wp_verbose_info m (Q : res unit → world → Prop) w :
  engine_message m = false →
  (∀ w', idle w w' → Q (Ok tt) w') →
  wp (verbose_info args m) Q w.
Proof.
  intros Hm HQ. unfold verbose_info, logger_info. destruct (verbose args).
  - apply wp_emit, HQ. by apply idle_log.
  - apply wp_ret, HQ, idle_refl.
Qed.

Lemma wp_time_sleep secs (Q : res unit → world → Prop) w :
  0 ≤ secs →
  (∀ w', idle w w' → w_clock w + secs * TICKS_PER_SECOND ≤ w_clock w' → Q (Ok tt) w') →
  wp (time_sleep env secs) Q w.
Proof.
  intros Hsecs HQ. unfold time_sleep. apply wp_bind. unfold get_clock. apply wp_intro.
  intros r w' [= <- <-]. apply wp_intro. intros r w'.
  unfold advance_clock. intros [= <- <-]. unfold TICKS_PER_SECOND in *. apply HQ.
  - apply idle_tick. lia.
  - cbn. lia.
Qed.

(** Lines 328-436 when no mount is reported: the turn ends in the
    one-second sleep and the loop goes on. *)
Lemma poll_once_idle w :
  wp (poll_once args env)
     (λ r w', r = Ok None ∧ idle w w' ∧ w_clock w + TICKS_PER_SECOND ≤ w_clock w') w.
Proof.
  assert (Hsleep : ∀ w1, idle w w1 →
    wp (time_sleep env 1;; mret None)
       (λ (r : res (option Z)) w', r = Ok None ∧ idle w w' ∧
                 w_clock w + TICKS_PER_SECOND ≤ w_clock w') w1).
  { intros w1 Hi. apply wp_bind, wp_time_sleep; [lia|]. intros w2 Hi2 Hc. apply wp_ret.
    split; [done|]. split; [by eapply idle_trans|].
    destruct Hi as (_ & ? & _). lia. }
  unfold poll_once. apply wp_bind. unfold check_mtp_connection. apply wp_probe.
  intros w1 Hi1. destruct (check_mtp_connection_reply env (w_clock w)).
  - apply wp_bind, wp_verbose_info; [done|]. intros w2 Hi2.
    apply wp_bind. unfold is_gopro_connected. apply wp_probe. intros w3 Hi3.
    destruct (no_mount (w_clock w2)) as (-> & _ & _).
    apply wp_bind, wp_bind, wp_verbose_info; [done|]. intros w4 Hi4.
    unfold find_gopro_mount_point. apply wp_probe. intros w5 Hi5.
    destruct (no_mount (w_clock w4)) as (_ & -> & _).
    apply wp_bind, wp_bind, wp_verbose_info; [done|]. intros w6 Hi6.
    unfold try_access_gopro_mtp. apply wp_probe. intros w7 Hi7.
    destruct (no_mount (w_clock w6)) as (_ & _ & ->).
    apply wp_bind, wp_verbose_info; [done|]. intros w8 Hi8.
    apply Hsleep. repeat (eapply idle_trans; [|eassumption]). apply idle_refl.
  - apply wp_bind, wp_verbose_info; [done|]. intros w2 Hi2.
    apply Hsleep. by eapply idle_trans.
Qed.

(** Lines 327-439: with [n] turns to spare beyond the time left, the loop
    ends in the time-out branch. *)
Lemma poll_loop_times_out n : ∀ timeout w,
  timeout - w_clock w ≤ TICKS_PER_SECOND * Z.of_nat n →
  wp (poll_loop args env (S n) timeout)
     (λ r w', r = Ok (Some 0) ∧
        ∃ w1, idle w w1 ∧ timeout ≤ w_clock w1 ∧
              w' = add_event (Log INFO MsgTimeout) w1) w.
Proof.
  induction n as [|n IH]; intros timeout w Hleft; cbn [poll_loop];
    apply wp_bind; unfold time_time, get_clock; apply wp_intro; intros r w' [= <- <-].
  - assert ((w_clock w <? timeout) = false) as -> by (apply Z.ltb_ge; lia).
    unfold logger_info. apply wp_bind, wp_emit, wp_ret. split; [done|].
    exists w. split; [apply idle_refl|]. split; [lia|done].
  - destruct (w_clock w <? timeout) eqn:Hlt.
    + apply wp_bind. eapply wp_mono; [apply poll_once_idle|]. cbn beta.
      intros r w1 (-> & Hi & Hc).
      eapply wp_mono; [apply (IH timeout w1); unfold TICKS_PER_SECOND in *; lia|].
      cbn beta. intros r w2 (-> & w3 & Hi3 & Ht & ->). split; [done|].
      exists w3. split; [by eapply idle_trans|done].
    + apply Z.ltb_ge in Hlt. unfold logger_info. apply wp_bind, wp_emit, wp_ret.
      split; [done|]. exists w. split; [apply idle_refl|]. split; [lia|done].
Qed.

Lemma main_times_out n w :
  (7 ≤ n)%nat →
  wp (main args env (S n))
     (λ r w', r = Ok (Some 0) ∧
        ∃ w1, idle w w1 ∧ w_clock w + 7 * TICKS_PER_SECOND ≤ w_clock w1 ∧
              w' = add_event (Log INFO MsgTimeout) w1) w.
Proof.
  intros Hn. unfold main, logger_info.
  apply wp_bind, wp_emit, wp_bind, wp_emit, wp_bind, wp_emit, wp_bind.
  unfold time_time, get_clock. apply wp_intro. intros r w' [= <- <-].
  set (w0 := add_event _ (add_event _ (add_event _ w))).
  assert (Hi0 : idle w w0).
  { subst w0. eapply idle_trans; [|by apply idle_log].
    eapply idle_trans; [|by apply idle_log]. by apply idle_log. }
  eapply wp_mono.
  { apply poll_loop_times_out. unfold TICKS_PER_SECOND. subst w0. cbn [w_clock add_event]. lia. }
  cbn beta. intros r w2 (-> & w3 & Hi3 & Ht & ->). split; [done|].
  exists w3. split; [by eapply idle_trans|]. split; [|done].
  subst w0. cbn [w_clock add_event] in Ht. done.
Qed.

End Polling.

(** Every call of the engine leaves a trace: the last record it writes is
    one of its own. *)
Lemma engine_leaves_trace args env source_dir w :
  ∃ ev, last (w_events (copy_or_move_files args env source_dir w).2) = Some ev ∧
        engine_event ev = true.
Proof.
  rewrite copy_or_move_files_unfold.
  destruct (prepare env source_dir w) as [[files|e] w1].
  - destruct (transfer_loop _ _ _ _ _ _ _ _) as [[[p s]|e] w2]; cbn;
      rewrite last_snoc; by eexists.
  - cbn. rewrite last_snoc. by eexists.
Qed.


(** * Dates *)

Lemma checked_from_spec count : ∀ n m,
  checked_from count n = true → n ≤ m < n + Z.of_nat count → cycle_check m = true.
Proof.
  induction count as [|count IH]; intros n m; cbn [checked_from]; [lia|].
  intros [Hn Hrest]%andb_true_iff Hm.
  destruct (decide (m = n)) as [->|Hne]; [done|].
  apply (IH (n + 1)); [done|lia].
Qed.

Lemma first_cycle_checked : checked_from (Z.to_nat 146097) 1 = true.
Proof. vm_cast_no_check (eq_refl true). Qed.

Lemma cycle_check_first_cycle n : 1 ≤ n ≤ 146097 → cycle_check n = true.
Proof.
  intros Hn. apply (checked_from_spec _ _ _ first_cycle_checked). lia.
Qed.

(** ** The calendar repeats every 400 years *)

Lemma _is_leap_shift y q : _is_leap (y + 400 * q) = _is_leap y.
Proof.
  unfold _is_leap.
  replace (y + 400 * q) with (y + (100 * q) * 4) at 1 by lia.
  replace (y + 400 * q) with (y + (4 * q) * 100) at 1 by lia.
  replace (y + 400 * q) with (y + q * 400) by lia.
  by rewrite !Z.mod_add by lia.
Qed.

Lemma _days_before_year_shift y q :
  _days_before_year (y + 400 * q) = _days_before_year y + _DI400Y * q.
Proof.
  unfold _days_before_year, _DI400Y. cbv zeta.
  replace ((y + 400 * q - 1) / 4) with ((y - 1) / 4 + 100 * q).
  2:{ replace (y + 400 * q - 1) with (y - 1 + (100 * q) * 4) by lia.
      by rewrite Z.div_add by lia. }
  replace ((y + 400 * q - 1) / 100) with ((y - 1) / 100 + 4 * q).
  2:{ replace (y + 400 * q - 1) with (y - 1 + (4 * q) * 100) by lia.
      by rewrite Z.div_add by lia. }
  replace ((y + 400 * q - 1) / 400) with ((y - 1) / 400 + q).
  2:{ replace (y + 400 * q - 1) with (y - 1 + q * 400) by lia.
      by rewrite Z.div_add by lia. }
  lia.
Qed.

Lemma _ymd2ord_shift q d : _ymd2ord (shift_years q d) = _ymd2ord d + _DI400Y * q.
Proof.
  unfold _ymd2ord, shift_years, _days_before_month. cbn [year month day].
  rewrite _days_before_year_shift, _is_leap_shift. lia.
Qed.

Lemma _days_in_month_shift q y m :
  _days_in_month (y + 400 * q) m = _days_in_month y m.
Proof. unfold _days_in_month. by rewrite _is_leap_shift. Qed.

Lemma _ord2ymd_shift n :
  _ord2ymd n =
  shift_years ((n - 1) / _DI400Y) (_ord2ymd ((n - 1) mod _DI400Y + 1)).
Proof.
  unfold _ord2ymd. cbv zeta.
  replace ((n - 1) mod _DI400Y + 1 - 1) with ((n - 1) mod _DI400Y) by lia.
  assert (Hr : 0 ≤ (n - 1) mod _DI400Y < _DI400Y) by (apply Z.mod_pos_bound; done).
  rewrite Z.mod_mod by (unfold _DI400Y; lia).
  rewrite (Z.div_small ((n - 1) mod _DI400Y) _DI400Y) by exact Hr.
  generalize ((n - 1) mod _DI400Y). generalize ((n - 1) / _DI400Y). intros q r.
  unfold shift_years.
  repeat match goal with
         | |- context [if ?b then _ else _] => destruct b
         end; cbn [year month day]; f_equal; lia.
Qed.

(** ** [_ord2ymd] gives the date of the day *)

Lemma cycle_check_facts n :
  cycle_check n = true →
  _ymd2ord (_ord2ymd n) = n ∧
  1 ≤ year (_ord2ymd n) ≤ 400 ∧ (n ≤ 145731 → year (_ord2ymd n) ≤ 399) ∧
  1 ≤ month (_ord2ymd n) ≤ 12 ∧
  1 ≤ day (_ord2ymd n) ≤ _days_in_month (year (_ord2ymd n)) (month (_ord2ymd n)).
Proof.
  unfold cycle_check, date_ok. cbv zeta. generalize (_ord2ymd n). intros d.
  rewrite !andb_true_iff, orb_true_iff, negb_true_iff, !Z.leb_le, Z.eqb_eq, Z.leb_gt.
  lia.
Qed.

Lemma _ord2ymd_correct n :
  1 ≤ n ≤ MAX_ORDINAL →
  _ymd2ord (_ord2ymd n) = n ∧
  1 ≤ year (_ord2ymd n) ≤ 9999 ∧
  1 ≤ month (_ord2ymd n) ≤ 12 ∧
  1 ≤ day (_ord2ymd n) ≤ _days_in_month (year (_ord2ymd n)) (month (_ord2ymd n)).
Proof.
  intros Hn. rewrite _ord2ymd_shift.
  assert (Hdm : n - 1 = _DI400Y * ((n - 1) / _DI400Y) + (n - 1) mod _DI400Y)
    by (apply Z.div_mod; done).
  assert (Hr : 0 ≤ (n - 1) mod _DI400Y < _DI400Y) by (apply Z.mod_pos_bound; done).
  assert (Hq : 0 ≤ (n - 1) / _DI400Y < 25).
  { unfold MAX_ORDINAL, _DI400Y in *. split.
    - apply Z.div_pos; lia.
    - apply Z.div_lt_upper_bound; lia. }
  revert Hdm Hr Hq.
  generalize ((n - 1) / _DI400Y). generalize ((n - 1) mod _DI400Y).
  intros r q Hdm Hr Hq. unfold _DI400Y, MAX_ORDINAL in *.
  destruct (cycle_check_facts (r + 1)) as (Hord & Hy & Hlast & Hm & Hd).
  { apply cycle_check_first_cycle. lia. }
  revert Hord Hy Hlast Hm Hd. generalize (_ord2ymd (r + 1)). intros d0.
  rewrite _ymd2ord_shift. unfold shift_years, _DI400Y. cbn [year month day].
  rewrite _days_in_month_shift. lia.
Qed.

(** ** Zero-padded decimal fields *)

Lemma digit_value_digit n c :
  digit n = String c EmptyString → digit_value c = Some (n mod 10).
Proof.
  unfold digit. intros [= <-].
  assert (Hk : 0 ≤ n mod 10 < 10) by (apply Z.mod_pos_bound; lia).
  assert (n mod 10 = 0 ∨ n mod 10 = 1 ∨ n mod 10 = 2 ∨ n mod 10 = 3 ∨
          n mod 10 = 4 ∨ n mod 10 = 5 ∨ n mod 10 = 6 ∨ n mod 10 = 7 ∨
          n mod 10 = 8 ∨ n mod 10 = 9) as Hcases by lia.
  repeat destruct Hcases as [->|Hcases]; try reflexivity.
  by rewrite Hcases.
Qed.

Lemma parse_dec_from_app s1 : ∀ s2 acc,
  parse_dec_from acc (s1 +:+ s2) =
  match parse_dec_from acc s1 with
  | Some a => parse_dec_from a s2
  | None => None
  end.
Proof.
  induction s1 as [|c s1 IH]; intros s2 acc; [done|].
  change (String c s1 +:+ s2) with (String c (s1 +:+ s2)).
  cbn [parse_dec_from]. destruct (digit_value c); [apply IH|done].
Qed.

Lemma length_string_app s1 s2 :
  String.length (s1 +:+ s2) = (String.length s1 + String.length s2)%nat.
Proof.
  induction s1 as [|c s1 IH]; [done|].
  change (String c s1 +:+ s2) with (String c (s1 +:+ s2)).
  cbn [String.length Nat.add]. by rewrite IH.
Qed.

Lemma length_zero_pad width : ∀ n, String.length (zero_pad width n) = width.
Proof.
  induction width as [|width IH]; intros n; cbn [zero_pad]; [done|].
  rewrite length_string_app, IH. cbn. lia.
Qed.

Lemma parse_dec_from_zero_pad width : ∀ n acc,
  0 ≤ n < 10 ^ Z.of_nat width →
  parse_dec_from acc (zero_pad width n) = Some (acc * 10 ^ Z.of_nat width + n).
Proof.
  induction width as [|width IH]; intros n acc Hn.
  - cbn in *. f_equal. lia.
  - rewrite Nat2Z.inj_succ, Z.pow_succ_r in * by lia.
    cbn [zero_pad]. rewrite parse_dec_from_app.
    assert (Hdm : n = 10 * (n / 10) + n mod 10) by (apply Z.div_mod; lia).
    assert (Hmod : 0 ≤ n mod 10 < 10) by (apply Z.mod_pos_bound; lia).
    rewrite IH by lia.
    destruct (digit n) as [|c [|]] eqn:Hdigit; try discriminate Hdigit.
    cbn [parse_dec_from]. rewrite (digit_value_digit n c Hdigit). f_equal. lia.
Qed.

Lemma parse_dec_zero_pad width n :
  (0 < width)%nat → 0 ≤ n < 10 ^ Z.of_nat width →
  parse_dec (zero_pad width n) = Some n.
Proof.
  intros Hw Hn. pose proof (length_zero_pad width n) as Hlen.
  unfold parse_dec. destruct (zero_pad width n) eqn:E; [cbn in Hlen; lia|].
  rewrite <- E, parse_dec_from_zero_pad by done. done.
Qed.


(** * Worked instances

    Each theorem above that has a premise is applied here to one of the
    example worlds, its premises settled by running the script. *)

Lemma candidate_iff_nothing_at_destination_witness :
  (prepare env_idle ["mnt"; "DCIM"] w_camera).1 =
    Ok [["mnt"; "DCIM"; "sub"; "c.mp4"]; ["mnt"; "DCIM"; "b.mp4"]] ∧
  ∃ o w' evs,
    copy_or_move_files args_copy env_idle ["mnt"; "DCIM"] w_camera = (Ok o, w') ∧
    w_events w' = w_events w_camera ++ evs ∧
    total_new_files o =
      length [["mnt"; "DCIM"; "sub"; "c.mp4"]; ["mnt"; "DCIM"; "b.mp4"]] ∧
    ∀ p, p ∈ os_walk (scanned_fs env_idle ["mnt"; "DCIM"] w_camera) ["mnt"; "DCIM"] →
      ∃ st data,
        scanned_fs env_idle ["mnt"; "DCIM"] w_camera !! p = Some (File st data) ∧
        (p ∈ [["mnt"; "DCIM"; "sub"; "c.mp4"]; ["mnt"; "DCIM"; "b.mp4"]] ↔
         path_exists (scanned_fs env_idle ["mnt"; "DCIM"] w_camera)
                     (dest_of env_idle p st) = false) ∧
        (path_exists (scanned_fs env_idle ["mnt"; "DCIM"] w_camera)
                     (dest_of env_idle p st) = true →
           (p ∉ [["mnt"; "DCIM"; "sub"; "c.mp4"]; ["mnt"; "DCIM"; "b.mp4"]]) ∧
           w_fs w' !! p = Some (File st data) ∧
           (p ∉ error_paths evs) ∧
           ((move args_copy = false ∨
             dest_of env_idle p st ∉ [["mnt"; "DCIM"; "sub"; "c.mp4"]; ["mnt"; "DCIM"; "b.mp4"]]) →
              w_fs w' !! dest_of env_idle p st =
              scanned_fs env_idle ["mnt"; "DCIM"] w_camera !! dest_of env_idle p st) ∧
           (∀ st' data', w_fs w' !! dest_of env_idle p st = Some (File st' data') →
              scanned_fs env_idle ["mnt"; "DCIM"] w_camera !! dest_of env_idle p st
              = Some (File st' data'))).
Proof.
  assert (H : (prepare env_idle ["mnt"; "DCIM"] w_camera).1 =
              Ok [["mnt"; "DCIM"; "sub"; "c.mp4"]; ["mnt"; "DCIM"; "b.mp4"]])
    by (vm_compute; reflexivity).
  split; [exact H|].
  exact (candidate_iff_nothing_at_destination args_copy env_idle _ _ _ H).
Defined.



Lemma per_file_failure_isolation_witness :
  (prepare env_idle ["mnt"; "DCIM"] w_camera).1 =
    Ok [["mnt"; "DCIM"; "sub"; "c.mp4"]; ["mnt"; "DCIM"; "b.mp4"]] ∧
  ∃ o w' evs,
    copy_or_move_files args_move env_idle ["mnt"; "DCIM"] w_camera = (Ok o, w') ∧
    w_events w' = w_events w_camera ++ evs ∧
    success o = true ∧
    total_new_files o =
      length [["mnt"; "DCIM"; "sub"; "c.mp4"]; ["mnt"; "DCIM"; "b.mp4"]] ∧
    (processed_new_files o + length (error_paths evs) =
     length [["mnt"; "DCIM"; "sub"; "c.mp4"]; ["mnt"; "DCIM"; "b.mp4"]])%nat ∧
    (∀ c, c ∈ error_paths evs →
          c ∈ [["mnt"; "DCIM"; "sub"; "c.mp4"]; ["mnt"; "DCIM"; "b.mp4"]]) ∧
    (∀ c, c ∈ [["mnt"; "DCIM"; "sub"; "c.mp4"]; ["mnt"; "DCIM"; "b.mp4"]] →
          c ∉ error_paths evs →
       ∃ st data,
         scanned_fs env_idle ["mnt"; "DCIM"] w_camera !! c = Some (File st data) ∧
         is_file (w_fs w') (dest_of env_idle c st) = true) ∧
    (∀ k, error_paths evs = [k] →
       processed_new_files o =
       (length [["mnt"; "DCIM"; "sub"; "c.mp4"]; ["mnt"; "DCIM"; "b.mp4"]] - 1)%nat).
Proof.
  assert (H : (prepare env_idle ["mnt"; "DCIM"] w_camera).1 =
              Ok [["mnt"; "DCIM"; "sub"; "c.mp4"]; ["mnt"; "DCIM"; "b.mp4"]])
    by (vm_compute; reflexivity).
  split; [exact H|].
  exact (per_file_failure_isolation args_move env_idle _ _ _ H).
Defined.


Lemma source_removed_only_after_write_witness :
  w_fs w_camera !! ["mnt"; "DCIM"; "sub"; "c.mp4"] = Some (File stat_july "ccc") ∧
  path_isdir (w_fs w_camera)
             (dest_of env_idle ["mnt"; "DCIM"; "sub"; "c.mp4"] stat_july) = false ∧
  ∃ r w',
    transfer_file args_move env_idle ["mnt"; "DCIM"; "sub"; "c.mp4"] w_camera = (r, w') ∧
    (move args_move = false →
       w_fs w' !! ["mnt"; "DCIM"; "sub"; "c.mp4"] = Some (File stat_july "ccc")) ∧
    (is_ok r = false →
       w_fs w' !! ["mnt"; "DCIM"; "sub"; "c.mp4"] = Some (File stat_july "ccc")) ∧
    (w_fs w' !! ["mnt"; "DCIM"; "sub"; "c.mp4"] = Some (File stat_july "ccc") ∨
     (move args_move = true ∧ is_ok r = true ∧
      w_fs w' !! ["mnt"; "DCIM"; "sub"; "c.mp4"] = None ∧
      w_fs w' !! dest_of env_idle ["mnt"; "DCIM"; "sub"; "c.mp4"] stat_july =
        Some (File stat_july "ccc"))).
Proof.
  assert (H1 : w_fs w_camera !! ["mnt"; "DCIM"; "sub"; "c.mp4"] =
               Some (File stat_july "ccc")) by (vm_compute; reflexivity).
  assert (H2 : path_isdir (w_fs w_camera)
                 (dest_of env_idle ["mnt"; "DCIM"; "sub"; "c.mp4"] stat_july) = false)
    by (vm_compute; reflexivity).
  split; [exact H1|]. split; [exact H2|].
  exact (source_removed_only_after_write args_move env_idle _ _ _ _ H1 H2).
Defined.

Lemma empty_candidate_set_is_success_witness :
  (prepare env_idle ["mnt"; "MISC"] w_camera).1 = Ok [] ∧
  ∃ w' evs,
    copy_or_move_files args_copy env_idle ["mnt"; "MISC"] w_camera =
      (Ok (mkOutcome true 0 0 0), w') ∧
    w_fs w' = scanned_fs env_idle ["mnt"; "MISC"] w_camera ∧
    w_events w' = w_events w_camera ++ evs ∧
    error_paths evs = [] ∧
    last evs = Some (Log INFO (MsgSuccess (move args_copy) 0 0)).
Proof.
  assert (H : (prepare env_idle ["mnt"; "MISC"] w_camera).1 = Ok [])
    by (vm_compute; reflexivity).
  split; [exact H|].
  exact (empty_candidate_set_is_success args_copy env_idle _ _ H).
Defined.



(** * What a run of the engine leaves alone *)

Lemma prefix_of_bucket (q : path) b :
  q `prefix_of` DEST_DIR ++ [b] → q `prefix_of` DEST_DIR ∨ DEST_DIR `prefix_of` q.
Proof.
  intros [k Hk]. destruct (decide (k = [])) as [->|Hne].
  - right. rewrite app_nil_r in Hk. rewrite <- Hk. by apply prefix_app_r.
  - left. destruct (exists_last Hne) as (k' & x & ->).
    rewrite app_assoc in Hk. apply app_inj_tail in Hk as [-> _]. by apply prefix_app_r.
Qed.

Section Frame.
Variable args : Args.
Variable env : Env.
Local Abbreviation new := (new_dir_stat env).
Local Abbreviation valid_mtime := (valid_mtime env).
Local Abbreviation dest_of := (dest_of env).
Local Abbreviation bucket_of := (bucket_of env).
Local Abbreviation run_inv := (run_inv args env).
Local Abbreviation scanned_fs := (scanned_fs env).

(** An entry that was there before the call is there after it, unless the
    run was a moving one and the entry was one of its candidates. *)
Lemma engine_keeps source_dir w q n :
  w_fs w !! q = Some n →
  w_fs (copy_or_move_files args env source_dir w).2 !! q = Some n ∨
  (move args = true ∧ q ∈ os_walk (scanned_fs source_dir w) source_dir).
Proof.
  intros Hq.
  destruct (engine_run args env source_dir w)
    as (o & w' & evs & Hrun & _ & _ & Hadd & H).
  rewrite Hrun. cbn [snd].
  assert (Hq1 : scanned_fs source_dir w !! q = Some n) by by eapply adds_dirs_keeps.
  destruct (prepare env source_dir w).1 as [files|e].
  - destruct H as (_ & _ & _ & _ & Hfiles & _ & Hinv).
    destruct (inv_old _ _ _ _ _ _ Hinv q n Hq1) as [|(Hm & Hin & _)]; [by left|].
    right. split; [done|]. rewrite Hfiles in Hin.
    by apply list_elem_of_In, filter_In in Hin as [Hin%list_elem_of_In _].
  - destruct H as (_ & -> & _). by left.
Qed.



(** An entry that is new after the call is a directory made on the way to
    a bucket, or the copy of a walked file at its destination. *)
Lemma engine_adds source_dir w q n :
  w_fs w !! q = None →
  w_fs (copy_or_move_files args env source_dir w).2 !! q = Some n →
  (n = Dir new ∧ ∃ b, q `prefix_of` DEST_DIR ++ [b]) ∨
  (∃ c st data,
     c ∈ os_walk (scanned_fs source_dir w) source_dir ∧
     scanned_fs source_dir w !! c = Some (File st data) ∧
     q = DEST_DIR ++ [strftime_mdY (_ord2ymd (local_ordinal (utc_offset env) (st_mtime st)));
                      basename c] ∧
     n = File st data).
Proof.
  intros Hq Hq'.
  destruct (engine_run args env source_dir w)
    as (o & w' & evs & Hrun & _ & _ & Hadd & H).
  rewrite Hrun in Hq'. cbn [snd] in Hq'.
  destruct (Hadd q) as [Hsame|(_ & Hdir & Hpre)].
  2:{ (* made on the way to the destination root *)
      assert (Hq1 : w_fs w' !! q = Some (Dir new)).
      { destruct (prepare env source_dir w).1 as [files|e].
        - destruct H as (_ & _ & _ & _ & _ & _ & Hinv).
          destruct (inv_old _ _ _ _ _ _ Hinv q _ Hdir)
            as [|(_ & _ & [?|[? _]])]; congruence.
        - destruct H as (_ & -> & _). done. }
      left. split; [congruence|]. exists "". etrans; [exact Hpre|].
      by apply prefix_app_r. }
  rewrite Hq in Hsame.
  destruct (prepare env source_dir w).1 as [files|e].
  - destruct H as (_ & _ & _ & _ & Hfiles & _ & Hinv).
    destruct (inv_new _ _ _ _ _ _ Hinv q Hsame)
      as [E|[[E Hb]|(c & st & data & Hc & Hcf & -> & E)]].
    + congruence.
    + left. split; [congruence|done].
    + right. exists c, st, data. split.
      { rewrite Hfiles in Hc.
        by apply list_elem_of_In, filter_In in Hc as [Hc%list_elem_of_In _]. }
      split; [done|]. split; [|congruence].
      unfold dest_of, bucket_of. by rewrite <- app_assoc.
  - destruct H as (_ & E & _). congruence.
Qed.



(** * Failures before the loop *)

(** Property X5.  A single walked file whose modification time cannot be converted to
    a calendar date makes the whole batch fail: the scan raises, nothing
    is transferred, and the outcome is (false, 0, 0, 0). *)
Theorem unconvertible_timestamp_fails_the_batch source_dir w p st data :
  p ∈ os_walk (scanned_fs source_dir w) source_dir →
  scanned_fs source_dir w !! p = Some (File st data) →
  valid_mtime st = false →
  ∃ w' e,
    copy_or_move_files args env source_dir w = (Ok (mkOutcome false 0 0 0), w') ∧
    w_fs w' = scanned_fs source_dir w ∧
    w_events w' = w_events w ++ [Log ERROR (MsgErrorBatch e)].
Proof.
  intros Hw Hp Hbad.
  destruct (engine_run args env source_dir w)
    as (o & w' & evs & Hrun & Hev & _ & _ & H).
  destruct (prepare env source_dir w).1 as [files|e].
  - destruct H as (_ & _ & _ & Hscan & _).
    rewrite forallb_forall in Hscan. specialize (Hscan p).
    unfold scannable in Hscan. rewrite Hp, Hbad in Hscan.
    discriminate Hscan. by apply list_elem_of_In.
  - destruct H as (-> & Hfs & ->). by exists w', e.
Qed.

(** * The counters and the log *)

(** Property X6.  The counters agree with the log.  The number of files processed
    never exceeds the number of candidates, the two are equal exactly when
    the run logged no per-file error, and the
    last record of the log is the summary of the run: the success line
    with the outcome's counters, or the batch error. *)
Theorem counters_agree_with_log source_dir w :
  ∃ o w' evs,
    copy_or_move_files args env source_dir w = (Ok o, w') ∧
    w_events w' = w_events w ++ evs ∧
    (processed_new_files o ≤ total_new_files o)%nat ∧
    (processed_new_files o = total_new_files o ↔ error_paths evs = []) ∧
    (success o = true →
       last evs = Some (Log INFO (MsgSuccess (move args) (processed_new_files o)
                                             (total_size_processed o)))) ∧
    (success o = false →
       ∃ e, (prepare env source_dir w).1 = Raise e ∧
            evs = [Log ERROR (MsgErrorBatch e)]).
Proof.
  rewrite copy_or_move_files_unfold.
  destruct (prepare env source_dir w) as [[files|e] w1] eqn:Hprep; cbn [fst].
  - pose proof (wp_run _ _ _ _ _ (prepare_spec env source_dir w) Hprep)
      as (fs1 & rm & -> & _ & _ & _ & Hfiles).
    destruct (candidates_of_scan env fs1 source_dir) as [Hnd Hok].
    rewrite <- Hfiles in Hnd, Hok.
    set (wa := announce args source_dir (length files) (with_fs fs1 w)).
    assert (Hfa : w_fs wa = fs1) by apply announce_fs.
    destruct (error_paths_announce args source_dir (length files) (with_fs fs1 w))
      as (ann & Hann & Hannerr). fold wa in Hann. cbn [w_events with_fs] in Hann.
    destruct (transfer_loop args env 0 (length files) files 0 0 wa)
      as [r w2] eqn:Hloop.
    assert (Hspec := transfer_loop_spec args env files wa Hnd).
    rewrite Hfa in Hspec. specialize (Hspec Hok).
    apply (wp_run _ _ _ _ _ Hspec) in Hloop as Hres.
    destruct Hres as (p & s & evs & -> & Hev & Hclk & Hcount & _).
    eexists _, _, (ann ++ evs ++ [Log INFO (MsgSuccess (move args) p s)]).
    split; [done|]. cbn [w_events w_clock w_fs add_event].
    split; [by rewrite Hev, Hann, <- !app_assoc|].
    cbn [success total_new_files processed_new_files total_size_processed].
    rewrite !error_paths_app, Hannerr. cbn [error_paths omap error_path app].
    rewrite app_nil_r. split; [lia|]. split.
    { rewrite <- length_zero_iff_nil. lia. }
    split; [|done]. intros _. by rewrite !app_assoc, last_snoc.
  - pose proof (wp_run _ _ _ _ _ (prepare_spec env source_dir w) Hprep)
      as (fs1 & rm & -> & _).
    eexists _, _, [_]. split; [done|]. cbn. split; [done|].
    split; [lia|]. split; [done|]. split; [done|]. intros _. by exists e.
Qed.

End Frame.

(** * What the file system after a call depends on *)

Create HintDb fs_sim discriminated.

Lemma fs_sim_ret {A} (a : A) : fs_sim (mret a) (mret a).
Proof. intros w1 w2 H. done. Qed.

Lemma fs_sim_raise {A} e : fs_sim (raise e : M A) (raise e).
Proof. intros w1 w2 H. done. Qed.

Lemma fs_sim_bind {A B} (m1 m2 : M A) (k1 k2 : A → M B) :
  fs_sim m1 m2 → (∀ a, fs_sim (k1 a) (k2 a)) → fs_sim (m1 ≫= k1) (m2 ≫= k2).
Proof.
  intros Hm Hk w1 w2 H. unfold mbind, M_bind, bind.
  destruct (Hm w1 w2 H) as [Hr Hf].
  destruct (m1 w1) as [[a1|e1] w1'], (m2 w2) as [[a2|e2] w2']; cbn in *;
    try discriminate Hr.
  - injection Hr as <-. by apply Hk.
  - injection Hr as <-. done.
Qed.

Lemma fs_sim_try {A} (m1 m2 : M A) (h1 h2 : exn → M A) :
  fs_sim m1 m2 → (∀ e, fs_sim (h1 e) (h2 e)) →
  fs_sim (try_except m1 h1) (try_except m2 h2).
Proof.
  intros Hm Hh w1 w2 H. unfold try_except.
  destruct (Hm w1 w2 H) as [Hr Hf].
  destruct (m1 w1) as [[a1|e1] w1'], (m2 w2) as [[a2|e2] w2']; cbn in *;
    try discriminate Hr.
  - injection Hr as <-. done.
  - injection Hr as <-. by apply Hh.
Qed.

Lemma fs_sim_get_fs : fs_sim get_fs get_fs.
Proof. intros w1 w2 H. cbn. by rewrite H. Qed.

Lemma fs_sim_fs_op f : fs_sim (fs_op f) (fs_op f).
Proof.
  intros w1 w2 H. unfold fs_op. rewrite H. by destruct (f (w_fs w2)).
Qed.

Lemma fs_sim_silent (m1 m2 : M unit) : fs_silent m1 → fs_silent m2 → fs_sim m1 m2.
Proof.
  intros H1 H2 w1 w2 H. destruct (H1 w1) as [-> ->], (H2 w2) as [-> ->]. done.
Qed.

Lemma fs_silent_ret : fs_silent (mret tt).
Proof. done. Qed.

Lemma fs_silent_emit ev : fs_silent (emit ev).
Proof. done. Qed.

Lemma fs_silent_bind (m : M unit) (k : unit → M unit) :
  fs_silent m → (∀ u, fs_silent (k u)) → fs_silent (m ≫= k).
Proof.
  intros Hm Hk w. unfold mbind, M_bind, bind. destruct (Hm w) as [Hr Hf].
  destruct (m w) as [[[]|e] w']; cbn in *; [|done].
  destruct (Hk tt w') as [-> ->]. done.
Qed.

Lemma fs_silent_logger_debug args m : fs_silent (logger_debug args m).
Proof. unfold logger_debug. by destruct (verbose args). Qed.

Lemma fs_silent_logger_info m : fs_silent (logger_info m).
Proof. done. Qed.

Lemma fs_silent_logger_error m : fs_silent (logger_error m).
Proof. done. Qed.

Lemma fs_silent_logger_warning m : fs_silent (logger_warning m).
Proof. done. Qed.

Lemma fs_silent_verbose_info args m : fs_silent (verbose_info args m).
Proof. unfold verbose_info. by destruct (verbose args). Qed.

Lemma fs_silent_verbose_debug args m : fs_silent (verbose_debug args m).
Proof.
  unfold verbose_debug, logger_debug. by destruct (verbose args).
Qed.

#[export] Hint Resolve fs_sim_ret fs_sim_raise fs_sim_get_fs fs_sim_fs_op
  fs_silent_ret fs_silent_emit fs_silent_logger_debug fs_silent_logger_info
  fs_silent_logger_error fs_silent_logger_warning fs_silent_verbose_info
  fs_silent_verbose_debug : fs_sim.

(** One structural step: split a bind or a handler, or close the goal with
    one of the facts about the primitives. *)
Ltac fs_sim_step :=
  lazymatch goal with
  | |- fs_sim (_ ≫= _) (_ ≫= _) => apply fs_sim_bind; [|intros ?]
  | |- fs_sim (try_except _ _) (try_except _ _) => apply fs_sim_try; [|intros ?]
  | |- fs_sim (if ?b then _ else _) (if ?b then _ else _) => destruct b
  | |- fs_sim (match ?x with _ => _ end) (match ?x with _ => _ end) => destruct x
  | |- fs_sim _ _ => first [ solve [auto with fs_sim]
                           | apply fs_sim_silent; solve [auto with fs_sim] ]
  end.

Section SameFileSystem.
Variable env : Env.

Lemma fs_sim_makedirs_rev rname : fs_sim (makedirs_rev env rname) (makedirs_rev env rname).
Proof.
  induction rname as [|x rhead IH]; cbn [makedirs_rev]; unfold os_mkdir.
  - repeat fs_sim_step.
  - repeat first [ exact IH | fs_sim_step ].
Qed.

Lemma fs_sim_os_makedirs name : fs_sim (os_makedirs env name) (os_makedirs env name).
Proof. apply fs_sim_makedirs_rev. Qed.

Lemma fs_sim_scan_file p acc : fs_sim (scan_file env p acc) (scan_file env p acc).
Proof.
  unfold scan_file, os_path_getmtime, datetime_fromtimestamp. repeat fs_sim_step.
Qed.

Lemma fs_sim_scan_loop l : ∀ acc, fs_sim (scan_loop env l acc) (scan_loop env l acc).
Proof.
  induction l as [|p l IH]; intros acc; cbn [scan_loop].
  - repeat fs_sim_step.
  - apply fs_sim_bind; [apply fs_sim_scan_file|]. intros files. apply IH.
Qed.

Lemma fs_sim_prepare source_dir : fs_sim (prepare env source_dir) (prepare env source_dir).
Proof.
  unfold prepare. apply fs_sim_bind; [apply fs_sim_os_makedirs|]. intros [].
  apply fs_sim_bind; [apply fs_sim_get_fs|]. intros fs. apply fs_sim_scan_loop.
Qed.

Lemma fs_sim_shutil_copy2 src dst : fs_sim (shutil_copy2 src dst) (shutil_copy2 src dst).
Proof. unfold shutil_copy2. repeat fs_sim_step. Qed.

Lemma fs_sim_shutil_move src dst : fs_sim (shutil_move env src dst) (shutil_move env src dst).
Proof.
  unfold shutil_move, os_rename, os_unlink.
  repeat first [ apply fs_sim_shutil_copy2 | fs_sim_step ].
Qed.

Section TwoRuns.
Variables args1 args2 : Args.
Hypothesis same_mode : move args1 = move args2.

Lemma fs_sim_transfer_file c :
  fs_sim (transfer_file args1 env c) (transfer_file args2 env c).
Proof.
  unfold transfer_file, os_path_getmtime, os_path_getsize, datetime_fromtimestamp.
  rewrite same_mode.
  repeat first [ apply fs_sim_os_makedirs | apply fs_sim_shutil_move
               | apply fs_sim_shutil_copy2 | fs_sim_step ].
Qed.

Lemma fs_sim_transfer_one i total c p s :
  fs_sim (transfer_one args1 env i total c p s) (transfer_one args2 env i total c p s).
Proof.
  unfold transfer_one.
  repeat first [ apply fs_sim_transfer_file | fs_sim_step ].
Qed.

Lemma fs_sim_transfer_loop files : ∀ i total p s,
  fs_sim (transfer_loop args1 env i total files p s)
         (transfer_loop args2 env i total files p s).
Proof.
  induction files as [|c files IH]; intros i total p s; cbn [transfer_loop].
  - repeat fs_sim_step.
  - apply fs_sim_bind; [apply fs_sim_transfer_one|]. intros [p' s']. apply IH.
Qed.

Lemma fs_sim_copy_or_move_files source_dir :
  fs_sim (copy_or_move_files args1 env source_dir)
         (copy_or_move_files args2 env source_dir).
Proof.
  unfold copy_or_move_files. rewrite same_mode.
  apply fs_sim_try; [|intros e; repeat fs_sim_step].
  apply fs_sim_bind; [apply fs_sim_os_makedirs|]. intros [].
  apply fs_sim_bind; [apply fs_sim_get_fs|]. intros fs.
  apply fs_sim_bind; [apply fs_sim_scan_loop|]. intros files.
  apply fs_sim_bind.
  { apply fs_sim_silent.
    - destruct (verbose args1); [|done]. done.
    - destruct (verbose args2); [|done]. done. }
  intros [].
  apply fs_sim_bind; [repeat fs_sim_step|]. intros [].
  apply fs_sim_bind; [apply fs_sim_transfer_loop|]. intros [p s].
  repeat fs_sim_step.
Qed.

End TwoRuns.


End SameFileSystem.

(** * What a call appends to the log *)

Lemma emits_nothing {A} P (m : M A) :
  (∀ w, w_events (m w).2 = w_events w) → emits P m.
Proof. intros H w. exists []. by rewrite app_nil_r. Qed.

Lemma emits_ret {A} P (a : A) : emits P (mret a).
Proof. by apply emits_nothing. Qed.

Lemma emits_raise {A} P e : emits P (raise e : M A).
Proof. by apply emits_nothing. Qed.

Lemma emits_get_fs P : emits P get_fs.
Proof. by apply emits_nothing. Qed.

Lemma emits_get_clock P : emits P get_clock.
Proof. by apply emits_nothing. Qed.

Lemma emits_advance_clock P d : emits P (advance_clock d).
Proof. by apply emits_nothing. Qed.

Lemma emits_fs_op P f : emits P (fs_op f).
Proof.
  apply emits_nothing. intros w. unfold fs_op. by destruct (f (w_fs w)).
Qed.

Lemma emits_emit (P : event → bool) ev : P ev = true → emits P (emit ev).
Proof. intros H w. exists [ev]. cbn. by rewrite H. Qed.

Lemma emits_bind {A B} P (m : M A) (k : A → M B) :
  emits P m → (∀ a, emits P (k a)) → emits P (m ≫= k).
Proof.
  intros Hm Hk w. unfold mbind, M_bind, bind. destruct (Hm w) as (evs1 & E1 & F1).
  destruct (m w) as [[a|e] w1]; cbn [snd] in *.
  - destruct (Hk a w1) as (evs2 & E2 & F2). exists (evs1 ++ evs2).
    rewrite E2, E1, app_assoc, forallb_app, F1, F2. done.
  - by exists evs1.
Qed.

Lemma emits_try {A} P (m : M A) (h : exn → M A) :
  emits P m → (∀ e, emits P (h e)) → emits P (try_except m h).
Proof.
  intros Hm Hh w. unfold try_except. destruct (Hm w) as (evs1 & E1 & F1).
  destruct (m w) as [[a|e] w1]; cbn [snd] in *.
  - by exists evs1.
  - destruct (Hh e w1) as (evs2 & E2 & F2). exists (evs1 ++ evs2).
    rewrite E2, E1, app_assoc, forallb_app, F1, F2. done.
Qed.

(** One structural step of a proof of [emits]. *)
Ltac emits_step :=
  lazymatch goal with
  | |- emits _ (_ ≫= _) => apply emits_bind; [|intros ?]
  | |- emits _ (try_except _ _) => apply emits_try; [|intros ?]
  | |- emits _ (mret _) => apply emits_ret
  | |- emits _ (raise _) => apply emits_raise
  | |- emits _ get_fs => apply emits_get_fs
  | |- emits _ get_clock => apply emits_get_clock
  | |- emits _ (advance_clock _) => apply emits_advance_clock
  | |- emits _ (fs_op _) => apply emits_fs_op
  | |- emits _ (emit _) => apply emits_emit; reflexivity
  | |- emits _ (if ?b then _ else _) => destruct b eqn:?
  | |- emits _ (match ?x with _ => _ end) => destruct x eqn:?
  end.

Section Emits.
Variable args : Args.
Variable env : Env.
Variable P : event → bool.

(** The standard-library calls log nothing. *)
Lemma emits_makedirs_rev rname : emits P (makedirs_rev env rname).
Proof.
  induction rname as [|x rhead IH]; cbn [makedirs_rev]; unfold os_mkdir.
  - repeat emits_step.
  - repeat first [ exact IH | emits_step ].
Qed.

Lemma emits_shutil_copy2 src dst : emits P (shutil_copy2 src dst).
Proof. unfold shutil_copy2. repeat emits_step. Qed.

Lemma emits_shutil_move src dst : emits P (shutil_move env src dst).
Proof.
  unfold shutil_move, os_rename, os_unlink.
  repeat first [ apply emits_shutil_copy2 | emits_step ].
Qed.

Lemma emits_scan_loop l : ∀ acc, emits P (scan_loop env l acc).
Proof.
  induction l as [|p l IH]; intros acc; cbn [scan_loop].
  - apply emits_ret.
  - apply emits_bind; [|intros ?; apply IH].
    unfold scan_file, os_path_getmtime, datetime_fromtimestamp. repeat emits_step.
Qed.

Lemma emits_probe {A} (reply : Z → A) : emits P (probe env reply).
Proof. unfold probe. repeat emits_step. Qed.

Lemma emits_time_sleep secs : emits P (time_sleep env secs).
Proof. unfold time_sleep. repeat emits_step. Qed.

Lemma emits_os_listdir p : emits P (os_listdir p).
Proof. unfold os_listdir. repeat emits_step. Qed.

End Emits.

Ltac emit_ok :=
  apply emits_emit;
  cbn [may_emit verbose_only engine_event engine_message negb orb andb];
  repeat match goal with H : _ = _ |- _ => rewrite H end;
  try reflexivity.

Section MayEmit.
Variable args : Args.
Variable env : Env.
Local Abbreviation P := (may_emit args env).
Local Abbreviation PE := (λ ev, engine_event ev && may_emit args env ev).

Lemma emits_logger_debug m : emits P (logger_debug args m).
Proof.
  unfold logger_debug. destruct (verbose args) eqn:Hv; [|apply emits_ret]. emit_ok.
Qed.

Lemma emits_verbose_info m : emits P (verbose_info args m).
Proof.
  unfold verbose_info, logger_info. destruct (verbose args) eqn:Hv; [|apply emits_ret].
  emit_ok. apply orb_true_r.
Qed.

Lemma emits_verbose_debug m : emits P (verbose_debug args m).
Proof.
  unfold verbose_debug. destruct (verbose args) eqn:Hv; [|apply emits_ret].
  apply emits_logger_debug.
Qed.

Lemma emits_weaken {A} (Q R : event → bool) (m : M A) :
  (∀ ev, Q ev = true → R ev = true) → emits Q m → emits R m.
Proof.
  intros H Hm w. destruct (Hm w) as (evs & E & F). exists evs. split; [done|].
  rewrite forallb_forall in *. auto.
Qed.

Lemma emits_transfer_loop files : ∀ i total p s,
  emits PE (transfer_loop args env i total files p s).
Proof.
  induction files as [|c files IH]; intros i total p s; cbn [transfer_loop].
  - apply emits_ret.
  - apply emits_bind; [|intros [p' s']; apply IH].
    unfold transfer_one, transfer_file, os_path_getmtime, os_path_getsize,
      datetime_fromtimestamp, os_makedirs, logger_info, logger_error, logger_debug.
    repeat first [ apply emits_makedirs_rev | apply emits_shutil_move
                 | apply emits_shutil_copy2 | emit_ok | emits_step ].
Qed.

Lemma emits_engine source_dir :
  emits PE (copy_or_move_files args env source_dir).
Proof.
  unfold copy_or_move_files, os_makedirs, logger_info, logger_error.
  apply emits_try; [|intros e; apply emits_bind; [emit_ok|intros ?; apply emits_ret]].
  apply emits_bind; [apply emits_makedirs_rev|]. intros [].
  apply emits_bind; [apply emits_get_fs|]. intros fs.
  apply emits_bind; [apply emits_scan_loop|]. intros files.
  apply emits_bind.
  { destruct (verbose args) eqn:Hv; [|apply emits_ret].
    apply emits_bind; [apply emits_get_fs|]. intros fs'. emit_ok. }
  intros []. apply emits_bind; [emit_ok|]. intros [].
  apply emits_bind; [apply emits_transfer_loop|]. intros [p s].
  apply emits_bind; [emit_ok|]. intros [].
  apply emits_ret.
Qed.

Lemma emits_copy_or_move_files source_dir :
  emits P (copy_or_move_files args env source_dir).
Proof.
  eapply emits_weaken; [|apply emits_engine]. by intros ev [_ ?]%andb_true_iff.
Qed.

Lemma emits_send_desktop_notification summary body icon :
  no_notify args = false →
  emits P (send_desktop_notification args env summary body icon).
Proof.
  intros Hn. unfold send_desktop_notification, logger_warning.
  destruct (notifier_ok env) eqn:Hok.
  - apply emits_bind; [emit_ok|]. intros [].
    apply emits_bind; [apply emits_logger_debug|]. intros []. apply emits_ret.
  - apply emits_bind; [emit_ok|]. intros []. apply emits_ret.
Qed.

Lemma emits_notify summary body icon :
  emits P (if negb (no_notify args)
           then send_desktop_notification args env summary body icon;; mret tt
           else mret tt).
Proof.
  destruct (no_notify args) eqn:Hn; cbn [negb]; [apply emits_ret|].
  apply emits_bind; [by apply emits_send_desktop_notification|]. intros ?.
  apply emits_ret.
Qed.

Lemma emits_play_success_sound : emits P (play_success_sound args env).
Proof.
  unfold play_success_sound, logger_warning.
  apply emits_bind; [apply emits_get_fs|]. intros fs.
  destruct (path_exists fs (sound args)); [|emit_ok].
  destruct (audio_player env) as [player|] eqn:Hp; [|emit_ok].
  apply emits_bind; [|intros []; apply emits_logger_debug].
  apply emits_emit. cbn [may_emit]. by rewrite !bool_decide_eq_true_2.
Qed.

Lemma emits_process_mount gopro_mount : emits P (process_mount args env gopro_mount).
Proof.
  unfold process_mount, logger_info, logger_error.
  apply emits_bind; [apply emits_get_fs|]. intros fs.
  destruct (_ && _).
  - apply emits_bind; [apply emits_verbose_info|]. intros [].
    apply emits_try.
    + apply emits_bind; [apply emits_os_listdir|]. intros contents.
      apply emits_bind; [apply emits_verbose_info|]. intros [].
      apply emits_bind.
      { destruct (bool_decide _); (apply emits_bind; [apply emits_verbose_info|]);
          intros []; apply emits_ret. }
      intros source_to_process.
      apply emits_bind; [apply emits_copy_or_move_files|]. intros r.
      destruct (success r).
      * apply emits_bind; [apply emits_play_success_sound|]. intros [].
        apply emits_bind; [apply emits_notify|]. intros [].
        apply emits_bind; [emit_ok|]. intros []. apply emits_ret.
      * apply emits_bind; [apply emits_notify|]. intros [].
        apply emits_bind; [emit_ok|]. intros []. apply emits_ret.
    + intros e. apply emits_bind; [apply emits_notify|]. intros [].
      apply emits_bind; [emit_ok|]. intros []. apply emits_ret.
  - apply emits_bind; [apply emits_notify|]. intros [].
    apply emits_bind; [emit_ok|]. intros []. apply emits_ret.
Qed.

Lemma emits_poll_once : emits P (poll_once args env).
Proof.
  unfold poll_once, check_mtp_connection, is_gopro_connected,
    find_gopro_mount_point, try_access_gopro_mtp, get_device_info.
  repeat first [ apply emits_probe | apply emits_time_sleep
               | apply emits_verbose_info | apply emits_verbose_debug
               | apply emits_process_mount | emits_step ].
Qed.

Lemma emits_poll_loop turns : ∀ timeout, emits P (poll_loop args env turns timeout).
Proof.
  induction turns as [|turns IH]; intros timeout; cbn [poll_loop].
  - apply emits_ret.
  - unfold time_time, logger_info.
    apply emits_bind; [apply emits_get_clock|]. intros now.
    destruct (now <? timeout).
    + apply emits_bind; [apply emits_poll_once|]. intros [code|];
        [apply emits_ret|apply IH].
    + apply emits_bind; [emit_ok|]. intros []. apply emits_ret.
Qed.

Lemma emits_main turns : emits P (main args env turns).
Proof.
  unfold main, logger_info, time_time.
  apply emits_bind; [emit_ok|]. intros [].
  apply emits_bind; [emit_ok|]. intros [].
  apply emits_bind; [emit_ok|]. intros [].
  apply emits_bind; [apply emits_get_clock|]. intros now.
  apply emits_poll_loop.
Qed.

Lemma forallb_weaken (Q R : event → bool) evs :
  (∀ ev, Q ev = true → R ev = true) → forallb Q evs = true → forallb R evs = true.
Proof. rewrite !forallb_forall. auto. Qed.

(** Property X9.  With [--no-notify] a run of the program never sends a desktop
    notification, whatever happens. *)
Theorem no_notify_sends_no_notification turns w :
  no_notify args = true →
  ∃ evs, w_events (main args env turns w).2 = w_events w ++ evs ∧
         forallb (λ ev, negb (is_notification ev)) evs = true.
Proof.
  intros Hn. destruct (emits_main turns w) as (evs & Hev & Hall).
  exists evs. split; [done|]. revert Hall. apply forallb_weaken.
  intros [lvl m|s b i|p f]; cbn; [done| |done]. by rewrite Hn.
Qed.

(** Property X10.  Without [--verbose] a run of the program writes no DEBUG record and
    none of the INFO records that stand behind [if args.verbose]. *)
Theorem quiet_run_logs_no_verbose_record turns w :
  verbose args = false →
  ∃ evs, w_events (main args env turns w).2 = w_events w ++ evs ∧
         forallb (λ ev, negb (verbose_only ev)) evs = true.
Proof.
  intros Hv. destruct (emits_main turns w) as (evs & Hev & Hall).
  exists evs. split; [done|]. revert Hall. apply forallb_weaken.
  intros [lvl m|s b i|p f]; cbn [may_emit]; [|done|done].
  rewrite Hv, orb_false_r. done.
Qed.

(** Property X8.  The engine only writes log records: it never sends a notification
    and never plays a sound; the log it is given is kept, in order. *)
Theorem engine_only_logs source_dir w :
  ∃ evs, w_events (copy_or_move_files args env source_dir w).2 = w_events w ++ evs ∧
         forallb engine_event evs = true.
Proof.
  destruct (emits_engine source_dir w) as (evs & Hev & Hall).
  exists evs. split; [done|]. revert Hall. apply forallb_weaken.
  by intros ev [? _]%andb_true_iff.
Qed.

End MayEmit.

(** * A mount was found: lines 358-428 *)

Arguments listing : simpl never.

Section Mount.
Variable args : Args.
Variable env : Env.

Local Abbreviation verbose_records := (verbose_records args).

Local Abbreviation notify_events := (notify_events args env).

Local Abbreviation sound_events := (sound_events args env).

Local Abbreviation mount_world := (mount_world args).

End Mount.

Lemma w_events_add_events evs : ∀ w, w_events (add_events evs w) = w_events w ++ evs.
Proof.
  induction evs as [|ev evs IH]; intros w; cbn.
  - by rewrite app_nil_r.
  - unfold add_events in IH. rewrite IH. cbn. by rewrite <- app_assoc.
Qed.

Lemma w_fs_add_events evs : ∀ w, w_fs (add_events evs w) = w_fs w.
Proof.
  induction evs as [|ev evs IH]; intros w; cbn; [done|].
  unfold add_events in IH. by rewrite IH.
Qed.

Lemma w_clock_add_events evs : ∀ w, w_clock (add_events evs w) = w_clock w.
Proof.
  induction evs as [|ev evs IH]; intros w; cbn; [done|].
  unfold add_events in IH. by rewrite IH.
Qed.

Lemma add_events_app evs1 evs2 w :
  add_events (evs1 ++ evs2) w = add_events evs2 (add_events evs1 w).
Proof. unfold add_events. apply fold_left_app. Qed.

Section MountRun.
Variable args : Args.
Variable env : Env.
Local Abbreviation notify_events := (notify_events args env).
Local Abbreviation sound_events := (sound_events args env).
Local Abbreviation verbose_records := (verbose_records args).
Local Abbreviation mount_world := (mount_world args).

(** [process_mount], in closed form. *)
Lemma process_mount_run gopro_mount w :
  process_mount args env gopro_mount w =
  if os_access_R_OK (w_fs w) gopro_mount then
    if path_isdir (w_fs w) gopro_mount then
      match copy_or_move_files args env (mount_source (w_fs w) gopro_mount)
                               (mount_world gopro_mount w) with
      | (Ok r, wE) =>
          if success r then
            (Ok 0,
             add_events
               (sound_events (w_fs wE) ++
                notify_events "Status: Successful"
                  (NoticeProgress (processed_new_files r) (total_new_files r)
                                  (move args) (total_size_processed r))
                  "camera-photo" ++
                [Log INFO MsgCompleted]) wE)
          else
            (Ok 1,
             add_events
               (notify_events "Status: Failed" NoticeTransferError "dialog-error" ++
                [Log ERROR MsgFailedToProcess]) wE)
      | (Raise e, wE) =>
          (Ok 1,
           add_events
             (notify_events "Status: Failed" (NoticeListingError e) "dialog-error" ++
              [Log ERROR (MsgErrorListing e)]) wE)
      end
    else
      (Ok 1,
       add_events
         (verbose_records [MsgAccessible gopro_mount] ++
          notify_events "Status: Failed" (NoticeListingError NotADirectoryError)
                        "dialog-error" ++
          [Log ERROR (MsgErrorListing NotADirectoryError)]) w)
  else
    (Ok 1,
     add_events
       (notify_events "Status: Failed" (NoticeNotAccessible gopro_mount)
                      "dialog-error" ++
        [Log ERROR (MsgNotAccessible gopro_mount)]) w).
Proof.
  unfold process_mount. generalize (copy_or_move_files args env). intros engine.
  unfold mount_world, mount_source, verbose_records, notify_events, sound_events.
  fold (listing (w_fs w) gopro_mount).
  unfold os_listdir, play_success_sound, send_desktop_notification, verbose_info,
    logger_info, logger_error, logger_warning, logger_debug, os_access_R_OK,
    path_isdir, path_exists, mbind, M_bind, bind, try_except, mret, M_ret, ret,
    raise, get_fs, emit.
  fold (listing (w_fs w) gopro_mount).
  destruct (verbose args), (no_notify args), (notifier_ok env),
    (audio_player env) as [player|]; cbn;
    destruct (w_fs w !! gopro_mount) as [[st data|st]|] eqn:E; cbn;
    try destruct (st_read st) eqn:Er; cbn; rewrite ?E; cbn; rewrite ?Er; cbn;
    try reflexivity; fold (listing (w_fs w) gopro_mount);
    destruct (bool_decide ("DCIM" ∈ listing (w_fs w) gopro_mount)); cbn;
    match goal with |- context [engine ?s ?w1] => destruct (engine s w1) as [[r|e] wE] end;
    cbn; try reflexivity;
    destruct (success r); cbn; try reflexivity;
    destruct (w_fs wE !! sound args); reflexivity.
Qed.

Lemma listing_spec fs p name :
  name ∈ listing fs p ↔ path_exists fs (p ++ [name]) = true.
Proof.
  unfold listing, path_exists. rewrite list_elem_of_fmap. split.
  - intros (q & -> & Hq). apply list_elem_of_In, filter_In in Hq as [Hq Hf].
    apply andb_true_iff in Hf as [Hne Hd].
    apply negb_true_iff, bool_decide_eq_false in Hne.
    apply bool_decide_eq_true in Hd. subst p.
    unfold dirname, basename. rewrite <- (app_removelast_last "" Hne).
    apply list_elem_of_In, list_elem_of_fmap in Hq as ([q' n] & -> & Hq).
    apply elem_of_map_to_list in Hq. cbn. by rewrite Hq.
  - intros H. exists (p ++ [name]). split; [symmetry; apply basename_snoc|].
    apply list_elem_of_In, filter_In. split.
    + destruct (fs !! (p ++ [name])) as [n|] eqn:E; [|done].
      apply list_elem_of_In, list_elem_of_fmap. exists (p ++ [name], n).
      split; [reflexivity|]. by apply elem_of_map_to_list.
    + rewrite dirname_snoc, (bool_decide_eq_true_2 (p = p)) by done.
      rewrite bool_decide_eq_false_2; [done|]. by destruct p.
Qed.

(** Lines 369-376 by what is in the mount: an entry called DCIM, of
    whatever kind, makes [DCIM] the source. *)
Lemma mount_source_spec fs gopro_mount :
  mount_source fs gopro_mount =
  if path_exists fs (gopro_mount ++ ["DCIM"]) then gopro_mount ++ ["DCIM"]
  else gopro_mount.
Proof.
  unfold mount_source. case_bool_decide as H.
  - apply listing_spec in H. by rewrite H.
  - destruct (path_exists fs (gopro_mount ++ ["DCIM"])) eqn:E; [|done].
    by apply listing_spec in E.
Qed.

Lemma engine_events_filter evs :
  forallb engine_event evs = true →
  List.filter is_notification evs = [] ∧ List.filter is_sound evs = [].
Proof.
  induction evs as [|ev evs IH]; [done|]. cbn [forallb].
  intros [Hev Hall]%andb_true_iff. destruct (IH Hall) as [IH1 IH2].
  destruct ev; cbn in *; done.
Qed.

Local Abbreviation refusal := (refusal args env).

Local Abbreviation epilogue := (epilogue args env).

Lemma process_mount_cases gopro_mount w :
  ∃ code w' evs,
    process_mount args env gopro_mount w = (Ok code, w') ∧
    w_events w' = w_events w ++ evs ∧
    w_clock w' = w_clock w ∧
    if os_access_R_OK (w_fs w) gopro_mount && path_isdir (w_fs w) gopro_mount then
      ∃ o pre evsE,
        (copy_or_move_files args env (mount_source (w_fs w) gopro_mount) w).1 = Ok o ∧
        w_fs w' = w_fs (copy_or_move_files args env
                          (mount_source (w_fs w) gopro_mount) w).2 ∧
        code = (if success o then 0 else 1) ∧
        forallb verbose_only pre = true ∧
        forallb engine_event evsE = true ∧
        evs = pre ++ evsE ++ epilogue o (w_fs w')
    else
      code = 1 ∧ w_fs w' = w_fs w ∧ evs = refusal gopro_mount (w_fs w).
Proof.
  rewrite process_mount_run. unfold refusal.
  destruct (os_access_R_OK (w_fs w) gopro_mount) eqn:Ha; cbn [andb].
  2:{ eexists _, _, _. split; [done|].
      rewrite w_events_add_events, w_clock_add_events, w_fs_add_events. done. }
  destruct (path_isdir (w_fs w) gopro_mount) eqn:Hd.
  2:{ eexists _, _, _. split; [done|].
      rewrite w_events_add_events, w_clock_add_events, w_fs_add_events. done. }
  set (src := mount_source (w_fs w) gopro_mount).
  set (w1 := mount_world gopro_mount w).
  assert (Hfs1 : w_fs w1 = w_fs w) by apply w_fs_add_events.
  destruct (engine_run args env src w1) as (o & wE & evs0 & Hrun & _ & Hclk & _).
  destruct (emits_engine args env src w1) as (evsE & HevE & HallE).
  destruct (fs_sim_copy_or_move_files env args args eq_refl src w1 w Hfs1) as [Hr Hf].
  rewrite Hrun in *. cbn [fst snd] in *.
  assert (HE : forallb engine_event evsE = true).
  { revert HallE. apply forallb_weaken. by intros ev [? _]%andb_true_iff. }
  assert (Hpre : ∃ pre, w_events w1 = w_events w ++ pre ∧ forallb verbose_only pre = true).
  { eexists. split; [apply w_events_add_events|].
    unfold verbose_records. destruct (verbose args); [|done].
    cbn. by destruct (bool_decide _). }
  destruct Hpre as (pre & Hpre & Hvo).
  assert (Hclk1 : w_clock w1 = w_clock w) by apply w_clock_add_events.
  destruct (success o) eqn:Hs.
  - eexists _, _, _. split; [done|].
    rewrite w_events_add_events, w_clock_add_events, w_fs_add_events.
    split; [by rewrite HevE, Hpre, <- !app_assoc|]. split; [congruence|].
    exists o, pre, evsE. unfold epilogue. rewrite Hs. done.
  - eexists _, _, _. split; [done|].
    rewrite w_events_add_events, w_clock_add_events, w_fs_add_events.
    split; [by rewrite HevE, Hpre, <- !app_assoc|]. split; [congruence|].
    exists o, pre, evsE. unfold epilogue. rewrite Hs. done.
Qed.

(** Property X11.  The exit code after a mount was found.  The call never raises; the
    code is 0 or 1; it is 0 exactly when the mount is a directory the
    process may read and the engine, run on [DCIM] below the mount if
    the mount has an entry of that name and on the mount itself
    otherwise, reports success. *)
Theorem mount_exit_code gopro_mount w :
  ∃ code w',
    process_mount args env gopro_mount w = (Ok code, w') ∧
    (code = 0 ∨ code = 1) ∧
    (code = 0 ↔
     os_access_R_OK (w_fs w) gopro_mount = true ∧
     path_isdir (w_fs w) gopro_mount = true ∧
     ∃ o, (copy_or_move_files args env
             (if path_exists (w_fs w) (gopro_mount ++ ["DCIM"])
              then gopro_mount ++ ["DCIM"] else gopro_mount) w).1 = Ok o ∧
          success o = true).
Proof.
  destruct (process_mount_cases gopro_mount w) as (code & w' & evs & Hrun & _ & _ & H).
  exists code, w'. split; [done|].
  rewrite <- mount_source_spec.
  destruct (os_access_R_OK (w_fs w) gopro_mount), (path_isdir (w_fs w) gopro_mount);
    cbn [andb] in H.
  - destruct H as (o & pre & evsE & Ho & _ & -> & _).
    split; [destruct (success o); auto|]. split.
    + intros Hc. split; [done|]. split; [done|]. exists o. split; [done|].
      by destruct (success o).
    + intros (_ & _ & o' & Ho' & Hs). rewrite Ho in Ho'. injection Ho' as <-.
      by rewrite Hs.
  - destruct H as (-> & _). split; [by right|]. split; [done|]. by intros (_ & ? & _).
  - destruct H as (-> & _). split; [by right|]. split; [done|]. by intros (? & _).
  - destruct H as (-> & _). split; [by right|]. split; [done|]. by intros (? & _).
Qed.


Lemma filter_notification_verbose_only evs :
  forallb verbose_only evs = true →
  List.filter is_notification evs = [] ∧ List.filter is_sound evs = [].
Proof.
  induction evs as [|ev evs IH]; [done|]. cbn [forallb].
  intros [Hev Hall]%andb_true_iff. destruct (IH Hall) as [IH1 IH2].
  destruct ev; cbn in *; done.
Qed.

(** Property X13.  Unless notifications are disabled, and provided the notification
    daemon takes them, handling a mount sends exactly one notification.
    Its summary and icon go with the exit code, and after a successful
    run its body carries the three counters of the engine's outcome. *)
Theorem mount_sends_one_notification gopro_mount w :
  no_notify args = false →
  notifier_ok env = true →
  ∃ code w' evs body,
    process_mount args env gopro_mount w = (Ok code, w') ∧
    w_events w' = w_events w ++ evs ∧
    List.filter is_notification evs =
      [Notification (if code =? 0 then "Status: Successful" else "Status: Failed")
                    body
                    (if code =? 0 then "camera-photo" else "dialog-error")] ∧
    (code = 0 →
     ∃ o, (copy_or_move_files args env
             (if path_exists (w_fs w) (gopro_mount ++ ["DCIM"])
              then gopro_mount ++ ["DCIM"] else gopro_mount) w).1 = Ok o ∧
          body = NoticeProgress (processed_new_files o) (total_new_files o)
                                (move args) (total_size_processed o)).
Proof.
  intros Hn Hok.
  destruct (process_mount_cases gopro_mount w) as (code & w' & evs & Hrun & Hev & _ & H).
  rewrite <- mount_source_spec.
  assert (Hnote : ∀ s b i, List.filter is_notification (notify_events s b i)
                           = [Notification s b i]).
  { intros s b i. unfold notify_events. rewrite Hn, Hok. by destruct (verbose args). }
  assert (Hsound : ∀ fs, List.filter is_notification (sound_events fs) = []).
  { intros fs. unfold sound_events. destruct (path_exists _ _); [|done].
    destruct (audio_player env); [|done]. by destruct (verbose args). }
  destruct (_ && _).
  - destruct H as (o & pre & evsE & Ho & _ & -> & Hpre & HE & ->).
    apply filter_notification_verbose_only in Hpre as [Hpre _].
    apply engine_events_filter in HE as [HE _].
    destruct (success o) eqn:Hs.
    + eexists 0, w', _, _. split; [done|]. split; [done|].
      unfold epilogue. rewrite Hs.
      rewrite !List.filter_app, Hpre, HE, Hsound, Hnote. cbn [Z.eqb app].
      split; [done|]. intros _. by exists o.
    + eexists 1, w', _, _. split; [done|]. split; [done|].
      unfold epilogue. rewrite Hs.
      rewrite !List.filter_app, Hpre, HE, Hnote. done.
  - destruct H as (-> & _ & ->). revert Hev. unfold refusal.
    destruct (os_access_R_OK (w_fs w) gopro_mount); intros Hev.
    + eexists 1, w', _, _. split; [done|]. split; [done|].
      rewrite !List.filter_app, Hnote. unfold verbose_records.
      split; [by destruct (verbose args)|done].
    + eexists 1, w', _, _. split; [done|]. split; [done|].
      rewrite !List.filter_app, Hnote. done.
Qed.

(** Property X14.  The success sound is played at most once, only on the way to exit
    code 0, only when the sound file exists after the transfer and one of
    the players can be run. *)
Theorem sound_only_after_success gopro_mount w :
  ∃ code w' evs,
    process_mount args env gopro_mount w = (Ok code, w') ∧
    w_events w' = w_events w ++ evs ∧
    List.filter is_sound evs =
      if (code =? 0) && path_exists (w_fs w') (sound args) then
        match audio_player env with
        | Some player => [Sound player (sound args)]
        | None => []
        end
      else [].
Proof.
  destruct (process_mount_cases gopro_mount w) as (code & w' & evs & Hrun & Hev & _ & H).
  exists code, w', evs. split; [done|]. split; [done|].
  assert (Hnote : ∀ s b i, List.filter is_sound (notify_events s b i) = []).
  { intros s b i. unfold notify_events. destruct (no_notify args); [done|].
    destruct (notifier_ok env); [|done]. by destruct (verbose args). }
  destruct (_ && _).
  - destruct H as (o & pre & evsE & Ho & _ & -> & Hpre & HE & ->).
    apply filter_notification_verbose_only in Hpre as [_ Hpre].
    apply engine_events_filter in HE as [_ HE].
    rewrite !List.filter_app, Hpre, HE. cbn [app]. unfold epilogue.
    destruct (success o) eqn:Hs; rewrite !List.filter_app, Hnote; cbn [Z.eqb andb app];
      [|done].
    rewrite app_nil_r. unfold sound_events. destruct (path_exists _ _); [|done].
    destruct (audio_player env); [|done]. by destruct (verbose args).
  - destruct H as (-> & _ & ->). unfold refusal. cbn [Z.eqb andb].
    destruct (os_access_R_OK (w_fs w) gopro_mount);
      rewrite !List.filter_app, Hnote; [|done].
    unfold verbose_records. by destruct (verbose args).
Qed.

End MountRun.

(** * The program as a whole: how a run ends *)

Section Exit.
Variable args : Args.
Variable env : Env.

Lemma process_mount_final gopro_mount w :
  ∃ code w' ev,
    process_mount args env gopro_mount w = (Ok code, w') ∧
    last (w_events w') = Some ev ∧ final_record code ev = true.
Proof.
  destruct (process_mount_cases args env gopro_mount w)
    as (code & w' & evs & Hrun & Hev & _ & H).
  exists code, w'. rewrite Hev. destruct (_ && _).
  - destruct H as (o & pre & evsE & _ & _ & -> & _ & _ & ->).
    unfold epilogue. destruct (success o); eexists; (split; [done|]);
      rewrite !app_assoc, last_snoc; done.
  - destruct H as (-> & _ & ->). unfold refusal.
    destruct (os_access_R_OK _ _); eexists; (split; [done|]);
      rewrite !app_assoc, last_snoc; done.
Qed.

Lemma wp_verbose_debug m (Q : res unit → world → Prop) w :
  engine_message m = false →
  (∀ w', idle w w' → Q (Ok tt) w') →
  wp (verbose_debug args m) Q w.
Proof.
  intros Hm HQ. unfold verbose_debug, logger_debug. destruct (verbose args).
  - apply wp_emit, HQ. by apply idle_log.
  - apply wp_ret, HQ, idle_refl.
Qed.

Lemma wp_get_device_info (Q : res unit → world → Prop) w :
  (∀ w', idle w w' → Q (Ok tt) w') →
  wp (get_device_info args env) Q w.
Proof.
  intros HQ. unfold get_device_info. destruct (verbose args); cbn [negb].
  - by apply wp_probe.
  - apply wp_ret, HQ, idle_refl.
Qed.

(** Lines 345-428: a mount was found; the turn ends the run. *)
Lemma mount_found_exits gopro_mount w :
  wp (verbose_info args (MsgDetectedAt gopro_mount);;
      get_device_info args env;;
      verbose_debug args (MsgDeviceInfo "usb");;
      verbose_debug args (MsgDeviceInfo "mount");;
      verbose_debug args (MsgDeviceInfo "gvfs_gio");;
      verbose_debug args (MsgDeviceInfo "gvfs_list");;
      code ← process_mount args env gopro_mount;
      mret (Some code)) exited w.
Proof.
  apply wp_bind, wp_verbose_info; [done|]. intros w1 _.
  apply wp_bind, wp_get_device_info. intros w2 _.
  apply wp_bind, wp_verbose_debug; [done|]. intros w3 _.
  apply wp_bind, wp_verbose_debug; [done|]. intros w4 _.
  apply wp_bind, wp_verbose_debug; [done|]. intros w5 _.
  apply wp_bind, wp_verbose_debug; [done|]. intros w6 _.
  apply wp_bind, wp_intro. intros r w7 Hrun.
  destruct (process_mount_final gopro_mount w6) as (code & w' & ev & Hrun' & Hlast & Hfin).
  rewrite Hrun' in Hrun. injection Hrun as <- <-.
  apply wp_ret. by exists code, ev.
Qed.

(** Lines 328-436: a turn either ends the run or takes a second or more. *)
Lemma poll_once_spec w :
  wp (poll_once args env)
     (λ r w', (r = Ok None ∧ w_clock w + TICKS_PER_SECOND ≤ w_clock w') ∨
              exited r w') w.
Proof.
  assert (Hsleep : ∀ w1, idle w w1 →
    wp (time_sleep env 1;; mret None)
       (λ (r : res (option Z)) w',
          (r = Ok None ∧ w_clock w + TICKS_PER_SECOND ≤ w_clock w') ∨ exited r w') w1).
  { intros w1 Hi. apply wp_bind, wp_time_sleep; [lia|]. intros w2 Hi2 Hc. apply wp_ret.
    left. split; [done|]. destruct Hi as (_ & ? & _). lia. }
  assert (Hfound : ∀ gopro_mount w1,
    wp (verbose_info args (MsgDetectedAt gopro_mount);;
        get_device_info args env;;
        verbose_debug args (MsgDeviceInfo "usb");;
        verbose_debug args (MsgDeviceInfo "mount");;
        verbose_debug args (MsgDeviceInfo "gvfs_gio");;
        verbose_debug args (MsgDeviceInfo "gvfs_list");;
        code ← process_mount args env gopro_mount;
        mret (Some code))
       (λ r w', (r = Ok None ∧ w_clock w + TICKS_PER_SECOND ≤ w_clock w') ∨
                exited r w') w1).
  { intros gopro_mount w1. eapply wp_mono; [apply mount_found_exits|].
    cbn beta. intros r w' H. by right. }
  unfold poll_once. apply wp_bind. unfold check_mtp_connection. apply wp_probe.
  intros w1 Hi1. destruct (check_mtp_connection_reply env (w_clock w)).
  2:{ apply wp_bind, wp_verbose_info; [done|]. intros w2 Hi2.
      apply Hsleep. by eapply idle_trans. }
  apply wp_bind, wp_verbose_info; [done|]. intros w2 Hi2.
  apply wp_bind. unfold is_gopro_connected. apply wp_probe. intros w3 Hi3.
  assert (Hi03 : idle w w3) by (eapply idle_trans; [|exact Hi3]; by eapply idle_trans).
  destruct (is_gopro_connected_reply env (w_clock w2)) as [m1|].
  { apply wp_bind, wp_ret, wp_bind, wp_ret. apply Hfound. }
  apply wp_bind, wp_bind, wp_verbose_info; [done|]. intros w4 Hi4.
  unfold find_gopro_mount_point. apply wp_probe. intros w5 Hi5.
  assert (Hi05 : idle w w5) by (eapply idle_trans; [|exact Hi5]; by eapply idle_trans).
  destruct (find_gopro_mount_point_reply env (w_clock w4)) as [m2|].
  { apply wp_bind, wp_ret. apply Hfound. }
  apply wp_bind, wp_bind, wp_verbose_info; [done|]. intros w6 Hi6.
  unfold try_access_gopro_mtp. apply wp_probe. intros w7 Hi7.
  assert (Hi07 : idle w w7) by (eapply idle_trans; [|exact Hi7]; by eapply idle_trans).
  destruct (try_access_gopro_mtp_reply env (w_clock w6)) as [m3|].
  { apply Hfound. }
  apply wp_bind, wp_verbose_info; [done|]. intros w8 Hi8.
  apply Hsleep. by eapply idle_trans.
Qed.

(** Lines 327-439: with [n] turns to spare beyond the seconds left, the
    loop ends the run. *)
Lemma poll_loop_exits n : ∀ timeout w,
  timeout - w_clock w ≤ TICKS_PER_SECOND * Z.of_nat n →
  wp (poll_loop args env (S n) timeout) exited w.
Proof.
  assert (Hout : ∀ w, wp (logger_info MsgTimeout;; mret (Some 0)) exited w).
  { intros w. unfold logger_info. apply wp_bind, wp_emit, wp_ret.
    exists 0, (Log INFO MsgTimeout). split; [done|]. split; [apply last_snoc|done]. }
  induction n as [|n IH]; intros timeout w Hleft; cbn [poll_loop];
    apply wp_bind; unfold time_time, get_clock; apply wp_intro; intros r w' [= <- <-].
  - assert ((w_clock w <? timeout) = false) as -> by (apply Z.ltb_ge; lia).
    apply Hout.
  - destruct (w_clock w <? timeout) eqn:Hlt; [|apply Hout].
    apply wp_bind. eapply wp_mono; [apply poll_once_spec|]. cbn beta.
    intros r w1 [[-> Hc]|(code & ev & -> & Hlast & Hfin)].
    + apply IH. unfold TICKS_PER_SECOND in *. lia.
    + apply wp_ret. by exists code, ev.
Qed.

Lemma main_exits n w : (7 ≤ n)%nat → wp (main args env (S n)) exited w.
Proof.
  intros Hn. unfold main, logger_info.
  apply wp_bind, wp_emit, wp_bind, wp_emit, wp_bind, wp_emit, wp_bind.
  unfold time_time, get_clock. apply wp_intro. intros r w' [= <- <-].
  apply poll_loop_exits. unfold TICKS_PER_SECOND. cbn [w_clock add_event]. lia.
Qed.

(** A turn budget that was enough is enough when it is larger. *)
Lemma poll_loop_more_turns n : ∀ timeout w code w',
  poll_loop args env n timeout w = (Ok (Some code), w') →
  poll_loop args env (S n) timeout w = (Ok (Some code), w').
Proof.
  induction n as [|n IH]; intros timeout w code w' H; [done|].
  cbn [poll_loop] in H. change (poll_loop args env (S (S n)) timeout w) with
    ((now ← time_time;
      if now <? timeout then
        r ← poll_once args env;
        match r with
        | Some code => mret (Some code)
        | None => poll_loop args env (S n) timeout
        end
      else logger_info MsgTimeout;; mret (Some 0)) w).
  revert H. unfold mbind, M_bind, bind, time_time, get_clock.
  destruct (w_clock w <? timeout); [|done].
  destruct (poll_once args env w) as [[[c|]|e] w1]; [done| |done].
  apply IH.
Qed.

Lemma main_more_turns n m w code w' :
  (n ≤ m)%nat →
  main args env n w = (Ok (Some code), w') →
  main args env m w = (Ok (Some code), w').
Proof.
  intros Hnm. induction Hnm as [|m Hnm IH]; [done|]. intros H. specialize (IH H).
  revert IH. unfold main, mbind, M_bind, bind, logger_info, emit, time_time, get_clock.
  apply poll_loop_more_turns.
Qed.

(** Property X15.  Whatever the camera and the file system do, the program ends within
    eight turns of its polling loop: it exits with code 0 or 1, the last
    record of the log says which (time-out or completion for 0, one of
    the three error messages for 1), and a larger turn budget changes
    nothing. *)
Theorem main_always_exits turns w :
  (8 ≤ turns)%nat →
  ∃ code w' ev,
    main args env turns w = (Ok (Some code), w') ∧
    main args env 8 w = (Ok (Some code), w') ∧
    (code = 0 ∨ code = 1) ∧
    last (w_events w') = Some ev ∧
    final_record code ev = true.
Proof.
  intros Hturns.
  destruct (main args env 8 w) as [r w'] eqn:Hrun.
  pose proof (wp_run _ _ _ _ _ (main_exits 7 w ltac:(lia)) Hrun)
    as (code & ev & -> & Hlast & Hfin).
  exists code, w', ev. split; [by apply (main_more_turns 8)|]. split; [done|].
  split; [|done]. destruct ev as [[] []| |]; cbn in Hfin; try done; lia.
Qed.

End Exit.

(** * From a calendar day to its bucket and back *)

Lemma all_from_one_spec n f z :
  all_from_one n f = true → 1 ≤ z ≤ Z.of_nat n → f z = true.
Proof.
  unfold all_from_one. intros H Hz.
  assert (Hk : ∀ k, (k < n)%nat → f (Z.of_nat k + 1) = true).
  { intros k Hk. apply (proj1 (forallb_forall _ _) H k), in_seq. lia. }
  specialize (Hk (Z.to_nat (z - 1)) ltac:(lia)).
  by replace (Z.of_nat (Z.to_nat (z - 1)) + 1) with z in Hk by lia.
Qed.

Lemma cycle_dates_checked : all_from_one 400 year_checked = true.
Proof. vm_cast_no_check (eq_refl true). Qed.

Lemma first_cycle_round_trips y m dd :
  1 ≤ y ≤ 400 → 1 ≤ m ≤ 12 → 1 ≤ dd ≤ _days_in_month y m →
  date_round_trips (mkDate y m dd) = true.
Proof.
  intros Hy Hm Hd.
  pose proof (all_from_one_spec _ _ y cycle_dates_checked ltac:(lia)) as H1.
  pose proof (all_from_one_spec _ _ m H1 ltac:(lia)) as H2.
  apply (all_from_one_spec _ _ dd H2). lia.
Qed.

(** A date of the range is a date of the first 400 years, shifted by a
    number of 400-year cycles. *)
Lemma valid_date_cycle d :
  valid_date d →
  ∃ q d0, d = shift_years q d0 ∧ 0 ≤ q ∧ 1 ≤ year d0 ≤ 400 ∧
          date_round_trips d0 = true.
Proof.
  intros (Hy & Hm & Hd). destruct d as [y m dd]. cbn [year month day] in *.
  set (q := (y - 1) / 400). set (y0 := (y - 1) mod 400 + 1).
  assert (Hdm : y - 1 = 400 * q + (y - 1) mod 400) by (apply Z.div_mod; lia).
  assert (Hr : 0 ≤ (y - 1) mod 400 < 400) by (apply Z.mod_pos_bound; lia).
  assert (Hq : 0 ≤ q) by (apply Z.div_pos; lia).
  assert (Hyq : y = y0 + 400 * q) by (unfold y0; lia).
  assert (Hdim : _days_in_month y m = _days_in_month y0 m).
  { rewrite Hyq. apply _days_in_month_shift. }
  exists q, (mkDate y0 m dd). cbn [year]. split.
  { unfold shift_years; cbn [year month day]. by rewrite <- Hyq. }
  split; [done|]. split; [unfold y0; lia|].
  apply first_cycle_round_trips; [unfold y0; lia|done|]. by rewrite <- Hdim.
Qed.

Lemma _days_before_year_le y : y ≤ 10000 → _days_before_year y ≤ MAX_ORDINAL.
Proof.
  unfold _days_before_year, MAX_ORDINAL. cbv zeta. intros Hy.
  Z.div_mod_to_equations. lia.
Qed.

(** The ordinal of a date of the range is in the range of ordinals. *)
Lemma _ymd2ord_range d : valid_date d → 1 ≤ _ymd2ord d ≤ MAX_ORDINAL.
Proof.
  intros Hd. pose proof Hd as (Hy & _).
  destruct (valid_date_cycle d Hd) as (q & d0 & -> & Hq & Hy0 & Hrt).
  unfold date_round_trips in Hrt. cbv zeta in Hrt.
  rewrite !andb_true_iff, !Z.leb_le in Hrt.
  destruct Hrt as ((((Hn1 & Hn2) & _) & _) & _).
  rewrite _ymd2ord_shift. unfold shift_years in Hy. cbn [year] in Hy.
  pose proof (_days_before_year_shift (year d0 + 1) q) as Hs.
  pose proof (_days_before_year_le (year d0 + 1 + 400 * q) ltac:(lia)).
  unfold _DI400Y in *. lia.
Qed.

(** [_ord2ymd] undoes [_ymd2ord] on every date of the range. *)
Lemma _ord2ymd_ymd2ord d : valid_date d → _ord2ymd (_ymd2ord d) = d.
Proof.
  intros Hd. destruct (valid_date_cycle d Hd) as (q & d0 & -> & Hq & Hy0 & Hrt).
  unfold date_round_trips in Hrt. cbv zeta in Hrt.
  rewrite !andb_true_iff, !Z.leb_le, !Z.eqb_eq in Hrt.
  destruct Hrt as ((((Hn1 & Hn2) & Ey) & Em) & Ed).
  pose proof (_days_before_year_shift (year d0 + 1 - 400) 1) as Hs.
  replace (year d0 + 1 - 400 + 400 * 1) with (year d0 + 1) in Hs by lia.
  assert (Hneg : _days_before_year (year d0 + 1 - 400) ≤ 0).
  { unfold _days_before_year. cbv zeta. Z.div_mod_to_equations. lia. }
  rewrite _ymd2ord_shift, _ord2ymd_shift.
  set (n0 := _ymd2ord d0) in *. unfold _DI400Y in *.
  replace ((n0 + 146097 * q - 1) / 146097) with q.
  2:{ apply (Z.div_unique_pos _ _ q (n0 - 1)); lia. }
  replace ((n0 + 146097 * q - 1) mod 146097 + 1) with n0.
  2:{ assert ((n0 + 146097 * q - 1) mod 146097 = n0 - 1); [|lia].
      symmetry. apply (Z.mod_unique_pos _ _ q (n0 - 1)); lia. }
  f_equal. destruct (_ord2ymd n0) as [y1 m1 d1], d0 as [y0 m0 dd0].
  cbn [year month day] in *. congruence.
Qed.

(** ** The text of a bucket name determines the date *)

Lemma string_app_inj (s1 s2 t1 t2 : string) :
  String.length s1 = String.length s2 → s1 +:+ t1 = s2 +:+ t2 → s1 = s2 ∧ t1 = t2.
Proof.
  revert s2. induction s1 as [|c s1 IH]; intros [|c2 s2] Hlen H; try discriminate Hlen.
  - done.
  - change (String c (s1 +:+ t1) = String c2 (s2 +:+ t2)) in H.
    injection H as -> H. injection Hlen as Hlen.
    destruct (IH s2 Hlen H) as [-> ->]. done.
Qed.

Lemma strftime_mdY_inj d1 d2 :
  valid_date d1 → valid_date d2 → strftime_mdY d1 = strftime_mdY d2 → d1 = d2.
Proof.
  intros (Hy1 & Hm1 & Hd1) (Hy2 & Hm2 & Hd2). unfold strftime_mdY. intros H.
  assert (Hdim : ∀ y m, _days_in_month y m ≤ 31).
  { intros y m. unfold _days_in_month. repeat case_match; lia. }
  pose proof (Hdim (year d1) (month d1)). pose proof (Hdim (year d2) (month d2)).
  apply string_app_inj in H as [Em H]; [|by rewrite !length_zero_pad].
  apply (string_app_inj "-" "-") in H as [_ H]; [|done].
  apply string_app_inj in H as [Ed H]; [|by rewrite !length_zero_pad].
  apply (string_app_inj "-" "-") in H as [_ Ey]; [|done].
  apply (f_equal parse_dec) in Em, Ed, Ey.
  rewrite !parse_dec_zero_pad in Em, Ed, Ey by (cbn; lia).
  destruct d1 as [y1 m1 dd1], d2 as [y2 m2 dd2]. cbn [year month day] in *. congruence.
Qed.

Section Buckets.
Variable env : Env.



End Buckets.

(** * The size counter *)

Lemma transferred_size_snoc fs cands c failed :
  transferred_size fs (cands ++ [c]) failed =
  transferred_size fs cands failed +
  (if bool_decide (c ∈ failed) then 0 else file_size fs c).
Proof. induction cands as [|x cands IH]; cbn [transferred_size app]; lia. Qed.

Lemma transferred_size_failed fs cands c failed :
  c ∉ cands →
  transferred_size fs cands (failed ++ [c]) = transferred_size fs cands failed.
Proof.
  induction cands as [|x cands IH]; intros Hc; cbn [transferred_size]; [done|].
  apply not_elem_of_cons in Hc as [Hne Hc]. rewrite (IH Hc). f_equal.
  destruct (decide (x ∈ failed)) as [Hx|Hx].
  - rewrite !bool_decide_eq_true_2; [done..|]. set_solver.
  - rewrite !bool_decide_eq_false_2; [done..|]. set_solver.
Qed.

Lemma transferred_size_nonneg fs cands failed : 0 ≤ transferred_size fs cands failed.
Proof.
  induction cands as [|x cands IH]; cbn [transferred_size]; [done|].
  assert (0 ≤ file_size fs x) by (unfold file_size; repeat case_match; lia).
  case_bool_decide; lia.
Qed.

Section Size.
Variable args : Args.
Variable env : Env.
Local Abbreviation new := (new_dir_stat env).
Local Abbreviation valid_mtime := (valid_mtime env).
Local Abbreviation dest_of := (dest_of env).
Local Abbreviation bucket_of := (bucket_of env).
Local Abbreviation run_inv := (run_inv args env).
Local Abbreviation scanned_fs := (scanned_fs env).

(** Line 252: the size [transfer_file] returns is the one the destination
    path has when it returns. *)
Lemma transfer_file_reads_back c st data w :
  w_fs w !! c = Some (File st data) →
  wp (transfer_file args env c)
     (λ r w', ∀ size, r = Ok size →
        ∃ n, w_fs w' !! dest_of c st = Some n ∧
             size = match n with
                    | File _ d => Z.of_nat (String.length d)
                    | Dir _ => dir_st_size env
                    end) w.
Proof.
  intros Hc. unfold transfer_file, os_path_getmtime.
  apply wp_bind, wp_bind, wp_get_fs. rewrite Hc.
  apply wp_ret, wp_bind. unfold datetime_fromtimestamp.
  destruct (_ && _); [|by apply wp_raise].
  apply wp_ret, wp_bind, wp_intro. intros [[]|e] w1 _; [|done].
  apply wp_bind, wp_intro. intros [p|e] w2 _; [|done].
  unfold os_path_getsize. apply wp_bind, wp_get_fs.
  unfold dest_of, bucket_of.
  destruct (w_fs w2 !! _) as [[st' d|st']|] eqn:Hd.
  - apply wp_ret. intros size [= <-]. by eexists.
  - apply wp_ret. intros size [= <-]. by eexists.
  - by apply wp_raise.
Qed.

(** Lines 235-261: a turn that counts a file adds to the size counter
    what the destination path holds after the turn. *)
Lemma transfer_one_size i total c p s st data w :
  w_fs w !! c = Some (File st data) →
  wp (transfer_one args env i total c p s)
     (λ r w', ∀ p' s', r = Ok (p', s') → p' = S p →
        ∃ n, w_fs w' !! dest_of c st = Some n ∧
             s' = s + match n with
                      | File _ d => Z.of_nat (String.length d)
                      | Dir _ => dir_st_size env
                      end) w.
Proof.
  intros Hc. unfold transfer_one. apply wp_try, wp_bind.
  eapply wp_mono; [exact (transfer_file_reads_back c st data w Hc)|]. cbn beta.
  intros [size|e] w1 H.
  - destruct (H size eq_refl) as (n & Hn & ->). apply wp_bind.
    destruct (_ || _).
    + unfold logger_info. apply wp_emit, wp_ret. intros p' s' [= <- <-] _. by exists n.
    + apply wp_ret, wp_ret. intros p' s' [= <- <-] _. by exists n.
  - unfold logger_error. apply wp_bind, wp_emit, wp_ret. intros p' s' [= <- <-] Hp. lia.
Qed.

(** Lines 234-261: the size counter is the sum of the sizes the
    candidates that did not fail had when the loop started. *)
Lemma transfer_loop_sizes cands wa :
  NoDup cands → candidates_ok env (w_fs wa) cands →
  wp (transfer_loop args env 0 (length cands) cands 0 0)
     (λ r w', ∃ p s evs,
        r = Ok (p, s) ∧
        w_events w' = w_events wa ++ evs ∧
        s = transferred_size (w_fs wa) cands (error_paths evs)) wa.
Proof.
  intros Hnd Hok.
  pose (P := λ (done : list path) (p : nat) (s : Z) (w : world),
    ∃ evs, w_events w = w_events wa ++ evs ∧
           run_inv (w_fs wa) done (error_paths evs) (w_fs w) ∧
           s = transferred_size (w_fs wa) done (error_paths evs)).
  eapply wp_mono.
  { apply (transfer_loop_rule args env (length cands) P cands [] 0%nat 0 wa).
    - exists []. rewrite app_nil_r. split; [done|]. split; [apply run_inv_start|done].
    - intros done c rest p s w Hsplit (evs & Hev & Hinv & Hsize).
      cbn [app] in Hsplit.
      assert (Hcin : c ∈ cands) by (rewrite Hsplit; set_solver).
      destruct (Hok c Hcin) as (st & data & Hc & Hdnone).
      assert (Hcnot : c ∉ done).
      { intros Hin. rewrite Hsplit in Hnd.
        apply NoDup_app in Hnd as (_ & Hdis & _). apply (Hdis c Hin). set_solver. }
      assert (Hcfail : c ∉ error_paths evs).
      { intros Hin. by apply (inv_failed _ _ _ _ _ _ Hinv) in Hin. }
      assert (Hcw : w_fs w !! c = Some (File st data)).
      { destruct (inv_old _ _ _ _ _ _ Hinv c _ Hc) as [|(_ & ? & _)]; done. }
      assert (Hnd' : path_isdir (w_fs w) (dest_of c st) = false).
      { unfold path_isdir.
        destruct (inv_new _ _ _ _ _ _ Hinv _ Hdnone)
          as [->|[[_ [b Hb]]|(? & ? & ? & _ & _ & _ & ->)]]; [done| |done].
        by apply dest_not_bucket_prefix in Hb. }
      assert (Hne : c ≠ dest_of c st) by (intros E; rewrite <- E in Hdnone; congruence).
      apply wp_intro. intros r w' Hrun.
      pose proof (wp_run _ _ _ _ _ (transfer_one_spec args env _ _ c p s w) Hrun)
        as (fs' & evs1 & rf & -> & Heff & Hr).
      pose proof (wp_run _ _ _ _ _ (transfer_one_size _ _ c p s st data w Hcw) Hrun)
        as Hback. cbn [w_fs] in Hback.
      destruct (transfer_effect_turn args env c st data _ rf fs' Hcw Hnd' Hne Heff)
        as (k & Hk & Hokk & Hturn).
      pose proof (run_inv_turn args env (w_fs wa) cands Hnd Hok
                    done (error_paths evs) (w_fs w) c rest k st data fs'
                    Hsplit Hc Hk Hinv Hturn) as Hinv'.
      destruct rf as [size|e]; destruct Hr as [-> Herr]; cbn in Hokk;
        rewrite <- Hokk in Hinv'.
      + exists (S p), (s + size). split; [done|]. exists (evs ++ evs1).
        cbn [w_events w_fs]. rewrite Hev, <- app_assoc. split; [done|].
        rewrite error_paths_app, Herr, app_nil_r.
        split; [by rewrite app_nil_r in Hinv'|].
        destruct (Hback _ _ eq_refl eq_refl) as (n & Hn & Hs).
        destruct Hturn as (Hd & _).
        assert (Hn' : fs' !! dest_of c st = Some (File st data)).
        { rewrite Hd. destruct k; [done|done|done]. }
        rewrite Hn' in Hn. injection Hn as <-.
        rewrite transferred_size_snoc, bool_decide_eq_false_2 by done.
        unfold file_size. rewrite Hc. lia.
      + exists p, s. split; [done|]. exists (evs ++ evs1).
        cbn [w_events w_fs]. rewrite Hev, <- app_assoc. split; [done|].
        rewrite error_paths_app, Herr. split; [done|].
        rewrite transferred_size_snoc, bool_decide_eq_true_2 by set_solver.
        rewrite transferred_size_failed by done. lia. }
  cbn beta. intros r w' (p & s & -> & evs & ? & ? & ?). by exists p, s, evs.
Qed.

(** Property X18.  The size the engine reports is the number of bytes it
    transferred: the sizes, at the time of the scan, of the candidates
    for which no error was logged, added up; a candidate that failed
    does not count, and the sum is never negative.  When the steps before
    the loop fail the size is 0. *)
Theorem total_size_is_sum_of_transferred source_dir w :
  ∃ o w' evs,
    copy_or_move_files args env source_dir w = (Ok o, w') ∧
    w_events w' = w_events w ++ evs ∧
    0 ≤ total_size_processed o ∧
    match (prepare env source_dir w).1 with
    | Ok files =>
        total_size_processed o =
        transferred_size (scanned_fs source_dir w) files (error_paths evs)
    | Raise _ => total_size_processed o = 0
    end.
Proof.
  unfold scanned_fs. rewrite copy_or_move_files_unfold.
  destruct (prepare env source_dir w) as [[files|e] w1] eqn:Hprep; cbn [fst snd].
  - pose proof (wp_run _ _ _ _ _ (prepare_spec env source_dir w) Hprep)
      as (fs1 & rm & -> & _ & _ & _ & Hfiles).
    destruct (candidates_of_scan env fs1 source_dir) as [Hnd Hok].
    rewrite <- Hfiles in Hnd, Hok.
    set (wa := announce args source_dir (length files) (with_fs fs1 w)).
    assert (Hfa : w_fs wa = fs1) by apply announce_fs.
    destruct (error_paths_announce args source_dir (length files) (with_fs fs1 w))
      as (ann & Hann & Hannerr). fold wa in Hann. cbn [w_events with_fs] in Hann.
    destruct (transfer_loop args env 0 (length files) files 0 0 wa)
      as [r w2] eqn:Hloop.
    assert (Hspec := transfer_loop_sizes files wa Hnd).
    rewrite Hfa in Hspec. specialize (Hspec Hok).
    apply (wp_run _ _ _ _ _ Hspec) in Hloop as Hres.
    destruct Hres as (p & s & evs & -> & Hev & ->).
    eexists _, _, (ann ++ evs ++ [Log INFO (MsgSuccess (move args) p _)]).
    split; [done|]. cbn [w_events w_fs add_event total_size_processed].
    split; [by rewrite Hev, Hann, <- !app_assoc|].
    split; [apply transferred_size_nonneg|].
    rewrite !error_paths_app, Hannerr. cbn [error_paths omap error_path app].
    by rewrite app_nil_r.
  - pose proof (wp_run _ _ _ _ _ (prepare_spec env source_dir w) Hprep)
      as (fs1 & rm & -> & _).
    eexists _, _, [_]. split; [done|]. cbn. done.
Qed.

End Size.

(** * The program as a whole: what it does to the files *)

Section WholeRun.
Variable args : Args.
Variable env : Env.

Local Abbreviation engine_ran_once := (engine_ran_once args env).

(** Lines 345-428, started later in the run on an unchanged file system. *)
Lemma mount_found_files w0 gopro_mount w :
  mount_reported env gopro_mount →
  w_fs w = w_fs w0 →
  wp (verbose_info args (MsgDetectedAt gopro_mount);;
      get_device_info args env;;
      verbose_debug args (MsgDeviceInfo "usb");;
      verbose_debug args (MsgDeviceInfo "mount");;
      verbose_debug args (MsgDeviceInfo "gvfs_gio");;
      verbose_debug args (MsgDeviceInfo "gvfs_list");;
      code ← process_mount args env gopro_mount;
      mret (Some code))
     (λ r w', w_fs w' = w_fs w0 ∨ engine_ran_once w0 (w_fs w')) w.
Proof.
  intros Hrep Hfs.
  apply wp_bind, wp_verbose_info; [done|]. intros w1 [Hf1 _].
  apply wp_bind, wp_get_device_info. intros w2 [Hf2 _].
  apply wp_bind, wp_verbose_debug; [done|]. intros w3 [Hf3 _].
  apply wp_bind, wp_verbose_debug; [done|]. intros w4 [Hf4 _].
  apply wp_bind, wp_verbose_debug; [done|]. intros w5 [Hf5 _].
  apply wp_bind, wp_verbose_debug; [done|]. intros w6 [Hf6 _].
  assert (Hfs6 : w_fs w6 = w_fs w0) by congruence.
  apply wp_bind, wp_intro. intros r w7 Hrun.
  destruct (process_mount_cases args env gopro_mount w6)
    as (code & w' & evs & Hrun' & _ & _ & H).
  rewrite Hrun' in Hrun. injection Hrun as <- <-. apply wp_ret.
  rewrite Hfs6 in H.
  destruct (os_access_R_OK (w_fs w0) gopro_mount) eqn:Ha; cbn [andb] in H.
  2:{ left. destruct H as (_ & -> & _). done. }
  destruct (path_isdir (w_fs w0) gopro_mount) eqn:Hd.
  2:{ left. destruct H as (_ & -> & _). done. }
  destruct H as (o & pre & evsE & _ & -> & _).
  right. exists gopro_mount. split; [done|]. split; [done|]. split; [done|].
  rewrite <- mount_source_spec.
  by apply (fs_sim_copy_or_move_files env args args eq_refl).
Qed.

(** Lines 328-436: a turn that goes on to the next leaves the files
    alone. *)
Lemma poll_once_files w0 w :
  w_fs w = w_fs w0 →
  wp (poll_once args env)
     (λ r w', (r = Ok None ∧ w_fs w' = w_fs w0) ∨
              (r ≠ Ok None ∧ (w_fs w' = w_fs w0 ∨ engine_ran_once w0 (w_fs w')))) w.
Proof.
  intros Hfs.
  assert (Hsleep : ∀ w1, w_fs w1 = w_fs w0 →
    wp (time_sleep env 1;; mret None)
       (λ (r : res (option Z)) w',
          (r = Ok None ∧ w_fs w' = w_fs w0) ∨
          (r ≠ Ok None ∧ (w_fs w' = w_fs w0 ∨ engine_ran_once w0 (w_fs w')))) w1).
  { intros w1 Hf. apply wp_bind, wp_time_sleep; [lia|]. intros w2 [Hf2 _] _.
    apply wp_ret. left. split; [done|]. congruence. }
  assert (Hfound : ∀ gopro_mount w1,
    mount_reported env gopro_mount → w_fs w1 = w_fs w0 →
    wp (verbose_info args (MsgDetectedAt gopro_mount);;
        get_device_info args env;;
        verbose_debug args (MsgDeviceInfo "usb");;
        verbose_debug args (MsgDeviceInfo "mount");;
        verbose_debug args (MsgDeviceInfo "gvfs_gio");;
        verbose_debug args (MsgDeviceInfo "gvfs_list");;
        code ← process_mount args env gopro_mount;
        mret (Some code))
       (λ r w', (r = Ok None ∧ w_fs w' = w_fs w0) ∨
                (r ≠ Ok None ∧ (w_fs w' = w_fs w0 ∨ engine_ran_once w0 (w_fs w')))) w1).
  { intros gopro_mount w1 Hrep Hf. apply wp_intro. intros r w' Hrun.
    pose proof (wp_run _ _ _ _ _ (mount_found_files w0 gopro_mount w1 Hrep Hf) Hrun) as H.
    pose proof (wp_run _ _ _ _ _ (mount_found_exits args env gopro_mount w1) Hrun)
      as (code & ev & -> & _).
    right. split; [done|exact H]. }
  unfold poll_once. apply wp_bind. unfold check_mtp_connection. apply wp_probe.
  intros w1 [Hf1 _]. destruct (check_mtp_connection_reply env (w_clock w)).
  2:{ apply wp_bind, wp_verbose_info; [done|]. intros w2 [Hf2 _].
      apply Hsleep. congruence. }
  apply wp_bind, wp_verbose_info; [done|]. intros w2 [Hf2 _].
  apply wp_bind. unfold is_gopro_connected. apply wp_probe. intros w3 [Hf3 _].
  destruct (is_gopro_connected_reply env (w_clock w2)) as [m1|] eqn:E1.
  { apply wp_bind, wp_ret, wp_bind, wp_ret. apply Hfound; [|congruence].
    exists (w_clock w2). by left. }
  apply wp_bind, wp_bind, wp_verbose_info; [done|]. intros w4 [Hf4 _].
  unfold find_gopro_mount_point. apply wp_probe. intros w5 [Hf5 _].
  destruct (find_gopro_mount_point_reply env (w_clock w4)) as [m2|] eqn:E2.
  { apply wp_bind, wp_ret. apply Hfound; [|congruence].
    exists (w_clock w4). right. by left. }
  apply wp_bind, wp_bind, wp_verbose_info; [done|]. intros w6 [Hf6 _].
  unfold try_access_gopro_mtp. apply wp_probe. intros w7 [Hf7 _].
  destruct (try_access_gopro_mtp_reply env (w_clock w6)) as [m3|] eqn:E3.
  { apply Hfound; [|congruence]. exists (w_clock w6). right. by right. }
  apply wp_bind, wp_verbose_info; [done|]. intros w8 [Hf8 _].
  apply Hsleep. congruence.
Qed.

Lemma poll_loop_files w0 n : ∀ timeout w,
  w_fs w = w_fs w0 →
  wp (poll_loop args env n timeout)
     (λ r w', w_fs w' = w_fs w0 ∨ engine_ran_once w0 (w_fs w')) w.
Proof.
  induction n as [|n IH]; intros timeout w Hfs; cbn [poll_loop].
  { apply wp_ret. by left. }
  apply wp_bind; unfold time_time, get_clock; apply wp_intro; intros r w' [= <- <-].
  destruct (w_clock w <? timeout).
  2:{ unfold logger_info. apply wp_bind, wp_emit, wp_ret. by left. }
  apply wp_bind. eapply wp_mono; [by apply (poll_once_files w0)|]. cbn beta.
  intros [[code|]|e] w1 [[Hr Hf]|[Hr H]]; try done; try (by apply wp_ret).
  by apply IH.
Qed.


End WholeRun.

(** * Worked instances of the further properties *)





Lemma unconvertible_timestamp_fails_the_batch_witness :
  valid_mtime env_idle stat_far_future = false ∧
  ∃ w' e,
    copy_or_move_files args_copy env_idle ["mnt"; "DCIM"] w_far_future =
      (Ok (mkOutcome false 0 0 0), w') ∧
    w_fs w' = scanned_fs env_idle ["mnt"; "DCIM"] w_far_future ∧
    w_events w' = w_events w_far_future ++ [Log ERROR (MsgErrorBatch e)].
Proof.
  assert (H : valid_mtime env_idle stat_far_future = false) by (vm_compute; reflexivity).
  split; [exact H|].
  apply (unconvertible_timestamp_fails_the_batch args_copy env_idle ["mnt"; "DCIM"]
           w_far_future ["mnt"; "DCIM"; "z.mp4"] stat_far_future "zz").
  - apply list_elem_of_In. vm_compute. auto.
  - vm_compute; reflexivity.
  - exact H.
Defined.


Lemma no_notify_sends_no_notification_witness :
  no_notify args_no_notify = true ∧
  ∃ evs, w_events (main args_no_notify env_camera 8 w_camera).2 =
           w_events w_camera ++ evs ∧
         forallb (λ ev, negb (is_notification ev)) evs = true.
Proof.
  split; [reflexivity|].
  exact (no_notify_sends_no_notification args_no_notify env_camera 8 w_camera eq_refl).
Defined.

Lemma quiet_run_logs_no_verbose_record_witness :
  verbose args_copy = false ∧
  ∃ evs, w_events (main args_copy env_camera 8 w_camera).2 = w_events w_camera ++ evs ∧
         forallb (λ ev, negb (verbose_only ev)) evs = true.
Proof.
  split; [reflexivity|].
  exact (quiet_run_logs_no_verbose_record args_copy env_camera 8 w_camera eq_refl).
Defined.

Lemma mount_sends_one_notification_witness :
  no_notify args_copy = false ∧ notifier_ok env_camera = true ∧
  ∃ code w' evs body,
    process_mount args_copy env_camera ["mnt"] w_camera = (Ok code, w') ∧
    w_events w' = w_events w_camera ++ evs ∧
    List.filter is_notification evs =
      [Notification (if code =? 0 then "Status: Successful" else "Status: Failed")
                    body
                    (if code =? 0 then "camera-photo" else "dialog-error")] ∧
    (code = 0 →
     ∃ o, (copy_or_move_files args_copy env_camera
             (if path_exists (w_fs w_camera) (["mnt"] ++ ["DCIM"])
              then ["mnt"] ++ ["DCIM"] else ["mnt"]) w_camera).1 = Ok o ∧
          body = NoticeProgress (processed_new_files o) (total_new_files o)
                                (move args_copy) (total_size_processed o)).
Proof.
  split; [reflexivity|]. split; [reflexivity|].
  exact (mount_sends_one_notification args_copy env_camera ["mnt"] w_camera
           eq_refl eq_refl).
Defined.

Lemma main_always_exits_witness :
  (8 ≤ 8)%nat ∧
  ∃ code w' ev,
    main args_copy env_camera 8 w_camera = (Ok (Some code), w') ∧
    main args_copy env_camera 8 w_camera = (Ok (Some code), w') ∧
    (code = 0 ∨ code = 1) ∧
    last (w_events w') = Some ev ∧
    final_record code ev = true.
Proof.
  assert (H : (8 ≤ 8)%nat) by exact (le_n 8).
  split; [exact H|].
  exact (main_always_exits args_copy env_camera 8 w_camera H).
Defined.


